(** * Semase: hybrid search fusion, snippets and the search endpoint

    A shallow embedding of [src/utils.py] (the data model and
    [aggregate_search_hits]), of [src/main.py] ([make_snippet],
    [_recall_k], [text_search], [vector_search], [search]), of
    [src/settings.py] ([_env], [_env_int], [Settings.from_env]) and of
    [src/setup.py] ([setup]), followed by the properties of the
    specification that are settled on it and by further properties of the
    code.

    Python values are modelled as follows.
    - [float] is IEEE 754 binary64: Rocq's primitive [float], with the
      primitive operations; comparisons are the IEEE ones ([nan] compares
      false with everything, [0.0 == -0.0]).
    - [int] is [Z].
    - a [str] that is only compared and used as a dictionary key (document
      and chunk identifiers) is a [string]; a [str] that is measured, sliced
      and searched (texts, queries) is a list of code points, [pystr].
    - a [dict] whose iteration order is observed is an association list in
      insertion order ([ODict.t]); the rank maps, which are only looked up,
      are [gmap]s.
    - an exception is the [Raise] branch of [result]. *)

From Stdlib Require Import ZArith Floats Ascii String.
From stdpp Require Import gmap strings list sorting.

Local Open Scope Z_scope.

(* ================================================================= *)
(** * Part I: the model                                               *)
(* ================================================================= *)

(** ** Exceptions and the error monad *)

Inductive exn : Type :=
  | ZeroDivisionError
  | OverflowError
  | KeyError (key : string)
  | ValueError (msg : string)
  | HttpResponseError (msg : string).

Inductive result (A : Type) : Type :=
  | Ok (a : A)
  | Raise (e : exn).
Arguments Ok {A} a.
Arguments Raise {A} e.

Definition bind {A B : Type} (r : result A) (k : A -> result B) : result B :=
  match r with
  | Ok a => k a
  | Raise e => Raise e
  end.

Declare Scope result_scope.
Delimit Scope result_scope with result.
Notation "x <- r ;; k" := (bind r (fun x => k))
  (at level 100, r at next level, right associativity) : result_scope.
Local Open Scope result_scope.

(** [[f(x) for x in l]] where [f] may raise: the first exception, in list
    order, aborts the loop. *)
Fixpoint mapM {A B : Type} (f : A -> result B) (l : list A) : result (list B) :=
  match l with
  | [] => Ok []
  | x :: l' => y <- f x ;; ys <- mapM f l' ;; Ok (y :: ys)
  end.

(** ** Python floats *)

Module PyFloat.

Definition zero : float := 0%float.
Definition one : float := 1%float.
Definition neg_inf : float := neg_infinity.

Definition is_nan (x : float) : bool := negb (PrimFloat.eqb x x).

Definition not_nan (x : float) : Prop := is_nan x = false.

(** [x <= y] and [x < y] as propositions. *)
Definition le (x y : float) : Prop := PrimFloat.leb x y = true.
Definition lt (x y : float) : Prop := PrimFloat.ltb x y = true.

(** [bool(x)]: a float is falsy exactly when it compares equal to zero
    (so both [0.0] and [-0.0] are falsy, [nan] is truthy). *)
Definition truthy (x : float) : bool := negb (PrimFloat.eqb x zero).

(** [x > y] *)
Definition gt (x y : float) : bool := PrimFloat.ltb y x.

(** The builtin [max(a, b)] on two arguments: it keeps [a] unless
    [b > a]. *)
Definition max (a b : float) : float := if gt b a then b else a.

(** [o or float("-inf")] for an optional float [o]: [None] and the
    falsy floats give the right operand. *)
Definition or_neg_inf (o : option float) : float :=
  match o with
  | Some x => if truthy x then x else neg_inf
  | None => neg_inf
  end.

(** The float nearest to an [int] in range. *)
Definition nearest (n : Z) : float :=
  SF2Prim (binary_normalize prec emax n 0 false).

(** [float(n)] for an [int]: correctly rounded (nearest, ties to even);
    an [int] that would round to [2^1024] raises [OverflowError]. *)
Definition overflow_threshold : Z := 2 ^ 1024 - 2 ^ 970.

Definition of_int (n : Z) : result float :=
  if overflow_threshold <=? Z.abs n then Raise OverflowError
  else Ok (nearest n).

(** Two floats that are the same value: identical, or equal as [==]
    compares them (the two zeros). *)
Definition same (x y : float) : Prop := x = y ∨ PrimFloat.eqb x y = true.

(** [x / n] for a float [x] and an [int] [n]: [n] is converted first,
    then a zero divisor raises. A non-zero [int] never converts to zero,
    so the test is made on the integer. *)
Definition truediv_int (x : float) (n : Z) : result float :=
  d <- of_int n ;;
  if n =? 0 then Raise ZeroDivisionError else Ok (PrimFloat.div x d).

End PyFloat.

(** ** Python lists: slices and [sorted] *)

(** [l[:stop]] *)
Definition slice_to {A : Type} (stop : Z) (l : list A) : list A :=
  if 0 <=? stop then take (Z.to_nat stop) l
  else take (Z.to_nat (Z.of_nat (length l) + stop)) l.

(** An index of a slice brought into [[0, len]]. *)
Definition clamp_index (len i : Z) : Z :=
  if i <? 0 then Z.max 0 (len + i) else Z.min len i.

(** [l[start:stop]] *)
Definition slice {A : Type} (start stop : Z) (l : list A) : list A :=
  let len := Z.of_nat (length l) in
  let a := clamp_index len start in
  let b := clamp_index len stop in
  take (Z.to_nat (b - a)) (drop (Z.to_nat a) l).

(** [sorted(l, key=key, reverse=True)] for float keys. Python's sort is
    stable, also under [reverse=True]: elements are put in descending key
    order and elements with equal keys keep their order in [l]. It only
    compares keys with [<]. Insertion from the right end gives exactly that
    list whenever [<] is a strict weak order on the keys, that is when no
    key is [nan]. *)
Section Sorted.
Context {A : Type} (key : A -> float).

Fixpoint insert_desc (x : A) (l : list A) : list A :=
  match l with
  | [] => [x]
  | y :: l' =>
      if PrimFloat.ltb (key x) (key y) then y :: insert_desc x l'
      else x :: y :: l'
  end.

Definition sorted_desc (l : list A) : list A :=
  foldr insert_desc [] l.

(** [desc x y]: [x] may stand before [y] in descending key order,
    [key x >= key y]. *)
Definition desc (x y : A) : Prop := PrimFloat.leb (key y) (key x) = true.
End Sorted.

(** ** Python dicts with observed iteration order *)

Module ODict.
Section ODict.
Context {V : Type}.

Definition t : Type := list (string * V).

(** [d.get(k)] *)
Fixpoint get (k : string) (d : t) : option V :=
  match d with
  | [] => None
  | (k', v) :: d' => if String.eqb k k' then Some v else get k d'
  end.

(** [d[k] = v]: an existing key keeps its place, a new key goes last. *)
Fixpoint set (k : string) (v : V) (d : t) : t :=
  match d with
  | [] => [(k, v)]
  | (k', v') :: d' =>
      if String.eqb k k' then (k', v) :: d' else (k', v') :: set k v d'
  end.

Definition keys (d : t) : list string := d.*1.
Definition values (d : t) : list V := d.*2.
Definition items (d : t) : list (string * V) := d.

(** [d[k] = f(d[k])] for a key [k] of [d]. *)
Definition alter (f : V -> V) (k : string) (d : t) : t :=
  match get k d with
  | Some v => set k (f v) d
  | None => d
  end.
End ODict.
Arguments t : clear implicits.
End ODict.

(** ** [src/utils.py]: the data model *)

Definition codepoint : Type := N.
Definition pystr : Type := list codepoint.

(** A [datetime] is only carried around; it is kept as its ISO text. *)
Definition datetime : Type := pystr.

Record DocumentMetaData : Type := {
  title : pystr;
  url : pystr;
  content_type : pystr;
  last_modified : datetime;
  storage_size : Z
}.

Inductive Retriever : Type := bm25_retriever | vector_retriever.

Record Passage : Type := {
  chunk_id : string;
  text : pystr;
  p_score : float;
  retriever : Retriever
}.

Record SearchHit : Type := {
  id : string;
  bm25 : option float;
  cosine : option float;
  score : float;
  meta : option DocumentMetaData;
  passages : list Passage
}.

(** [SearchHit(id=doc_id, passages=[])] *)
Definition new_hit (doc_id : string) : SearchHit :=
  {| id := doc_id; bm25 := None; cosine := None; score := PyFloat.zero;
     meta := None; passages := [] |}.

(** ** [src/utils.py]: [aggregate_search_hits] on values *)

Definition text_hits (hits_list : list SearchHit) : list SearchHit :=
  filter (fun h => is_Some (bm25 h)) hits_list.

Definition vector_hits (hits_list : list SearchHit) : list SearchHit :=
  filter (fun h => is_Some (cosine h)) hits_list.

(** [d.setdefault(k, v)] on a rank map. *)
Definition setdefault (k : string) (v : Z) (d : gmap string Z) : gmap string Z :=
  match d !! k with
  | Some _ => d
  | None => <[k := v]> d
  end.

(** [for i, h in enumerate(hs, start=i): rank.setdefault(h.id, i)] *)
Fixpoint rank_loop (i : Z) (hs : list SearchHit) (rank : gmap string Z)
  : gmap string Z :=
  match hs with
  | [] => rank
  | h :: hs' => rank_loop (i + 1) hs' (setdefault (id h) i rank)
  end.

Definition rank_map (hs : list SearchHit) : gmap string Z := rank_loop 1 hs ∅.

Definition text_rank (hits_list : list SearchHit) : gmap string Z :=
  rank_map (text_hits hits_list).

Definition vector_rank (hits_list : list SearchHit) : gmap string Z :=
  rank_map (vector_hits hits_list).

(** [_ensure(doc_id)], on the dictionary. *)
Definition ensure (doc_id : string) (merged : ODict.t SearchHit) : ODict.t SearchHit :=
  match ODict.get doc_id merged with
  | Some _ => merged
  | None => ODict.set doc_id (new_hit doc_id) merged
  end.

(** The body of the merge loop on the merged hit [m], for the input hit
    [h]. *)
Definition fold_hit (h m : SearchHit) : SearchHit :=
  {| id := id m;
     bm25 := match bm25 h with
             | Some b => Some (PyFloat.max (PyFloat.or_neg_inf (bm25 m)) b)
             | None => bm25 m
             end;
     cosine := match cosine h with
               | Some c => Some (PyFloat.max (PyFloat.or_neg_inf (cosine m)) c)
               | None => cosine m
               end;
     score := score m;
     meta := meta m;
     passages := match passages h with
                 | [] => passages m
                 | _ :: _ => passages m ++ passages h
                 end |}.

Definition merge_step (merged : ODict.t SearchHit) (h : SearchHit)
  : ODict.t SearchHit :=
  let merged' := ensure (id h) merged in
  match ODict.get (id h) merged' with
  | Some m => ODict.set (id h) (fold_hit h m) merged'
  | None => merged'
  end.

Definition merge_hits (hits_list : list SearchHit) : ODict.t SearchHit :=
  foldl merge_step [] hits_list.

(** The deduplication loop over [m.passages]. *)
Definition dedup_step (best_by_chunk : ODict.t Passage) (p : Passage)
  : ODict.t Passage :=
  match ODict.get (chunk_id p) best_by_chunk with
  | None => ODict.set (chunk_id p) p best_by_chunk
  | Some old =>
      if PyFloat.gt (p_score p) (p_score old)
      then ODict.set (chunk_id p) p best_by_chunk
      else best_by_chunk
  end.

Definition best_by_chunk (ps : list Passage) : ODict.t Passage :=
  foldl dedup_step [] ps.

Definition top_passages (max_passages_per_doc : Z) (ps : list Passage)
  : list Passage :=
  slice_to max_passages_per_doc
    (sorted_desc p_score (ODict.values (best_by_chunk ps))).

(** One modality's contribution: [s += w * (1.0 / (rrf_k + rank[doc_id]))]
    when [doc_id in rank]. *)
Definition add_rrf (w : float) (rrf_k : Z) (rank : gmap string Z)
    (doc_id : string) (s : float) : result float :=
  match rank !! doc_id with
  | Some r =>
      q <- PyFloat.truediv_int PyFloat.one (rrf_k + r) ;;
      Ok (PrimFloat.add s (PrimFloat.mul w q))
  | None => Ok s
  end.

Definition rrf_score (w_text w_vector : float) (rrf_k : Z)
    (trank vrank : gmap string Z) (doc_id : string) : result float :=
  s <- add_rrf w_text rrf_k trank doc_id PyFloat.zero ;;
  add_rrf w_vector rrf_k vrank doc_id s.

(** The body of the scoring loop for one entry of [merged.items()]. *)
Definition score_doc (w_text w_vector : float) (rrf_k max_passages_per_doc : Z)
    (trank vrank : gmap string Z) (entry : string * SearchHit)
  : result SearchHit :=
  let '(doc_id, m) := entry in
  s <- rrf_score w_text w_vector rrf_k trank vrank doc_id ;;
  Ok {| id := id m; bm25 := bm25 m; cosine := cosine m; score := s;
        meta := meta m;
        passages := top_passages max_passages_per_doc (passages m) |}.

Definition aggregate_search_hits (hits : list SearchHit)
    (w_text w_vector : float) (rrf_k max_passages_per_doc : Z)
  : result (list SearchHit) :=
  let hits_list := hits in
  let trank := text_rank hits_list in
  let vrank := vector_rank hits_list in
  let merged := merge_hits hits_list in
  scored <- mapM (score_doc w_text w_vector rrf_k max_passages_per_doc
                    trank vrank) (ODict.items merged) ;;
  Ok (sorted_desc score scored).

(** The keyword defaults. *)
Definition default_w : float := 1%float.
Definition default_rrf_k : Z := 60.
Definition default_max_passages : Z := 3.

Definition aggregate_default (hits : list SearchHit) : result (list SearchHit) :=
  aggregate_search_hits hits default_w default_w default_rrf_k
    default_max_passages.

(** ** A state and error monad

    Used twice: with the object store as state, for the aliasing of
    [aggregate_search_hits], and with the log of calls to the external
    services as state, for [search]. A raised exception keeps the state
    reached so far. *)

Definition M (S A : Type) : Type := S -> S * result A.

Definition ret {S A : Type} (a : A) : M S A := fun s => (s, Ok a).

Definition lift {S A : Type} (r : result A) : M S A := fun s => (s, r).

Definition mbind {S A B : Type} (c : M S A) (k : A -> M S B) : M S B :=
  fun s =>
    match c s with
    | (s', Ok a) => k a s'
    | (s', Raise e) => (s', Raise e)
    end.

Definition gets {S A : Type} (f : S -> A) : M S A := fun s => (s, Ok (f s)).

Definition modify {S : Type} (f : S -> S) : M S unit := fun s => (f s, Ok tt).

Declare Scope monad_scope.
Delimit Scope monad_scope with monad.
Notation "x <~ c ;; k" := (mbind c (fun x => k))
  (at level 100, c at next level, right associativity) : monad_scope.
Notation "c ;;; k" := (mbind c (fun _ => k))
  (at level 100, right associativity) : monad_scope.

Section MonadLoops.
Context {S A B : Type}.
Local Open Scope monad_scope.

(** [[f(x) for x in l]] *)
Fixpoint mapM_st (f : A -> M S B) (l : list A) : M S (list B) :=
  match l with
  | [] => ret []
  | x :: l' => y <~ f x ;; ys <~ mapM_st f l' ;; ret (y :: ys)
  end.

(** [for x in l: acc = f(acc, x)] *)
Fixpoint foldM_st (f : B -> A -> M S B) (acc : B) (l : list A) : M S B :=
  match l with
  | [] => ret acc
  | x :: l' => acc' <~ f acc x ;; foldM_st f acc' l'
  end.
End MonadLoops.

(** ** [src/utils.py]: [aggregate_search_hits] on objects

    The same function with the objects it reads and writes made explicit.
    A [SearchHit] is an object in the store with mutable fields; its
    [passages] field refers to a list object, which [extend] changes in
    place. A [Passage] is never written by the code and stays a value. *)

Definition loc : Type := positive.

Record HitObj : Type := {
  o_id : string;
  o_bm25 : option float;
  o_cosine : option float;
  o_score : float;
  o_meta : option DocumentMetaData;
  o_passages : loc
}.

Record heap : Type := {
  hit_objs : gmap loc HitObj;
  list_objs : gmap loc (list Passage)
}.

Definition blank_obj : HitObj :=
  {| o_id := EmptyString; o_bm25 := None; o_cosine := None;
     o_score := PyFloat.zero; o_meta := None; o_passages := 1%positive |}.

Definition hit_at (σ : heap) (l : loc) : HitObj :=
  default blank_obj (hit_objs σ !! l).

Definition list_at (σ : heap) (l : loc) : list Passage :=
  default [] (list_objs σ !! l).

(** The list object of the hit at [l]. *)
Definition list_of (σ : heap) (l : loc) : loc := o_passages (hit_at σ l).

(** The value of an object whose list holds [ps]. *)
Definition mk_view (o : HitObj) (ps : list Passage) : SearchHit :=
  {| id := o_id o; bm25 := o_bm25 o; cosine := o_cosine o;
     score := o_score o; meta := o_meta o; passages := ps |}.

(** The value of the object at [l], its list read through. *)
Definition view (σ : heap) (l : loc) : SearchHit :=
  mk_view (hit_at σ l) (list_at σ (list_of σ l)).

Definition set_hit (l : loc) (o : HitObj) (σ : heap) : heap :=
  {| hit_objs := <[l := o]> (hit_objs σ); list_objs := list_objs σ |}.

Definition set_list (l : loc) (v : list Passage) (σ : heap) : heap :=
  {| hit_objs := hit_objs σ; list_objs := <[l := v]> (list_objs σ) |}.

Section HeapOps.
Local Open Scope monad_scope.

Definition read_hit (l : loc) : M heap HitObj := gets (fun σ => hit_at σ l).

Definition write_hit (l : loc) (o : HitObj) : M heap unit :=
  modify (set_hit l o).

Definition alloc_hit (o : HitObj) : M heap loc :=
  fun σ => let l := fresh (dom (hit_objs σ)) in (set_hit l o σ, Ok l).

Definition read_list (l : loc) : M heap (list Passage) :=
  gets (fun σ => list_at σ l).

Definition write_list (l : loc) (v : list Passage) : M heap unit :=
  modify (set_list l v).

Definition alloc_list (v : list Passage) : M heap loc :=
  fun σ => let l := fresh (dom (list_objs σ)) in (set_list l v σ, Ok l).

(** [_ensure(doc_id)]: the merged object, created with a new empty list
    when [doc_id] is not yet a key. *)
Definition h_ensure (doc_id : string) (merged : ODict.t loc)
  : M heap (ODict.t loc * loc) :=
  match ODict.get doc_id merged with
  | Some m => ret (merged, m)
  | None =>
      ps <~ alloc_list [] ;;
      m <~ alloc_hit {| o_id := doc_id; o_bm25 := None; o_cosine := None;
                        o_score := PyFloat.zero; o_meta := None;
                        o_passages := ps |} ;;
      ret (ODict.set doc_id m merged, m)
  end.

Definition h_merge_step (merged : ODict.t loc) (h : loc)
  : M heap (ODict.t loc) :=
  oh <~ read_hit h ;;
  r <~ h_ensure (o_id oh) merged ;;
  let '(merged', m) := r in
  match o_bm25 oh with
   | Some b =>
       om <~ read_hit m ;;
       write_hit m {| o_id := o_id om;
                      o_bm25 := Some (PyFloat.max (PyFloat.or_neg_inf (o_bm25 om)) b);
                      o_cosine := o_cosine om; o_score := o_score om;
                      o_meta := o_meta om; o_passages := o_passages om |}
   | None => ret tt
   end ;;;
  match o_cosine oh with
   | Some c =>
       om <~ read_hit m ;;
       write_hit m {| o_id := o_id om; o_bm25 := o_bm25 om;
                      o_cosine := Some (PyFloat.max (PyFloat.or_neg_inf (o_cosine om)) c);
                      o_score := o_score om;
                      o_meta := o_meta om; o_passages := o_passages om |}
   | None => ret tt
   end ;;;
  hps <~ read_list (o_passages oh) ;;
  match hps with
   | [] => ret tt
   | _ :: _ =>
       om <~ read_hit m ;;
       mps <~ read_list (o_passages om) ;;
       write_list (o_passages om) (mps ++ hps)
   end ;;;
  ret merged'.

Definition h_score_doc (w_text w_vector : float)
    (rrf_k max_passages_per_doc : Z) (trank vrank : gmap string Z)
    (entry : string * loc) : M heap unit :=
  let '(doc_id, m) := entry in
  s <~ lift (rrf_score w_text w_vector rrf_k trank vrank doc_id) ;;
  om <~ read_hit m ;;
  write_hit m {| o_id := o_id om; o_bm25 := o_bm25 om;
                 o_cosine := o_cosine om; o_score := s;
                 o_meta := o_meta om; o_passages := o_passages om |} ;;;
  om <~ read_hit m ;;
  ps <~ read_list (o_passages om) ;;
  top <~ alloc_list (top_passages max_passages_per_doc ps) ;;
  write_hit m {| o_id := o_id om; o_bm25 := o_bm25 om;
                 o_cosine := o_cosine om; o_score := o_score om;
                 o_meta := o_meta om; o_passages := top |}.

Definition h_aggregate_search_hits (hits : list loc)
    (w_text w_vector : float) (rrf_k max_passages_per_doc : Z)
  : M heap (list loc) :=
  hits_list <~ gets (fun σ => view σ <$> hits) ;;
  let trank := text_rank hits_list in
  let vrank := vector_rank hits_list in
  merged <~ foldM_st h_merge_step [] hits ;;
  mapM_st (h_score_doc w_text w_vector rrf_k max_passages_per_doc
             trank vrank) (ODict.items merged) ;;;
  gets (fun σ => sorted_desc (fun m => o_score (hit_at σ m))
                   (ODict.values merged)).
End HeapOps.

(** ** Reasoning about stateful code

    [triple P c Q R]: run from a state satisfying [P], the computation [c]
    either returns a value [a] in a state satisfying [Q a], or raises an
    exception [e] in a state satisfying [R e]. *)

Definition triple {S A : Type} (P : S -> Prop) (c : M S A)
    (Q : A -> S -> Prop) (R : exn -> S -> Prop) : Prop :=
  forall s, P s ->
    match c s with
    | (s', Ok a) => Q a s'
    | (s', Raise e) => R e s'
    end.

(** The store [σ] holds every object of [σ0], unchanged. *)
Definition extends (σ0 σ : heap) : Prop :=
  hit_objs σ0 ⊆ hit_objs σ ∧ list_objs σ0 ⊆ list_objs σ.

(** [m] is an object of [σ] that [σ0] does not hold, with a list that [σ0]
    does not hold either and no metadata. *)
Definition created (σ0 σ : heap) (m : loc) : Prop :=
  hit_objs σ0 !! m = None
  ∧ ∃ o, hit_objs σ !! m = Some o
         ∧ list_objs σ0 !! o_passages o = None ∧ o_meta o = None.

(** The invariant of the loops of [h_aggregate_search_hits]. *)
Definition only_created (σ0 : heap) (merged : ODict.t loc) (σ : heap) : Prop :=
  extends σ0 σ ∧ Forall (created σ0 σ) (ODict.values merged).

(** ** The two models side by side

    The dictionary of merged objects read as a dictionary of values. *)

Definition views (σ : heap) (merged : ODict.t loc) : ODict.t SearchHit :=
  (fun e => (e.1, view σ e.2)) <$> merged.

(** [h] is an object of [σ] whose list is an object of [σ]. *)
Definition allocated (σ : heap) (h : loc) : Prop :=
  is_Some (hit_objs σ !! h) ∧ is_Some (list_objs σ !! list_of σ h).

(** [m] and its list are objects of [σ] that [σ0] does not hold. *)
Definition owned (σ0 σ : heap) (m : loc) : Prop :=
  hit_objs σ0 !! m = None ∧ list_objs σ0 !! list_of σ m = None
  ∧ allocated σ m.

(** The invariant that links the store to the dictionary of values [mv]:
    the merged objects are owned, pairwise distinct, with pairwise distinct
    lists, and read as [mv]. *)
Definition simulates (σ0 : heap) (merged : ODict.t loc)
    (mv : ODict.t SearchHit) (σ : heap) : Prop :=
  extends σ0 σ
  ∧ Forall (owned σ0 σ) (ODict.values merged)
  ∧ NoDup (ODict.values merged)
  ∧ NoDup (list_of σ <$> ODict.values merged)
  ∧ views σ merged = mv.

(** The three updates of the merge loop on the value of a merged hit. *)
Definition keep_bm25 (b : float) (v : SearchHit) : SearchHit :=
  {| id := id v; bm25 := Some (PyFloat.max (PyFloat.or_neg_inf (bm25 v)) b);
     cosine := cosine v; score := score v; meta := meta v;
     passages := passages v |}.

Definition keep_cosine (c : float) (v : SearchHit) : SearchHit :=
  {| id := id v; bm25 := bm25 v;
     cosine := Some (PyFloat.max (PyFloat.or_neg_inf (cosine v)) c);
     score := score v; meta := meta v; passages := passages v |}.

Definition extend_passages (ps : list Passage) (v : SearchHit) : SearchHit :=
  {| id := id v; bm25 := bm25 v; cosine := cosine v; score := score v;
     meta := meta v; passages := passages v ++ ps |}.

Definition set_score (s : float) (v : SearchHit) : SearchHit :=
  {| id := id v; bm25 := bm25 v; cosine := cosine v; score := s;
     meta := meta v; passages := passages v |}.

Definition cut_passages (max_passages_per_doc : Z) (v : SearchHit) : SearchHit :=
  {| id := id v; bm25 := bm25 v; cosine := cosine v; score := score v;
     meta := meta v;
     passages := top_passages max_passages_per_doc (passages v) |}.

(** The effect of the scoring loop on the value of a merged hit. *)
Definition scored (max_passages_per_doc : Z) (s : float) (v : SearchHit)
  : SearchHit :=
  {| id := id v; bm25 := bm25 v; cosine := cosine v; score := s;
     meta := meta v;
     passages := top_passages max_passages_per_doc (passages v) |}.

(** The scoring loop on a dictionary of values, keys kept. *)
Definition score_all (max_passages_per_doc : Z) (sc : string -> result float)
    (mv : ODict.t SearchHit) : result (ODict.t SearchHit) :=
  mapM (fun e => s <- sc e.1 ;; Ok (e.1, scored max_passages_per_doc s e.2)) mv.

(** ** [src/main.py]: [make_snippet] *)

(** The characters [str.strip()] removes: those for which [str.isspace]
    holds. *)
Definition isspace (c : codepoint) : bool :=
  ((9 <=? c) && (c <=? 13) || (28 <=? c) && (c <=? 32)
   || (c =? 133) || (c =? 160) || (c =? 5760)
   || (8192 <=? c) && (c <=? 8202)
   || (c =? 8232) || (c =? 8233) || (c =? 8239) || (c =? 8287)
   || (c =? 12288))%N.

Fixpoint lstrip (s : pystr) : pystr :=
  match s with
  | [] => []
  | c :: s' => if isspace c then lstrip s' else s
  end.

Definition rstrip (s : pystr) : pystr := reverse (lstrip (reverse s)).

Definition strip (s : pystr) : pystr := rstrip (lstrip s).

Fixpoint startswith (s sub : pystr) : bool :=
  match sub, s with
  | [], _ => true
  | _ :: _, [] => false
  | c :: sub', d :: s' => (c =? d)%N && startswith s' sub'
  end.

(** [s.find(sub)], searching from offset [i] of the whole string. *)
Fixpoint find_from (i : Z) (s sub : pystr) : Z :=
  if startswith s sub then i
  else match s with
       | [] => -1
       | _ :: s' => find_from (i + 1) s' sub
       end.

Definition find (s sub : pystr) : Z := find_from 0 s sub.

Definition len {A : Type} (l : list A) : Z := Z.of_nat (length l).

Definition ellipsis : pystr := [46; 46; 46]%N.

Section Snippet.
(** [str.lower]: the Unicode case mapping is a table of the interpreter;
    it is a parameter of the model. *)
Variable lower : pystr -> pystr.

Definition head_snippet (t : pystr) (window : Z) : pystr :=
  slice_to window t ++ (if window <? len t then ellipsis else []).

Definition make_snippet (text query : pystr) (window : Z) : pystr :=
  let t := text in
  let q := strip query in
  match t with
  | [] => []
  | _ :: _ =>
      match q with
      | [] => head_snippet t window
      | _ :: _ =>
          let idx := find (lower t) (lower q) in
          if idx =? -1 then head_snippet t window
          else
            let start := Z.max 0 (idx - window / 2) in
            let end_ := Z.min (len t) (idx + window / 2) in
            let prefix := if 0 <? start then ellipsis else [] in
            let suffix := if end_ <? len t then ellipsis else [] in
            prefix ++ slice start end_ t ++ suffix
      end
  end.
End Snippet.

Definition default_window : Z := 400.

(** Lowercasing of the ASCII letters, the restriction of [str.lower] to
    ASCII text; used to run the model on examples. *)
Definition lower_ascii (s : pystr) : pystr :=
  (fun c => if (65 <=? c) && (c <=? 90) then c + 32 else c)%N <$> s.

(** A text literal as code points. *)
Fixpoint str (s : string) : pystr :=
  match s with
  | EmptyString => []
  | String a s' => N_of_ascii a :: str s'
  end.

(** ** [src/main.py]: the search endpoint *)

Definition TOKEN_LIMIT : Z := 2048.

Definition _recall_k (page page_size : Z) : Z := Z.max 50 (page * page_size * 5).

(** An item of a result page of the chunk index: the fields the code
    reads. [item_text] is [item.get("text")]. *)
Record Item : Type := {
  item_score : float;
  item_document_id : string;
  item_id : string;
  item_text : option pystr
}.

(** The document read by [get_document]: the fields the code reads. *)
Record RawDocument : Type := {
  metadata_storage_name : pystr;
  metadata_storage_path : pystr;
  metadata_storage_content_type : pystr;
  metadata_storage_last_modified : pystr;
  metadata_storage_size : Z
}.

(** The external services, as what they answer to each request. An answer
    is a value or an exception. *)
Record Services : Type := {
  lower : pystr -> pystr;
  chunks_search_text : pystr -> Z -> result (list Item);
  embeddings_create : pystr -> result (list float);
  chunks_search_vector : list float -> Z -> result (list Item);
  get_document : string -> result RawDocument;
  fromisoformat : pystr -> result datetime
}.

(** The calls made to them, in order. *)
Inductive Call : Type :=
  | CallSearchText (search_text : pystr) (top : Z)
  | CallEmbeddings (input : pystr)
  | CallSearchVector (vector : list float) (k top : Z)
  | CallGetDocument (key : string).

Definition call {A : Type} (c : Call) (answer : result A) : M (list Call) A :=
  fun log => (log ++ [c], answer).

Record Response : Type := {
  r_query : pystr;
  r_page : Z;
  r_page_size : Z;
  r_total_results : Z;
  r_total_pages : Z;
  r_results : list SearchHit
}.

Section Search.
Variable sv : Services.
Local Open Scope monad_scope.

Definition item_snippet (item : Item) (query : pystr) : pystr :=
  make_snippet (lower sv) (default [] (item_text item)) query default_window.

Definition text_hit (query : pystr) (item : Item) : SearchHit :=
  let bm25_score := item_score item in
  {| id := item_document_id item; bm25 := Some bm25_score; cosine := None;
     score := PyFloat.zero; meta := None;
     passages := [ {| chunk_id := item_id item;
                      text := item_snippet item query;
                      p_score := bm25_score;
                      retriever := bm25_retriever |} ] |}.

Definition text_search (query : pystr) (top_k : Z) : M (list Call) (list SearchHit) :=
  results <~ call (CallSearchText query top_k)
               (chunks_search_text sv query top_k) ;;
  ret (text_hit query <$> results).

Definition vector_hit (query : pystr) (item : Item) : SearchHit :=
  let vec_score := item_score item in
  {| id := item_document_id item; bm25 := None; cosine := Some vec_score;
     score := PyFloat.zero; meta := None;
     passages := [ {| chunk_id := item_id item;
                      text := item_snippet item query;
                      p_score := vec_score;
                      retriever := vector_retriever |} ] |}.

Definition vector_search (query : pystr) (top_k : Z) : M (list Call) (list SearchHit) :=
  let query := if len query <=? TOKEN_LIMIT then query
               else slice_to TOKEN_LIMIT query in
  embedding <~ call (CallEmbeddings query) (embeddings_create sv query) ;;
  results <~ call (CallSearchVector embedding top_k top_k)
               (chunks_search_vector sv embedding top_k) ;;
  ret (vector_hit query <$> results).

(** The body of the enrichment loop. *)
Definition enrich (doc : SearchHit) : M (list Call) SearchHit :=
  m <~ call (CallGetDocument (id doc)) (get_document sv (id doc)) ;;
  lm <~ lift (fromisoformat sv (metadata_storage_last_modified m)) ;;
  ret {| id := id doc; bm25 := bm25 doc; cosine := cosine doc;
         score := score doc;
         meta := Some {| title := metadata_storage_name m;
                         url := metadata_storage_path m;
                         content_type := metadata_storage_content_type m;
                         last_modified := lm;
                         storage_size := metadata_storage_size m |};
         passages := passages doc |}.

Definition search (query : pystr) (page page_size : Z) : M (list Call) Response :=
  let page := if page <? 1 then 1 else page in
  let page_size := if page_size <? 1 then 10 else page_size in
  let k := _recall_k page page_size in
  text_search_hits <~ text_search query k ;;
  vector_search_hits <~ vector_search query k ;;
  documents <~ lift (aggregate_default (text_search_hits ++ vector_search_hits)) ;;
  let total_results := len documents in
  let total_pages := (total_results + page_size - 1) / page_size in
  let start := (page - 1) * page_size in
  let end_ := start + page_size in
  let paginated := slice start end_ documents in
  results <~ mapM_st enrich paginated ;;
  ret {| r_query := query; r_page := page; r_page_size := page_size;
         r_total_results := total_results; r_total_pages := total_pages;
         r_results := results |}.
End Search.

(** ** What the specification says about ranks

    The reading of the rank map that counts distinct documents: the
    documents of a hit sequence in the order of their first hit, and the
    1-based position of a document in that order. *)

Fixpoint first_seen (seen ids : list string) : list string :=
  match ids with
  | [] => []
  | d :: ids' =>
      if decide (d ∈ seen) then first_seen seen ids'
      else d :: first_seen (d :: seen) ids'
  end.

Definition distinct_rank (d : string) (ids : list string) : option Z :=
  (fun p => Z.of_nat p.1 + 1) <$> list_find (fun x => x = d) (first_seen [] ids).


(** What the code computes instead: [rank] maps a document to the 1-based
    position, among all the hits of [hs], of the first hit of that
    document, and holds nothing else. *)
Definition ranks_first_positions (rank : gmap string Z) (hs : list SearchHit)
  : Prop :=
  ∀ d,
    (∀ r, rank !! d = Some r ↔
            1 ≤ r ∧ (id <$> hs) !! Z.to_nat (r - 1) = Some d
            ∧ d ∉ take (Z.to_nat (r - 1)) (id <$> hs))
    ∧ (rank !! d = None ↔ d ∉ id <$> hs).

(** ** The merge loop, per document

    The hits of one document, in input order, and the merged hit the loop
    builds from them. *)

Definition hits_of (d : string) (hits : list SearchHit) : list SearchHit :=
  filter (fun h => id h = d) hits.

Definition fold_doc (d : string) (hs : list SearchHit) : SearchHit :=
  foldl (fun m h => fold_hit h m) (new_hit d) hs.

(** The hit the function returns for document [d] when its fused score is
    [s]. *)
Definition merged_doc (hits : list SearchHit) (max_passages_per_doc : Z)
    (d : string) (s : float) : SearchHit :=
  let m := fold_doc d (hits_of d hits) in
  {| id := d; bm25 := bm25 m; cosine := cosine m; score := s; meta := None;
     passages := top_passages max_passages_per_doc (passages m) |}.

(** ** What the specification says about the fused score

    One modality's term [w * (1 / (rrf_k + rank))], and the sum of the
    terms of the modalities in which the document has a rank. *)

Definition rrf_term (w : float) (rrf_k rank : Z) : float :=
  PrimFloat.mul w (PrimFloat.div PyFloat.one (PyFloat.nearest (rrf_k + rank))).

Definition fused_score (w_text w_vector : float) (rrf_k : Z)
    (text_rank vector_rank : option Z) : float :=
  match text_rank, vector_rank with
  | Some rt, Some rv =>
      PrimFloat.add (rrf_term w_text rrf_k rt) (rrf_term w_vector rrf_k rv)
  | Some rt, None => rrf_term w_text rrf_k rt
  | None, Some rv => rrf_term w_vector rrf_k rv
  | None, None => PyFloat.zero
  end.

(** ** The best raw score, per document

    What the merge loop computes from the raw scores [vs] of one field,
    starting from the field's value [acc]: each score replaces the field by
    [max(field or -inf, score)]. *)

Definition best_raw (acc : option float) (vs : list float) : option float :=
  foldl (fun a v => Some (PyFloat.max (PyFloat.or_neg_inf a) v)) acc vs.

(** [b] is the maximum of the scores [vs]. *)
Definition is_max_of (b : float) (vs : list float) : Prop :=
  b ∈ vs ∧ Forall (fun v => PyFloat.le v b) vs.

(** ** What the specification says about passages

    [b] is the passage of the group [g] with the highest score, the first
    encountered of those that tie: every passage before it scores less,
    every passage after it scores at most as much. *)

Definition first_max_of (b : Passage) (g : list Passage) : Prop :=
  ∃ g1 g2,
    g = g1 ++ b :: g2
    ∧ Forall (fun p => PyFloat.lt (p_score p) (p_score b)) g1
    ∧ Forall (fun p => PyFloat.le (p_score p) (p_score b)) g2.

(** The choice the deduplication loop makes between the passage kept so
    far for a chunk and the next passage of that chunk. *)
Definition pick (old : option Passage) (p : Passage) : option Passage :=
  match old with
  | None => Some p
  | Some o => if PyFloat.gt (p_score p) (p_score o) then Some p else Some o
  end.

(** The passages of the hits of document [d], concatenated in input
    order. *)
Definition passages_of (d : string) (hits : list SearchHit) : list Passage :=
  concat (passages <$> hits_of d hits).

(** The passages of a list with the chunk identifier of [b]. *)
Definition chunk_group (b : Passage) (ps : list Passage) : list Passage :=
  filter (fun p => chunk_id p = chunk_id b) ps.

(** ** What the specification says about snippets

    An occurrence of [sub] in [s] at offset [i], the first occurrence, and
    the substring of [s] between two offsets. *)

Definition occurs_at (s sub : pystr) (i : nat) : Prop :=
  ∃ pre post, s = pre ++ sub ++ post ∧ length pre = i.

Definition first_occurrence (s sub : pystr) (i : nat) : Prop :=
  occurs_at s sub i ∧ ∀ j, (j < i)%nat → ¬ occurs_at s sub j.

Definition no_occurrence (s sub : pystr) : Prop := ∀ j, ¬ occurs_at s sub j.

Definition substring (a b : nat) (s : pystr) : pystr := take (b - a) (drop a s).

Definition snippet_start (idx : nat) (window : Z) : Z :=
  Z.max 0 (Z.of_nat idx - window / 2).

Definition snippet_end (text : pystr) (idx : nat) (window : Z) : Z :=
  Z.min (len text) (Z.of_nat idx + window / 2).

(** ** Example inputs *)

Definition mk_passage (c : string) (s : float) (r : Retriever) : Passage :=
  {| chunk_id := c; text := []; p_score := s; retriever := r |}.

(** A hit as [text_search] builds it. *)
Definition lexical_hit (doc c : string) (s : float) : SearchHit :=
  {| id := doc; bm25 := Some s; cosine := None; score := PyFloat.zero;
     meta := None; passages := [mk_passage c s bm25_retriever] |}.

(** A hit as [vector_search] builds it. *)
Definition embedding_hit (doc c : string) (s : float) : SearchHit :=
  {| id := doc; bm25 := None; cosine := Some s; score := PyFloat.zero;
     meta := None; passages := [mk_passage c s vector_retriever] |}.

(** Two chunks of document A ahead of one chunk of document B. *)
Definition two_chunks_then_other : list SearchHit :=
  [ lexical_hit "A" "a1" 3; lexical_hit "A" "a2" 2; lexical_hit "B" "b1" 1 ].

(** Document A found by both retrievers, B only lexically after it, C only
    by the vector retriever after it. *)
Definition mixed_hits : list SearchHit :=
  [ lexical_hit "A" "a1" 3; lexical_hit "B" "b1" 2;
    embedding_hit "A" "a1" 0.5; embedding_hit "C" "c1" 0.25 ].

Definition mixed_A : SearchHit :=
  {| id := "A"; bm25 := Some 3%float; cosine := Some 0.5%float;
     score := (2 / 61)%float; meta := None;
     passages := [mk_passage "a1" 3 bm25_retriever] |}.

Definition mixed_B : SearchHit :=
  {| id := "B"; bm25 := Some 2%float; cosine := None;
     score := (1 / 62)%float; meta := None;
     passages := [mk_passage "b1" 2 bm25_retriever] |}.

Definition mixed_C : SearchHit :=
  {| id := "C"; bm25 := None; cosine := Some 0.25%float;
     score := (1 / 62)%float; meta := None;
     passages := [mk_passage "c1" 0.25 vector_retriever] |}.

Definition mixed_result : list SearchHit := [mixed_A; mixed_B; mixed_C].

(** A document whose first vector hit has similarity 0 and whose second has
    a negative similarity. *)
Definition zero_then_negative : list SearchHit :=
  [ embedding_hit "D" "c1" 0; embedding_hit "D" "c2" (-1) ].

(** ** The search endpoint: what the statements refer to *)

(** The recall budget [search] computes from the request. *)
Definition recall_of (page page_size : Z) : Z :=
  _recall_k (if page <? 1 then 1 else page)
    (if page_size <? 1 then 10 else page_size).

(** A computation that only adds calls to the log. *)
Definition appends {A : Type} (c : M (list Call) A) : Prop :=
  ∀ log, ∃ calls, (c log).1 = log ++ calls.

(** The text [vector_search] sends to the embedding service. *)
Definition embedded_query (query : pystr) : pystr :=
  if len query <=? TOKEN_LIMIT then query else slice_to TOKEN_LIMIT query.

(** The page size and the page number [search] works with. *)
Definition page_size_of (page_size : Z) : Z :=
  if page_size <? 1 then 10 else page_size.

Definition page_of (page : Z) : Z := if page <? 1 then 1 else page.

(** The hits [text_search] and [vector_search] hand to the fusion. *)
Definition retrieved (sv : Services) (query : pystr)
    (items items' : list Item) : list SearchHit :=
  (text_hit sv query <$> items)
  ++ (vector_hit sv (embedded_query query) <$> items').

(** [doc] after the enrichment loop: the same hit with some metadata. *)
Definition enriched (doc r : SearchHit) : Prop :=
  id r = id doc ∧ bm25 r = bm25 doc ∧ cosine r = cosine doc
  ∧ score r = score doc ∧ passages r = passages doc ∧ is_Some (meta r).

(** ** Example services *)

Definition hello_item : Item :=
  {| item_score := 0.5; item_document_id := "D"; item_id := "c";
     item_text := Some (str "Hello world") |}.

Definition some_document : RawDocument :=
  {| metadata_storage_name := str "d.txt";
     metadata_storage_path := str "https://store/d.txt";
     metadata_storage_content_type := str "text/plain";
     metadata_storage_last_modified := str "2024-01-01T00:00:00";
     metadata_storage_size := 11 |}.

(** Every service answers; the chunk index knows one chunk, which the
    vector search returns for every query and the text search never. *)
Definition all_up : Services :=
  {| lower := lower_ascii;
     chunks_search_text := fun _ _ => Ok [];
     embeddings_create := fun _ => Ok [1%float];
     chunks_search_vector := fun _ _ => Ok [hello_item];
     get_document := fun _ => Ok some_document;
     fromisoformat := fun s => Ok s |}.

(** The same, with the text search failing. *)
Definition lexical_down : Services :=
  {| lower := lower_ascii;
     chunks_search_text := fun _ _ => Raise (HttpResponseError "unavailable");
     embeddings_create := fun _ => Ok [1%float];
     chunks_search_vector := fun _ _ => Ok [hello_item];
     get_document := fun _ => Ok some_document;
     fromisoformat := fun s => Ok s |}.

Definition hello_hit : SearchHit :=
  {| id := "D"; bm25 := None; cosine := Some 0.5%float;
     score := (1 / 61)%float;
     meta := Some {| title := str "d.txt"; url := str "https://store/d.txt";
                     content_type := str "text/plain";
                     last_modified := str "2024-01-01T00:00:00";
                     storage_size := 11 |};
     passages := [ {| chunk_id := "c"; text := str "Hello world";
                      p_score := 0.5; retriever := vector_retriever |} ] |}.

(** A store with the two hits of one document, each with its own list. *)
Definition two_hit_store : heap :=
  {| hit_objs :=
       <[1%positive := {| o_id := "A"; o_bm25 := Some 1%float; o_cosine := None;
                          o_score := 0; o_meta := None;
                          o_passages := 1%positive |}]>
       (<[2%positive := {| o_id := "A"; o_bm25 := None;
                           o_cosine := Some 0.5%float; o_score := 0;
                           o_meta := None; o_passages := 2%positive |}]> ∅);
     list_objs :=
       <[1%positive := [mk_passage "c1" 1 bm25_retriever]]>
       (<[2%positive := [mk_passage "c1" 0.5 vector_retriever]]> ∅) |}.

(** ** [src/settings.py]

    The environment is a finite map from variable names to values. The
    functions of this file raise [RuntimeError] only; the error is kept
    with its message. *)

Definition environ : Type := gmap string pystr.

Inductive RuntimeError : Type := runtime_error (message : pystr).

Inductive outcome (A : Type) : Type :=
  | Returns (a : A)
  | Raises (e : RuntimeError).
Arguments Returns {A} a.
Arguments Raises {A} e.

Definition obind {A B : Type} (r : outcome A) (k : A -> outcome B) : outcome B :=
  match r with
  | Returns a => k a
  | Raises e => Raises e
  end.

Declare Scope outcome_scope.
Delimit Scope outcome_scope with outcome.
Notation "x <-- r ;; k" := (obind r (fun x => k))
  (at level 100, r at next level, right associativity) : outcome_scope.

Definition newline : pystr := [10%N].

(** The three messages. *)
Definition missing_required (name : string) : RuntimeError :=
  runtime_error
    (str "Missing required environment variable: " ++ str name ++ newline
     ++ str "Please set it in your environment or .env file.").

Definition missing_int (name : string) : RuntimeError :=
  runtime_error
    (str "Missing int env var " ++ str name ++ str " and no default provided.").

Definition not_an_integer (name : string) (raw : pystr) : RuntimeError :=
  runtime_error
    (str "Environment variable " ++ str name
     ++ str " must be an integer, got: " ++ raw).

(** [os.getenv(name, default)] *)
Definition getenv (env : environ) (name : string) (default : option pystr)
  : option pystr :=
  match env !! name with
  | Some v => Some v
  | None => default
  end.

(** [s.strip() == ""] *)
Definition is_blank (s : pystr) : bool :=
  match strip s with
  | [] => true
  | _ :: _ => false
  end.

Definition _env (env : environ) (name : string) (default : option pystr)
    (required : bool) : outcome pystr :=
  let val := getenv env name default in
  if required && match val with
                 | None => true
                 | Some v => is_blank v
                 end
  then Raises (missing_required name)
  else Returns (match val with
                | Some v => v
                | None => []
                end).

Section EnvInt.
(** [int(raw)] for a string: the value, or [None] for [ValueError]. The
    accepted literals (signs, underscores, the decimal digits of every
    script) are the interpreter's; the conversion is a parameter. *)
Variable int_ : pystr -> option Z.

Definition _env_int (env : environ) (name : string) (default : option Z)
    (required : bool) : outcome Z :=
  let no_value :=
    if required && bool_decide (default = None)
    then Raises (missing_required name)
    else match default with
         | None => Raises (missing_int name)
         | Some d => Returns d
         end in
  match getenv env name None with
  | None => no_value
  | Some raw =>
      if is_blank raw then no_value
      else match int_ raw with
           | Some n => Returns n
           | None => Raises (not_an_integer name raw)
           end
  end.
End EnvInt.

Record Settings : Type := {
  search_endpoint : pystr;
  search_key : pystr;
  search_document_index_name : pystr;
  search_chunk_index_name : pystr;
  search_indexer_name : pystr;
  search_skillset_name : pystr;
  search_data_source_name : pystr;
  search_data_source_connection : pystr;
  search_data_container_name : pystr;
  ai_endpoint : pystr;
  ai_key : pystr;
  ai_api_version : pystr;
  search_embedding_model : pystr;
  search_embedding_dim : Z
}.

Section FromEnv.
Variable int_ : pystr -> option Z.
Variable env : environ.
Local Open Scope outcome_scope.

(** [Settings.from_env()]: the keyword arguments are evaluated in the
    order they are written. *)
Definition from_env : outcome Settings :=
  a1 <-- _env env "AZURE_SEARCH_ENDPOINT" None true ;;
  a2 <-- _env env "AZURE_SEARCH_KEY" None true ;;
  a3 <-- _env env "AZURE_SEARCH_DOCUMENT_INDEX" (Some (str "documents")) false ;;
  a4 <-- _env env "AZURE_SEARCH_CHUNK_INDEX" (Some (str "chunks")) false ;;
  a5 <-- _env env "AZURE_SEARCH_INDEXER" (Some (str "documents-indexer")) false ;;
  a6 <-- _env env "AZURE_SEARCH_SKILLSET" (Some (str "documents-skillset")) false ;;
  a7 <-- _env env "AZURE_SEARCH_DATASOURCE"
           (Some (str "documents-datasource")) false ;;
  a8 <-- _env env "AZURE_SEARCH_BLOB_CONNECTION_STRING" None true ;;
  a9 <-- _env env "AZURE_SEARCH_BLOB_CONTAINER" None true ;;
  a10 <-- _env env "AZURE_OPENAI_ENDPOINT" None true ;;
  a11 <-- _env env "AZURE_OPENAI_KEY" None true ;;
  a12 <-- _env env "AZURE_OPENAI_API_VERSION"
            (Some (str "2024-02-15-preview")) false ;;
  a13 <-- _env env "AZURE_OPENAI_EMBEDDING_DEPLOYMENT" None true ;;
  a14 <-- _env_int int_ env "AZURE_OPENAI_EMBEDDING_DIM" (Some 1536) false ;;
  Returns {| search_endpoint := a1; search_key := a2;
             search_document_index_name := a3; search_chunk_index_name := a4;
             search_indexer_name := a5; search_skillset_name := a6;
             search_data_source_name := a7;
             search_data_source_connection := a8;
             search_data_container_name := a9;
             ai_endpoint := a10; ai_key := a11; ai_api_version := a12;
             search_embedding_model := a13; search_embedding_dim := a14 |}.
End FromEnv.

(** The variables [from_env] requires, in the order it reads them. *)
Definition required_variables : list string :=
  [ "AZURE_SEARCH_ENDPOINT"; "AZURE_SEARCH_KEY";
    "AZURE_SEARCH_BLOB_CONNECTION_STRING"; "AZURE_SEARCH_BLOB_CONTAINER";
    "AZURE_OPENAI_ENDPOINT"; "AZURE_OPENAI_KEY";
    "AZURE_OPENAI_EMBEDDING_DEPLOYMENT" ]%string.

(** The variable [name] is set to a value that is not blank. *)
Definition provided (env : environ) (name : string) : Prop :=
  ∃ v, env !! name = Some v ∧ is_blank v = false.

(** The embedding dimension the environment gives: the default when the
    variable is unset or blank, otherwise what [int] makes of it. *)
Definition dimension_of (int_ : pystr -> option Z) (env : environ) : option Z :=
  match env !! "AZURE_OPENAI_EMBEDDING_DIM"%string with
  | None => Some 1536
  | Some raw => if is_blank raw then Some 1536 else int_ raw
  end.

(** [int] on the plain decimal literals, used to run the model on
    examples. *)
Fixpoint decimal (acc : Z) (s : pystr) : option Z :=
  match s with
  | [] => Some acc
  | c :: s' =>
      if ((48 <=? c) && (c <=? 57))%N
      then decimal (10 * acc + Z.of_N (c - 48)) s'
      else None
  end.

Definition int_decimal (s : pystr) : option Z :=
  match s with
  | [] => None
  | _ :: _ => decimal 0 s
  end.

(** An environment with the seven required variables and a dimension. *)
Definition complete_env : environ :=
  list_to_map
    [ ("AZURE_SEARCH_ENDPOINT"%string, str "https://s.search.windows.net");
      ("AZURE_SEARCH_KEY"%string, str "k1");
      ("AZURE_SEARCH_BLOB_CONNECTION_STRING"%string, str "UseDevelopmentStorage=true");
      ("AZURE_SEARCH_BLOB_CONTAINER"%string, str "docs");
      ("AZURE_OPENAI_ENDPOINT"%string, str "https://o.openai.azure.com");
      ("AZURE_OPENAI_KEY"%string, str "k2");
      ("AZURE_OPENAI_EMBEDDING_DEPLOYMENT"%string, str "embed");
      ("AZURE_SEARCH_CHUNK_INDEX"%string, []);
      ("AZURE_OPENAI_EMBEDDING_DIM"%string, str "3072") ].

(** ** [src/setup.py]: [setup]

    The requests [setup] sends to the search service through its two
    clients, and what it writes to the logger. The resources are the
    module's constants; an index is looked up by the name its schema
    carries. *)

Inductive Index : Type := DOCUMENT_INDEX_SCHEMA | CHUNK_INDEX_SCHEMA.

Inductive Op : Type :=
  | get_index (index : Index)
  | delete_index (index : Index)
  | delete_indexer
  | delete_skillset
  | delete_data_source_connection
  | create_index (index : Index)
  | create_data_source_connection
  | create_skillset
  | create_indexer
  | close_index_client
  | close_indexer_client.

Inductive Message : Type :=
  | healthy            (* "Azure AI Search's indexes are healthy" *)
  | setting_up         (* "Setting up Azure AI Search ..." *)
  | completed          (* "Completed" *)
  | str_of (e : exn).  (* str(e) *)

Inductive Event : Type :=
  | Request (op : Op)
  | Info (m : Message)
  | Error (m : Message).

(** [try: c except E as e: handler(e)], where [handles] tells the
    exceptions of class [E]. *)
Definition try_except {S A : Type} (c : M S A) (handles : exn -> bool)
    (handler : exn -> M S A) : M S A :=
  fun s =>
    match c s with
    | (s', Ok a) => (s', Ok a)
    | (s', Raise e) => if handles e then handler e s' else (s', Raise e)
    end.

Definition is_HttpResponseError (e : exn) : bool :=
  match e with
  | HttpResponseError _ => true
  | _ => false
  end.

(** Every exception of the model is an [Exception]. *)
Definition is_Exception (e : exn) : bool := true.

Section Setup.
(** What the service answers to a request, given everything that happened
    before it. *)
Variable answer : list Event -> Op -> result unit.
Local Open Scope monad_scope.

Definition request (op : Op) : M (list Event) unit :=
  fun trace => (trace ++ [Request op], answer trace op).

Definition logger_info (m : Message) : M (list Event) unit :=
  modify (fun trace => trace ++ [Info m]).

Definition logger_error (m : Message) : M (list Event) unit :=
  modify (fun trace => trace ++ [Error m]).

Definition setup : M (list Event) unit :=
  try_except
    (request (get_index DOCUMENT_INDEX_SCHEMA) ;;;
     request (get_index CHUNK_INDEX_SCHEMA) ;;;
     logger_info healthy)
    is_HttpResponseError
    (fun e =>
       logger_info (str_of e) ;;;
       logger_info setting_up ;;;
       try_except
         (request (delete_index DOCUMENT_INDEX_SCHEMA) ;;;
          request (delete_index CHUNK_INDEX_SCHEMA) ;;;
          request delete_indexer ;;;
          request delete_skillset ;;;
          request delete_data_source_connection ;;;
          request (create_index DOCUMENT_INDEX_SCHEMA) ;;;
          request (create_index CHUNK_INDEX_SCHEMA) ;;;
          request create_data_source_connection ;;;
          request create_skillset ;;;
          request create_indexer ;;;
          logger_info completed)
         is_Exception
         (fun e => logger_error (str_of e))) ;;;
  request close_index_client ;;;
  request close_indexer_client.
End Setup.

(** The requests of a trace, in order. *)
Definition requests (trace : list Event) : list Op :=
  omap (fun ev => match ev with
                  | Request op => Some op
                  | _ => None
                  end) trace.

(** The requests that change the service, in the order [setup] sends
    them. *)
Definition rebuild : list Op :=
  [ delete_index DOCUMENT_INDEX_SCHEMA; delete_index CHUNK_INDEX_SCHEMA;
    delete_indexer; delete_skillset; delete_data_source_connection;
    create_index DOCUMENT_INDEX_SCHEMA; create_index CHUNK_INDEX_SCHEMA;
    create_data_source_connection; create_skillset; create_indexer ].

Definition changes_service (op : Op) : bool :=
  match op with
  | get_index _ | close_index_client | close_indexer_client => false
  | _ => true
  end.

(** A service on which only the chunk index is missing, and which
    refuses to create a data source. *)
Definition chunk_index_missing (trace : list Event) (op : Op) : result unit :=
  match op with
  | get_index CHUNK_INDEX_SCHEMA => Raise (HttpResponseError "not found")
  | create_data_source_connection => Raise (HttpResponseError "forbidden")
  | _ => Ok tt
  end.

(** A service whose network is down: the first request fails with an
    error that is no [HttpResponseError]. *)
Definition unreachable (trace : list Event) (op : Op) : result unit :=
  Raise (ValueError "unreachable").

(** A service with both indexes in place. *)
Definition in_place (trace : list Event) (op : Op) : result unit := Ok tt.

(** What the fusion returns for document A of [two_chunks_then_other]
    when the bound on the passages is [-1]: of its two chunks, sorted by
    score, the last is dropped. *)
Definition lexical_hit_pair_result : SearchHit :=
  {| id := "A"; bm25 := Some 3%float; cosine := None;
     score := (1 / 61)%float; meta := None;
     passages := [mk_passage "a1" 3 bm25_retriever] |}.

(** ** The search endpoint: pages, calls and metadata *)

(** The documents of the requested page. *)
Definition page_slice {A : Type} (page page_size : Z) (documents : list A)
  : list A :=
  slice ((page_of page - 1) * page_size_of page_size)
    ((page_of page - 1) * page_size_of page_size + page_size_of page_size)
    documents.

(** The three calls of the retrieval, when the embedding service answers
    [embedding]. *)
Definition retrieval_calls (query : pystr) (page page_size : Z)
    (embedding : list float) : list Call :=
  [ CallSearchText query (recall_of page page_size);
    CallEmbeddings (embedded_query query);
    CallSearchVector embedding (recall_of page page_size)
      (recall_of page page_size) ].

(** The metadata store holds document [d], with a date that
    [fromisoformat] reads. *)
Definition described (sv : Services) (d : string) : Prop :=
  ∃ m lm, get_document sv d = Ok m
          ∧ fromisoformat sv (metadata_storage_last_modified m) = Ok lm.

(** The metadata of document [d] cannot be had: the store raises [e], or
    [fromisoformat] raises [e] on the date it holds. *)
Definition undescribed (sv : Services) (d : string) (e : exn) : Prop :=
  get_document sv d = Raise e
  ∨ ∃ m, get_document sv d = Ok m
         ∧ fromisoformat sv (metadata_storage_last_modified m) = Raise e.

(** The metadata store knows document D only. *)
Definition only_D_described : Services :=
  {| lower := lower_ascii;
     chunks_search_text := fun _ _ =>
       Ok [ {| item_score := 2; item_document_id := "E"; item_id := "e1";
               item_text := None |} ];
     embeddings_create := fun _ => Ok [1%float];
     chunks_search_vector := fun _ _ => Ok [hello_item];
     get_document := fun d =>
       if String.eqb d "D" then Ok some_document else Raise (KeyError d);
     fromisoformat := fun s => Ok s |}.

(** The value [from_env] gives a setting that has a default. *)
Definition setting (env : environ) (name : string) (fallback : pystr) : pystr :=
  default fallback (env !! name).

(** The settings an environment gives, with embedding dimension [dim]. *)
Definition settings_of (env : environ) (dim : Z) : Settings :=
  {| search_endpoint := setting env "AZURE_SEARCH_ENDPOINT" [];
     search_key := setting env "AZURE_SEARCH_KEY" [];
     search_document_index_name :=
       setting env "AZURE_SEARCH_DOCUMENT_INDEX" (str "documents");
     search_chunk_index_name :=
       setting env "AZURE_SEARCH_CHUNK_INDEX" (str "chunks");
     search_indexer_name :=
       setting env "AZURE_SEARCH_INDEXER" (str "documents-indexer");
     search_skillset_name :=
       setting env "AZURE_SEARCH_SKILLSET" (str "documents-skillset");
     search_data_source_name :=
       setting env "AZURE_SEARCH_DATASOURCE" (str "documents-datasource");
     search_data_source_connection :=
       setting env "AZURE_SEARCH_BLOB_CONNECTION_STRING" [];
     search_data_container_name :=
       setting env "AZURE_SEARCH_BLOB_CONTAINER" [];
     ai_endpoint := setting env "AZURE_OPENAI_ENDPOINT" [];
     ai_key := setting env "AZURE_OPENAI_KEY" [];
     ai_api_version :=
       setting env "AZURE_OPENAI_API_VERSION" (str "2024-02-15-preview");
     search_embedding_model :=
       setting env "AZURE_OPENAI_EMBEDDING_DEPLOYMENT" [];
     search_embedding_dim := dim |}.

(** One of the two lookups of [setup] raises [HttpResponseError]: the
    first, or the second after the first has answered. *)
Definition missing_index (answer : list Event -> Op -> result unit) : Prop :=
  (∃ msg, answer [] (get_index DOCUMENT_INDEX_SCHEMA)
          = Raise (HttpResponseError msg))
  ∨ (answer [] (get_index DOCUMENT_INDEX_SCHEMA) = Ok tt
     ∧ ∃ msg, answer [Request (get_index DOCUMENT_INDEX_SCHEMA)]
                (get_index CHUNK_INDEX_SCHEMA)
              = Raise (HttpResponseError msg)).

(** One of the two lookups raises [e], which is no [HttpResponseError]. *)
Definition lookup_fails_otherwise (answer : list Event -> Op -> result unit)
    (e : exn) : Prop :=
  is_HttpResponseError e = false
  ∧ (answer [] (get_index DOCUMENT_INDEX_SCHEMA) = Raise e
     ∨ (answer [] (get_index DOCUMENT_INDEX_SCHEMA) = Ok tt
        ∧ answer [Request (get_index DOCUMENT_INDEX_SCHEMA)]
            (get_index CHUNK_INDEX_SCHEMA) = Raise e)).

(** The requests of a trace that change the service. *)
Definition changes (trace : list Event) : list Op :=
  filter (fun op => changes_service op = true) (requests trace).

(** Requests sent one after the other from trace [t], up to the first
    that raises. *)
Fixpoint send_all (answer : list Event -> Op -> result unit)
    (t : list Event) (ops : list Op) : list Event * result unit :=
  match ops with
  | [] => (t, Ok tt)
  | op :: ops' =>
      match answer t op with
      | Ok _ => send_all answer (t ++ [Request op]) ops'
      | Raise e => (t ++ [Request op], Raise e)
      end
  end.

Definition lookups : list Op :=
  [get_index DOCUMENT_INDEX_SCHEMA; get_index CHUNK_INDEX_SCHEMA].

Definition closings : list Op := [close_index_client; close_indexer_client].

(** ** Snippets: offsets in the text and in the lowercased text *)

(** [str.lower] on the ASCII letters and on U+0130, the capital I with a
    dot above, whose lowercase is the two code points U+0069 U+0307. *)
Definition lower_dotted (s : pystr) : pystr :=
  s ≫= (fun c =>
          if (c =? 304)%N then [105; 775]%N
          else if ((65 <=? c) && (c <=? 90))%N then [(c + 32)%N]
          else [c]).

(** The query occurs in the text at offset [i] of the text, up to case:
    the [len(q)] characters of the text from [i] on, lowercased, are the
    lowercased query. *)
Definition matches_at (lower : pystr -> pystr) (text q : pystr) (i : nat)
  : Prop :=
  (i + length q ≤ length text)%nat
  ∧ lower (substring i (i + length q) text) = lower q.

(** Ten capital dotted I, then "quick", then ten "x". *)
Definition dotted_text : pystr :=
  replicate 10 304%N ++ str "quick" ++ replicate 10 120%N.
(* ================================================================= *)
(** * Part II: properties                                             *)
(* ================================================================= *)

#[local] Set Warnings "-clear-no-such-hyp".

(** ** Rank maps *)

Section RankMaps.
Implicit Types (hs : list SearchHit) (rank : gmap string Z) (d : string).

Lemma setdefault_lookup k v rank d :
  setdefault k v rank !! d =
    match rank !! d with
    | Some r => Some r
    | None => if decide (k = d) then Some v else None
    end.
Proof.
  unfold setdefault. destruct (rank !! k) as [r|] eqn:Hk.
  - destruct (rank !! d) eqn:Hd; [done|].
    case_decide; [congruence | done].
  - rewrite lookup_insert. case_decide; subst.
    + by rewrite Hk.
    + by destruct (rank !! d).
Qed.

Lemma rank_loop_lookup hs : ∀ i rank d,
  rank_loop i hs rank !! d =
    match rank !! d with
    | Some r => Some r
    | None => (fun p => i + Z.of_nat p.1) <$> list_find (fun h => id h = d) hs
    end.
Proof.
  induction hs as [|h hs IH]; intros i rank d; simpl.
  - by destruct (rank !! d).
  - rewrite IH, setdefault_lookup.
    destruct (rank !! d) as [r|]; [done|].
    case_decide as Hh.
    + simpl. f_equal. lia.
    + destruct (list_find _ hs) as [[n x]|]; simpl; [f_equal; lia | done].
Qed.

Lemma rank_map_lookup hs d :
  rank_map hs !! d =
    (fun p => Z.of_nat p.1 + 1) <$> list_find (fun h => id h = d) hs.
Proof.
  unfold rank_map. rewrite rank_loop_lookup, lookup_empty.
  destruct (list_find _ hs) as [[n x]|]; simpl; [f_equal; lia | done].
Qed.

(** A rank is the 1-based position of the first hit of the document. *)
Lemma rank_map_Some hs d r :
  rank_map hs !! d = Some r ↔
    1 ≤ r ∧ (id <$> hs) !! Z.to_nat (r - 1) = Some d
    ∧ d ∉ take (Z.to_nat (r - 1)) (id <$> hs).
Proof.
  rewrite rank_map_lookup. split.
  - destruct (list_find _ hs) as [[n x]|] eqn:Hf; simpl; [|done].
    intros [= <-]. apply list_find_Some in Hf as (Hn & <- & Hbefore).
    replace (Z.to_nat (Z.of_nat n + 1 - 1)) with n by lia.
    split; [lia|]. split.
    + by rewrite list_lookup_fmap, Hn.
    + rewrite <- fmap_take. intros (y & Hy & Hin)%list_elem_of_fmap.
      apply list_elem_of_lookup in Hin as [j Hj].
      apply lookup_take_Some in Hj as [Hj Hlt].
      by apply (Hbefore j y).
  - intros (Hr & Hd & Hnot).
    rewrite list_lookup_fmap in Hd.
    destruct (hs !! Z.to_nat (r - 1)) as [x|] eqn:Hx; [|done].
    injection Hd as Hd.
    assert (list_find (fun h => id h = d) hs = Some (Z.to_nat (r - 1), x)) as ->.
    { apply list_find_Some. split_and!; [done..|].
      intros j y Hj Hlt Hy. apply Hnot. rewrite <- fmap_take.
      apply list_elem_of_fmap. exists y. split; [done|].
      apply list_elem_of_lookup. exists j. by apply lookup_take_Some. }
    simpl. f_equal. lia.
Qed.

Lemma rank_map_None hs d : rank_map hs !! d = None ↔ d ∉ id <$> hs.
Proof.
  rewrite rank_map_lookup, fmap_None, list_find_None, Forall_forall.
  split.
  - intros H (y & Hy & Hin)%list_elem_of_fmap. by apply (H y).
  - intros H y Hin Hy. apply H, list_elem_of_fmap. by exists y.
Qed.

(** A later hit of a document that already has a rank changes nothing. *)
Lemma rank_map_snoc_dup hs h :
  id h ∈ id <$> hs → rank_map (hs ++ [h]) = rank_map hs.
Proof.
  intros Hin. apply map_eq. intros d. rewrite !rank_map_lookup.
  destruct (list_find (fun h0 => id h0 = d) hs) as [[n x]|] eqn:Hf.
  - by rewrite (list_find_app_l _ _ _ _ _ Hf).
  - rewrite list_find_app_r by done. simpl.
    case_decide as Hd; [|done]. exfalso.
    assert (rank_map hs !! d = None) as Hn by (by rewrite rank_map_lookup, Hf).
    apply rank_map_None in Hn. by subst.
Qed.

Lemma rank_map_head h hs : rank_map (h :: hs) !! id h = Some 1.
Proof. rewrite rank_map_lookup. simpl. by rewrite decide_True. Qed.
End RankMaps.

(** C1, as stated, fails: with two chunks of document A ranked before the
    only chunk of document B, B is the second distinct document, yet its
    rank in the text rank map is 3, the position of its first hit. *)
Lemma rank_counts_hits_not_documents :
  id <$> text_hits two_chunks_then_other = ["A"; "A"; "B"]
  ∧ distinct_rank "B" (id <$> text_hits two_chunks_then_other) = Some 2
  ∧ text_rank two_chunks_then_other !! "B" = Some 3.
Proof. by vm_compute. Qed.

(** C1 (amended): for each modality subsequence (the hits with [bm25] set,
    the hits with [cosine] set, in their original order) the rank map
    assigns each document the 1-based position, counting every hit of the
    subsequence, of the first hit of that document, and assigns nothing to
    other documents; the document of the first hit has rank 1, and a later
    hit of an already ranked document neither creates nor changes an
    entry. *)
Theorem rank_is_position_of_first_hit (hits : list SearchHit) :
  ranks_first_positions (text_rank hits) (text_hits hits)
  ∧ ranks_first_positions (vector_rank hits) (vector_hits hits)
  ∧ (∀ h rest, text_hits hits = h :: rest → text_rank hits !! id h = Some 1)
  ∧ (∀ h rest, vector_hits hits = h :: rest → vector_rank hits !! id h = Some 1)
  ∧ (∀ hs h, id h ∈ id <$> hs → rank_map (hs ++ [h]) = rank_map hs).
Proof.
  split_and!.
  - intros d. split; [intros r; apply rank_map_Some | apply rank_map_None].
  - intros d. split; [intros r; apply rank_map_Some | apply rank_map_None].
  - intros h rest Heq. unfold text_rank. rewrite Heq. apply rank_map_head.
  - intros h rest Heq. unfold vector_rank. rewrite Heq. apply rank_map_head.
  - apply rank_map_snoc_dup.
Qed.

(** ** The order of floats

    The comparisons of binary64 floats, from their specification on
    [spec_float]: away from [nan] they form a total preorder. *)

Module FloatOrder.

Ltac sf_cases :=
  repeat match goal with
    | s : bool |- _ => destruct s
    | H : context [Z.compare ?a ?b] |- _ => destruct (Z.compare_spec a b)
    | |- context [Z.compare ?a ?b] => destruct (Z.compare_spec a b)
    | H : context [Pos.compare ?a ?b] |- _ => destruct (Pos.compare_spec a b)
    | |- context [Pos.compare ?a ?b] => destruct (Pos.compare_spec a b)
    end;
  simpl in *; subst; try congruence; try lia.

Ltac sf_start :=
  unfold SFleb, SFltb, SFeqb, SFcompare;
  change (Pos.compare_cont Eq) with Pos.compare.

Lemma SFleb_trans a b c :
  SFleb a b = true → SFleb b c = true → SFleb a c = true.
Proof. sf_start. destruct a, b, c; intros; sf_cases. Qed.

Lemma SFltb_leb_trans a b c :
  SFltb a b = true → SFleb b c = true → SFltb a c = true.
Proof. sf_start. destruct a, b, c; intros; sf_cases. Qed.

Lemma SFleb_ltb_trans a b c :
  SFleb a b = true → SFltb b c = true → SFltb a c = true.
Proof. sf_start. destruct a, b, c; intros; sf_cases. Qed.

Lemma SFltb_leb a b : SFltb a b = true → SFleb a b = true.
Proof. sf_start. destruct a, b; intros; sf_cases. Qed.

Lemma SFltb_asym a b : SFltb a b = true → SFleb b a = false.
Proof. sf_start. destruct a, b; intros; sf_cases. Qed.

Lemma SFleb_total a b :
  SFeqb a a = true → SFeqb b b = true → SFltb a b = false → SFleb b a = true.
Proof. sf_start. destruct a, b; intros; sf_cases. Qed.

Lemma SFleb_refl a : SFeqb a a = true → SFleb a a = true.
Proof. sf_start. destruct a; intros; sf_cases. Qed.

Lemma SFleb_not_nan a b :
  SFleb a b = true → SFeqb a a = true ∧ SFeqb b b = true.
Proof. sf_start. destruct a, b; intros; split; sf_cases. Qed.

Lemma SFeqb_leb a b :
  SFeqb a b = true ↔ SFleb a b = true ∧ SFleb b a = true.
Proof. sf_start. destruct a, b; split; intros; try split; sf_cases. Qed.

Implicit Types x y z : float.

Import PyFloat.

Lemma not_nan_spec x : not_nan x ↔ SFeqb (Prim2SF x) (Prim2SF x) = true.
Proof.
  unfold not_nan, PyFloat.is_nan. rewrite FloatAxioms.eqb_spec.
  by destruct (SFeqb _ _).
Qed.

Lemma le_trans x y z : le x y → le y z → le x z.
Proof. unfold le. rewrite !FloatAxioms.leb_spec. apply SFleb_trans. Qed.

Lemma lt_le_trans x y z : lt x y → le y z → lt x z.
Proof. unfold le, lt. rewrite !FloatAxioms.leb_spec, !FloatAxioms.ltb_spec. apply SFltb_leb_trans. Qed.

Lemma le_lt_trans x y z : le x y → lt y z → lt x z.
Proof. unfold le, lt. rewrite !FloatAxioms.leb_spec, !FloatAxioms.ltb_spec. apply SFleb_ltb_trans. Qed.

Lemma lt_le x y : lt x y → le x y.
Proof. unfold le, lt. rewrite !FloatAxioms.leb_spec, !FloatAxioms.ltb_spec. apply SFltb_leb. Qed.

Lemma lt_not_le x y : lt x y → PrimFloat.leb y x = false.
Proof. unfold lt. rewrite !FloatAxioms.leb_spec, !FloatAxioms.ltb_spec. apply SFltb_asym. Qed.

Lemma le_not_lt x y : le x y → PrimFloat.ltb y x = false.
Proof.
  intros Hle. destruct (PrimFloat.ltb y x) eqn:Hlt; [|done].
  apply lt_not_le in Hlt. unfold le in Hle. congruence.
Qed.

Lemma not_lt_le x y :
  not_nan x → not_nan y → PrimFloat.ltb x y = false → le y x.
Proof.
  intros Hx%not_nan_spec Hy%not_nan_spec. unfold le.
  rewrite FloatAxioms.leb_spec, FloatAxioms.ltb_spec. by apply SFleb_total.
Qed.

Lemma le_refl x : not_nan x → le x x.
Proof. intros Hx%not_nan_spec. unfold le. rewrite FloatAxioms.leb_spec. by apply SFleb_refl. Qed.

Lemma le_not_nan x y : le x y → not_nan x ∧ not_nan y.
Proof.
  unfold le. rewrite FloatAxioms.leb_spec. intros [??]%SFleb_not_nan.
  by split; apply not_nan_spec.
Qed.

Lemma lt_not_nan x y : lt x y → not_nan x ∧ not_nan y.
Proof. intros H. by apply le_not_nan, lt_le. Qed.

Lemma eqb_le x y : PrimFloat.eqb x y = true ↔ le x y ∧ le y x.
Proof. unfold le. rewrite FloatAxioms.eqb_spec, !FloatAxioms.leb_spec. apply SFeqb_leb. Qed.

(** [PyFloat.max] picks one of its arguments, an upper bound of both. *)
Lemma max_ub a b :
  not_nan a → not_nan b → le a (max a b) ∧ le b (max a b).
Proof.
  intros Ha Hb. unfold max, gt.
  destruct (PrimFloat.ltb a b) eqn:Hlt.
  - split; [by apply lt_le | by apply le_refl].
  - split; [by apply le_refl | by apply not_lt_le].
Qed.

End FloatOrder.

(** ** The error monad *)

Lemma mapM_Ok {A B : Type} (f : A → result B) (l : list A) (ys : list B) :
  mapM f l = Ok ys ↔ Forall2 (fun x y => f x = Ok y) l ys.
Proof.
  revert ys. induction l as [|x l IH]; intros ys; simpl.
  - split; [intros [= <-]; constructor | by inversion 1].
  - destruct (f x) as [y|e] eqn:Hx; simpl.
    + destruct (mapM f l) as [ys'|e] eqn:Hl; simpl.
      * split.
        -- intros [= <-]. constructor; [done | by apply IH].
        -- inversion 1 as [|? y' ? ys'' Hy Hys]; subst.
           apply IH in Hys. congruence.
      * split; [done|]. inversion 1 as [|? y' ? ys'' Hy Hys]; subst.
        apply IH in Hys. congruence.
    + split; [done|]. inversion 1; congruence.
Qed.

Lemma mapM_all_Ok {A B : Type} (f : A → result B) (l : list A) :
  Forall (fun x => ∃ y, f x = Ok y) l → ∃ ys, mapM f l = Ok ys.
Proof.
  induction 1 as [|x l [y Hy] _ [ys Hys]]; simpl; [by eexists|].
  rewrite Hy, Hys. by eexists.
Qed.

(** ** Ordered dictionaries *)

Module ODictFacts.
Section ODictFacts.
Context {V : Type}.
Implicit Types (d : ODict.t V) (k : string) (v : V).

Lemma get_set_eq k v d : ODict.get k (ODict.set k v d) = Some v.
Proof.
  induction d as [|[k' v'] d IH]; simpl.
  - by rewrite String.eqb_refl.
  - destruct (String.eqb k k') eqn:Hk; simpl; rewrite Hk; auto.
Qed.

Lemma get_set_ne k k' v d :
  k ≠ k' → ODict.get k' (ODict.set k v d) = ODict.get k' d.
Proof.
  intros Hne. induction d as [|[k0 v0] d IH]; simpl.
  - by apply String.eqb_neq in Hne; rewrite String.eqb_sym, Hne.
  - destruct (String.eqb_spec k k0) as [->|Hk0]; simpl.
    + by destruct (String.eqb_spec k' k0) as [->|].
    + by rewrite IH.
Qed.

Lemma get_Some_elem k v d : ODict.get k d = Some v → (k, v) ∈ d.
Proof.
  induction d as [|[k' v'] d IH]; simpl; [done|].
  destruct (String.eqb_spec k k') as [->|Hne].
  - intros [= ->]. left.
  - intros H. right. by apply IH.
Qed.

Lemma get_None k d : ODict.get k d = None ↔ k ∉ ODict.keys d.
Proof.
  unfold ODict.keys. induction d as [|[k' v'] d IH]; csimpl.
  - split; [intros _; apply not_elem_of_nil | done].
  - rewrite not_elem_of_cons, <- IH.
    destruct (String.eqb_spec k k') as [->|Hne]; [|tauto].
    split; [done | by intros []].
Qed.

Lemma get_is_Some k d : is_Some (ODict.get k d) ↔ k ∈ ODict.keys d.
Proof.
  rewrite <- not_eq_None_Some, get_None.
  destruct (decide (k ∈ ODict.keys d)); naive_solver.
Qed.

Lemma elem_get k v d : NoDup (ODict.keys d) → (k, v) ∈ d → ODict.get k d = Some v.
Proof.
  unfold ODict.keys. induction d as [|[k' v'] d IH]; csimpl.
  - by intros _ ?%elem_of_nil.
  - intros [Hk' Hnd]%NoDup_cons [[= -> ->]|Hin]%elem_of_cons.
    + by rewrite String.eqb_refl.
    + destruct (String.eqb_spec k k') as [->|Hne]; [|by apply IH].
      exfalso. apply Hk'. apply list_elem_of_fmap. by exists (k', v).
Qed.

(** Assignment keeps the keys in place and puts a new key last. *)
Lemma keys_set k v d :
  ODict.keys (ODict.set k v d) =
    match ODict.get k d with
    | Some _ => ODict.keys d
    | None => ODict.keys d ++ [k]
    end.
Proof.
  unfold ODict.keys. induction d as [|[k' v'] d IH]; csimpl; [done|].
  destruct (String.eqb k k') eqn:Hk; csimpl; [done|].
  rewrite IH. by destruct (ODict.get k d).
Qed.

Lemma NoDup_keys_set k v d :
  NoDup (ODict.keys d) → NoDup (ODict.keys (ODict.set k v d)).
Proof.
  intros Hnd. rewrite keys_set.
  destruct (ODict.get k d) eqn:Hg; [done|].
  apply NoDup_app. split_and!; [done| |apply NoDup_singleton].
  intros x Hx ->%list_elem_of_singleton. by apply get_None in Hg.
Qed.
End ODictFacts.
End ODictFacts.

(** ** [sorted] with [reverse=True] *)

Section SortedFacts.
Context {A : Type} (key : A → float).
Implicit Types (x y : A) (l : list A).

Lemma insert_desc_perm x l : insert_desc key x l ≡ₚ x :: l.
Proof.
  induction l as [|y l IH]; simpl; [done|].
  destruct (PrimFloat.ltb (key x) (key y)); [|done].
  rewrite IH. apply Permutation_swap.
Qed.

Lemma sorted_desc_perm l : sorted_desc key l ≡ₚ l.
Proof.
  induction l as [|x l IH]; simpl; [done|].
  unfold sorted_desc in *. simpl. by rewrite insert_desc_perm, IH.
Qed.

Lemma sorted_desc_elem x l : x ∈ sorted_desc key l ↔ x ∈ l.
Proof. by rewrite sorted_desc_perm. Qed.

Lemma sorted_desc_length l : length (sorted_desc key l) = length l.
Proof. by rewrite sorted_desc_perm. Qed.

Lemma insert_desc_HdRel x y l :
  desc key y x → HdRel (desc key) y l → HdRel (desc key) y (insert_desc key x l).
Proof.
  intros Hyx Hl. destruct l as [|z l]; simpl; [by constructor|].
  destruct (PrimFloat.ltb (key x) (key z)); constructor; [|done].
  by inversion Hl.
Qed.

Lemma insert_desc_Sorted x l :
  PyFloat.not_nan (key x) → Forall (fun y => PyFloat.not_nan (key y)) l →
  Sorted (desc key) l → Sorted (desc key) (insert_desc key x l).
Proof.
  intros Hx Hl Hs. induction l as [|y l IH]; simpl.
  - by repeat constructor.
  - apply Forall_cons in Hl as [Hy Hl]. apply Sorted_inv in Hs as [Hs Hhd].
    destruct (PrimFloat.ltb (key x) (key y)) eqn:Hlt.
    + constructor; [by apply IH|].
      apply insert_desc_HdRel; [|done]. by apply FloatOrder.lt_le.
    + constructor; [by constructor|]. constructor.
      by apply FloatOrder.not_lt_le.
Qed.

(** Without [nan] keys the result is in descending key order. *)
Lemma sorted_desc_Sorted l :
  Forall (fun y => PyFloat.not_nan (key y)) l → Sorted (desc key) (sorted_desc key l).
Proof.
  induction 1 as [|x l Hx Hl IH]; simpl; [constructor|].
  apply insert_desc_Sorted; [done| |done].
  fold (sorted_desc key l). by rewrite sorted_desc_perm.
Qed.

(** Stability: the elements whose key equals [k] keep their order. *)
Lemma insert_desc_filter_eq (k : float) x l :
  filter (fun y => PrimFloat.eqb (key y) k = true) (insert_desc key x l) =
  filter (fun y => PrimFloat.eqb (key y) k = true) (x :: l).
Proof.
  induction l as [|y l IH]; simpl; [done|].
  destruct (PrimFloat.ltb (key x) (key y)) eqn:Hlt; [|done].
  rewrite (filter_cons _ y), IH, !(filter_cons _ x), (filter_cons _ y).
  destruct (decide (PrimFloat.eqb (key x) k = true)) as [Hxk|]; [|done].
  destruct (decide (PrimFloat.eqb (key y) k = true)) as [Hyk|]; [|done].
  exfalso. apply FloatOrder.eqb_le in Hxk as [_ Hkx].
  apply FloatOrder.eqb_le in Hyk as [Hyk _].
  pose proof (FloatOrder.le_trans _ _ _ Hyk Hkx) as Hyx.
  apply FloatOrder.lt_not_le in Hlt. unfold PyFloat.le in Hyx. congruence.
Qed.

Lemma sorted_desc_stable (k : float) l :
  filter (fun y => PrimFloat.eqb (key y) k = true) (sorted_desc key l) =
  filter (fun y => PrimFloat.eqb (key y) k = true) l.
Proof.
  induction l as [|x l IH]; [done|].
  unfold sorted_desc in *. simpl.
  by rewrite insert_desc_filter_eq, !filter_cons, IH.
Qed.
End SortedFacts.

(** ** The merge loop *)

Section Merge.
Implicit Types (h : SearchHit) (hits : list SearchHit) (d : string)
  (merged : ODict.t SearchHit).
Import ODictFacts.

Lemma first_seen_ext (s1 s2 ids : list string) :
  (∀ x, x ∈ s1 ↔ x ∈ s2) → first_seen s1 ids = first_seen s2 ids.
Proof.
  revert s1 s2. induction ids as [|d ids IH]; intros s1 s2 Hs; simpl; [done|].
  destruct (decide (d ∈ s1)) as [H1|H1], (decide (d ∈ s2)) as [H2|H2];
    try (by apply Hs in H1); try (by apply Hs in H2).
  - by apply IH.
  - f_equal. apply IH. intros x. rewrite !elem_of_cons. by rewrite Hs.
Qed.

Lemma first_seen_elem (seen ids : list string) x :
  x ∈ first_seen seen ids ↔ x ∈ ids ∧ x ∉ seen.
Proof.
  revert seen. induction ids as [|d ids IH]; intros seen; simpl.
  - split; [by intros ?%elem_of_nil | by intros [?%elem_of_nil _]].
  - destruct (decide (d ∈ seen)) as [Hd|Hd].
    + rewrite IH, elem_of_cons. naive_solver.
    + rewrite !elem_of_cons, IH, not_elem_of_cons.
      destruct (decide (x = d)); naive_solver.
Qed.

Lemma first_seen_NoDup (seen ids : list string) : NoDup (first_seen seen ids).
Proof.
  revert seen. induction ids as [|d ids IH]; intros seen; simpl.
  - constructor.
  - destruct (decide (d ∈ seen)); [apply IH|].
    constructor; [|apply IH].
    rewrite first_seen_elem, not_elem_of_cons. naive_solver.
Qed.

Lemma keys_merge_step merged h :
  ODict.keys (merge_step merged h) =
    if decide (id h ∈ ODict.keys merged) then ODict.keys merged
    else ODict.keys merged ++ [id h].
Proof.
  unfold merge_step, ensure.
  destruct (ODict.get (id h) merged) as [m|] eqn:Hg.
  - rewrite Hg, keys_set, Hg.
    rewrite decide_True; [done|]. apply get_is_Some. by eexists.
  - rewrite get_set_eq, keys_set, get_set_eq, keys_set, Hg.
    rewrite decide_False; [done|]. by apply get_None.
Qed.

Lemma get_merge_step merged h d :
  ODict.get d (merge_step merged h) =
    if decide (id h = d)
    then Some (fold_hit h (default (new_hit d) (ODict.get d merged)))
    else ODict.get d merged.
Proof.
  unfold merge_step, ensure. case_decide as Hd.
  - subst d. destruct (ODict.get (id h) merged) as [m|] eqn:Hg.
    + by rewrite Hg, get_set_eq.
    + by rewrite !get_set_eq.
  - destruct (ODict.get (id h) merged) as [m|] eqn:Hg.
    + by rewrite Hg, get_set_ne.
    + by rewrite get_set_eq, !get_set_ne.
Qed.

Lemma keys_foldl_merge hits : ∀ merged,
  ODict.keys (foldl merge_step merged hits) =
    ODict.keys merged ++ first_seen (ODict.keys merged) (id <$> hits).
Proof.
  induction hits as [|h hits IH]; intros merged; csimpl.
  - by rewrite app_nil_r.
  - rewrite IH, keys_merge_step.
    destruct (decide (id h ∈ ODict.keys merged)); [done|].
    rewrite <- app_assoc. simpl. do 2 f_equal.
    apply first_seen_ext. intros x. set_solver.
Qed.

Lemma get_foldl_merge hits : ∀ merged d,
  ODict.get d (foldl merge_step merged hits) =
    match hits_of d hits with
    | [] => ODict.get d merged
    | hs => Some (foldl (fun m h => fold_hit h m)
                    (default (new_hit d) (ODict.get d merged)) hs)
    end.
Proof.
  unfold hits_of.
  induction hits as [|h hits IH]; intros merged d; simpl; [done|].
  rewrite IH, get_merge_step, filter_cons.
  destruct (decide (id h = d)) as [Hd|Hd]; simpl.
  - by destruct (filter _ hits).
  - done.
Qed.

(** The keys of [merged] are the documents of the input, each once, in
    the order of their first hit. *)
Lemma keys_merge_hits hits :
  ODict.keys (merge_hits hits) = first_seen [] (id <$> hits).
Proof. unfold merge_hits. by rewrite keys_foldl_merge. Qed.

Lemma NoDup_keys_merge_hits hits : NoDup (ODict.keys (merge_hits hits)).
Proof. rewrite keys_merge_hits. apply first_seen_NoDup. Qed.

Lemma elem_keys_merge_hits hits d :
  d ∈ ODict.keys (merge_hits hits) ↔ d ∈ id <$> hits.
Proof.
  rewrite keys_merge_hits, first_seen_elem.
  split; [by intros [? _] | intros ?; split; [done | apply not_elem_of_nil]].
Qed.

(** The value under a key is the fold of the hits of that document. *)
Lemma get_merge_hits hits d :
  ODict.get d (merge_hits hits) =
    match hits_of d hits with
    | [] => None
    | hs => Some (fold_doc d hs)
    end.
Proof. unfold merge_hits. by rewrite get_foldl_merge. Qed.

Lemma elem_merge_hits hits d m :
  (d, m) ∈ merge_hits hits ↔ hits_of d hits ≠ [] ∧ m = fold_doc d (hits_of d hits).
Proof.
  split.
  - intros Hin. apply elem_get in Hin; [|apply NoDup_keys_merge_hits].
    rewrite get_merge_hits in Hin.
    destruct (hits_of d hits) eqn:Hh; [done|]. by injection Hin as <-.
  - intros [Hne ->]. apply get_Some_elem. rewrite get_merge_hits.
    by destruct (hits_of d hits).
Qed.

Lemma fold_hit_id h m : id (fold_hit h m) = id m.
Proof. done. Qed.

Lemma fold_doc_id d hs : id (fold_doc d hs) = d.
Proof.
  unfold fold_doc. generalize (eq_refl : id (new_hit d) = d).
  generalize (new_hit d). induction hs as [|h hs IH]; intros m Hm; simpl; [done|].
  by apply IH.
Qed.

Lemma fold_doc_meta d hs : meta (fold_doc d hs) = None.
Proof.
  unfold fold_doc. generalize (eq_refl : meta (new_hit d) = None).
  generalize (new_hit d). induction hs as [|h hs IH]; intros m Hm; simpl; [done|].
  by apply IH.
Qed.
End Merge.

(** ** The scoring loop and the result *)

Section Aggregate.
Context (hits : list SearchHit) (w_text w_vector : float)
  (rrf_k max_passages_per_doc : Z).
Implicit Types (d : string) (m : SearchHit) (out : list SearchHit).

Local Abbreviation run :=
  (aggregate_search_hits hits w_text w_vector rrf_k max_passages_per_doc).
Local Abbreviation score_of :=
  (rrf_score w_text w_vector rrf_k (text_rank hits) (vector_rank hits)).
Local Abbreviation step :=
  (score_doc w_text w_vector rrf_k max_passages_per_doc
     (text_rank hits) (vector_rank hits)).

Lemma hits_of_nonempty d : hits_of d hits ≠ [] ↔ d ∈ id <$> hits.
Proof.
  unfold hits_of. split.
  - destruct (filter _ hits) as [|h hs] eqn:Hf; [done|]. intros _.
    assert (h ∈ filter (fun h => id h = d) hits) as Hin by (rewrite Hf; left).
    apply list_elem_of_filter in Hin as [<- Hin].
    by apply list_elem_of_fmap_2.
  - intros (h & -> & Hin)%list_elem_of_fmap Hnil.
    assert (h ∈ filter (fun h0 => id h0 = id h) hits) as Hf
      by (by apply list_elem_of_filter).
    rewrite Hnil in Hf. by apply elem_of_nil in Hf.
Qed.

Lemma step_Ok d m m' :
  (d, m) ∈ merge_hits hits →
  step (d, m) = Ok m' ↔
    ∃ s, score_of d = Ok s ∧ m' = merged_doc hits max_passages_per_doc d s.
Proof.
  intros [Hne ->]%elem_merge_hits. unfold score_doc, merged_doc.
  rewrite fold_doc_id, fold_doc_meta.
  destruct (score_of d) as [s|e]; simpl.
  - split; [intros [= <-]; by eexists | by intros (s' & [= <-] & ->)].
  - split; [done | by intros (s' & ? & _)].
Qed.

Lemma run_Ok out :
  run = Ok out ↔
    ∃ scored, Forall2 (fun e m' => step e = Ok m') (merge_hits hits) scored
              ∧ out = sorted_desc score scored.
Proof.
  unfold aggregate_search_hits, ODict.items.
  destruct (mapM _ _) as [scored|e] eqn:Hm; simpl.
  - apply mapM_Ok in Hm. split.
    + intros [= <-]. by exists scored.
    + intros (scored' & H2 & ->). apply mapM_Ok in Hm, H2. congruence.
  - split; [done|]. intros (scored' & H2 & ->). apply mapM_Ok in H2. congruence.
Qed.

(** The hits of the result: one per document of the input, built from
    the hits of that document. *)
Lemma run_elem out m' :
  run = Ok out →
  m' ∈ out ↔
    ∃ d s, d ∈ id <$> hits ∧ score_of d = Ok s
           ∧ m' = merged_doc hits max_passages_per_doc d s.
Proof.
  intros (scored & H2 & ->)%run_Ok. rewrite sorted_desc_elem. split.
  - intros [i Hi]%list_elem_of_lookup.
    destruct (Forall2_lookup_r _ _ _ _ _ H2 Hi) as ([d m] & He & Hstep).
    apply list_elem_of_lookup_2 in He.
    pose proof He as [Hne _]%elem_merge_hits.
    apply step_Ok in Hstep as (s & Hs & ->); [|done].
    exists d, s. by rewrite <- hits_of_nonempty.
  - intros (d & s & Hd & Hs & ->). apply hits_of_nonempty in Hd.
    assert ((d, fold_doc d (hits_of d hits)) ∈ merge_hits hits) as Hin
      by (by apply elem_merge_hits).
    pose proof Hin as [i Hi]%list_elem_of_lookup.
    destruct (Forall2_lookup_l _ _ _ _ _ H2 Hi) as (m'' & Hm'' & Hstep).
    apply step_Ok in Hstep as (s' & Hs' & ->); [|done].
    apply list_elem_of_lookup_2 in Hm''. congruence.
Qed.

Lemma scored_ids scored :
  Forall2 (fun e m' => step e = Ok m') (merge_hits hits) scored →
  id <$> scored = ODict.keys (merge_hits hits).
Proof.
  assert (∀ l, Forall (fun e => e ∈ merge_hits hits) l →
            ∀ scored, Forall2 (fun e m' => step e = Ok m') l scored →
                      id <$> scored = l.*1) as Hgen.
  { intros l Hl scored' HF. induction HF as [|[d m] m' l scored' Hs _ IH]; [done|].
    apply Forall_cons in Hl as [Hin Hl]. csimpl. rewrite IH by done.
    apply step_Ok in Hs as (s & _ & ->); done. }
  intros H2. unfold ODict.keys. erewrite Hgen; [done| |done].
  by apply Forall_forall.
Qed.

Lemma run_ids out :
  run = Ok out → id <$> out ≡ₚ ODict.keys (merge_hits hits).
Proof.
  intros (scored & H2 & ->)%run_Ok.
  by rewrite sorted_desc_perm, (scored_ids scored).
Qed.

(** The conversion of the denominator and the division succeed for every
    rank when [rrf_k] is not negative and the sum stays in the range of
    floats. *)
Lemma rank_map_bound (hs : list SearchHit) d r :
  rank_map hs !! d = Some r → 1 ≤ r ≤ len hs.
Proof.
  intros (Hr & Hl & _)%rank_map_Some. split; [done|].
  apply lookup_lt_Some in Hl. rewrite length_fmap in Hl. unfold len. lia.
Qed.

Lemma len_filter_le {A} (P : A → Prop) `{∀ x, Decision (P x)} (l : list A) :
  len (filter P l) ≤ len l.
Proof. unfold len. pose proof (length_filter P l). lia. Qed.

Lemma truediv_int_Ok x n :
  0 < n < PyFloat.overflow_threshold → ∃ q, PyFloat.truediv_int x n = Ok q.
Proof.
  intros [Hpos Hlt]. unfold PyFloat.truediv_int, PyFloat.of_int.
  destruct (Z.leb_spec PyFloat.overflow_threshold (Z.abs n)); [lia|].
  simpl. destruct (Z.eqb_spec n 0); [lia|]. by eexists.
Qed.

Lemma add_rrf_Ok w (rank : gmap string Z) (hs : list SearchHit) d s :
  rank = rank_map hs → len hs ≤ len hits →
  0 ≤ rrf_k → rrf_k + len hits < PyFloat.overflow_threshold →
  ∃ s', add_rrf w rrf_k rank d s = Ok s'.
Proof.
  intros -> Hlen Hk Hbound. unfold add_rrf.
  destruct (rank_map hs !! d) as [r|] eqn:Hr; [|by eexists].
  apply rank_map_bound in Hr.
  destruct (truediv_int_Ok PyFloat.one (rrf_k + r)) as [q ->]; [lia|].
  by eexists.
Qed.

Lemma score_of_Ok d :
  0 ≤ rrf_k → rrf_k + len hits < PyFloat.overflow_threshold →
  ∃ s, score_of d = Ok s.
Proof.
  intros Hk Hbound. unfold rrf_score.
  destruct (add_rrf_Ok w_text (text_rank hits) (text_hits hits) d PyFloat.zero)
    as [s1 ->]; [done|apply len_filter_le|done..|]. simpl.
  apply (add_rrf_Ok w_vector (vector_rank hits) (vector_hits hits));
    [done|apply len_filter_le|done..].
Qed.

(** The call returns, under the same bounds. *)
Lemma run_returns :
  0 ≤ rrf_k → rrf_k + len hits < PyFloat.overflow_threshold →
  ∃ out, run = Ok out.
Proof.
  intros Hk Hbound.
  destruct (mapM_all_Ok step (ODict.items (merge_hits hits))) as [scored Hs].
  - apply Forall_forall. intros [d m] Hin.
    destruct (score_of_Ok d Hk Hbound) as [s Hs].
    exists (merged_doc hits max_passages_per_doc d s).
    apply step_Ok; [done|]. by exists s.
  - unfold aggregate_search_hits. rewrite Hs. by eexists.
Qed.
End Aggregate.

(** ** Adding to zero *)

Section AddZero.
Implicit Types x y : float.

Lemma Prim2SF_zero : Prim2SF PyFloat.zero = S754_zero false.
Proof. reflexivity. Qed.

Lemma same_refl x : PyFloat.same x x.
Proof. by left. Qed.

Lemma same_of_spec x y :
  Prim2SF x = Prim2SF y
  ∨ (∃ s1 s2, Prim2SF x = S754_zero s1 ∧ Prim2SF y = S754_zero s2) →
  PyFloat.same x y.
Proof.
  intros [Heq|(s1 & s2 & H1 & H2)].
  - left. by apply Prim2SF_inj.
  - right. by rewrite FloatAxioms.eqb_spec, H1, H2.
Qed.

(** [0.0 + x] is [x], up to the sign of a zero. *)
Lemma add_zero_l x : PyFloat.same (PrimFloat.add PyFloat.zero x) x.
Proof.
  apply same_of_spec. rewrite add_spec, Prim2SF_zero.
  destruct (Prim2SF x) as [s| | |s m e]; simpl; eauto.
  right. exists false, s. by destruct s.
Qed.

(** When [x] is not a zero, [0.0 + x] is [x] itself. *)
Lemma add_zero_l_eq x :
  PrimFloat.eqb x PyFloat.zero = false → PrimFloat.add PyFloat.zero x = x.
Proof.
  intros Hx. apply Prim2SF_inj. rewrite add_spec, Prim2SF_zero.
  rewrite FloatAxioms.eqb_spec, Prim2SF_zero in Hx.
  by destruct (Prim2SF x) as [s| | |s m e].
Qed.

Lemma add_zero_l_add x y :
  PyFloat.same (PrimFloat.add (PrimFloat.add PyFloat.zero x) y)
    (PrimFloat.add x y).
Proof.
  apply same_of_spec. rewrite !add_spec, Prim2SF_zero.
  destruct (Prim2SF x) as [s| | |s m e]; simpl; eauto.
  destruct (Prim2SF y) as [s'| | |s' m' e'], s; simpl; eauto.
  all: right; destruct s'; simpl; eauto.
Qed.
End AddZero.

Section AggregateClaims.
Context (hits : list SearchHit) (w_text w_vector : float)
  (rrf_k max_passages_per_doc : Z).
Implicit Types (d : string) (m : SearchHit) (out : list SearchHit).

Local Abbreviation run :=
  (aggregate_search_hits hits w_text w_vector rrf_k max_passages_per_doc).

Lemma truediv_int_one_Ok n q :
  PyFloat.truediv_int PyFloat.one n = Ok q →
  q = PrimFloat.div PyFloat.one (PyFloat.nearest n).
Proof.
  unfold PyFloat.truediv_int, PyFloat.of_int.
  destruct (_ <=? _); [done|]. simpl. destruct (n =? 0); [done|].
  by intros [= <-].
Qed.

Lemma rrf_score_Ok (trank vrank : gmap string Z) d s :
  rrf_score w_text w_vector rrf_k trank vrank d = Ok s →
  PyFloat.same s (fused_score w_text w_vector rrf_k (trank !! d) (vrank !! d)).
Proof.
  unfold rrf_score, add_rrf, fused_score, rrf_term.
  destruct (trank !! d) as [rt|], (vrank !! d) as [rv|]; simpl.
  - destruct (PyFloat.truediv_int _ (rrf_k + rt)) as [q1|] eqn:H1; [|done].
    simpl. destruct (PyFloat.truediv_int _ (rrf_k + rv)) as [q2|] eqn:H2; [|done].
    simpl. intros [= <-].
    apply truediv_int_one_Ok in H1 as ->. apply truediv_int_one_Ok in H2 as ->.
    apply add_zero_l_add.
  - destruct (PyFloat.truediv_int _ (rrf_k + rt)) as [q1|] eqn:H1; [|done].
    simpl. intros [= <-]. apply truediv_int_one_Ok in H1 as ->.
    apply add_zero_l.
  - destruct (PyFloat.truediv_int _ (rrf_k + rv)) as [q2|] eqn:H2; [|done].
    simpl. intros [= <-]. apply truediv_int_one_Ok in H2 as ->.
    apply add_zero_l.
  - intros [= <-]. apply same_refl.
Qed.
End AggregateClaims.

Example aggregate_mixed : aggregate_default mixed_hits = Ok mixed_result.
Proof. vm_compute. reflexivity. Qed.

Lemma Sorted_adjacent {A} (R : A → A → Prop) (l : list A) :
  Sorted R l → ∀ i a b, l !! i = Some a → l !! S i = Some b → R a b.
Proof.
  induction 1 as [|x l Hs IH Hhd]; intros i a b Ha Hb; [done|].
  destruct i as [|i]; simpl in *.
  - injection Ha as ->. destruct l as [|y l]; [done|].
    injection Hb as ->. by inversion Hhd.
  - by apply (IH i).
Qed.

(** C2: each hit of the result has the fused score
    [w_text * (1 / (rrf_k + text_rank))], when the document has a text rank,
    plus [w_vector * (1 / (rrf_k + vector_rank))], when it has a vector
    rank, and only the term of its modality when it has one rank; with the
    default weights and [rrf_k = 60] a document of text rank 1 only scores
    [1/61], and a document of text rank 1 and vector rank 1 scores [2/61]. *)
Theorem fused_score_is_sum_of_rank_terms
    (hits : list SearchHit) (w_text w_vector : float)
    (rrf_k max_passages_per_doc : Z) (out : list SearchHit) (m : SearchHit) :
  aggregate_search_hits hits w_text w_vector rrf_k max_passages_per_doc = Ok out →
  m ∈ out →
  PyFloat.same (score m)
    (fused_score w_text w_vector rrf_k
       (text_rank hits !! id m) (vector_rank hits !! id m))
  ∧ (w_text = default_w → w_vector = default_w → rrf_k = default_rrf_k →
     (text_rank hits !! id m = Some 1 → vector_rank hits !! id m = None →
      score m = (1 / 61)%float)
     ∧ (text_rank hits !! id m = Some 1 → vector_rank hits !! id m = Some 1 →
        score m = (2 / 61)%float)).
Proof.
  intros Hrun Hm.
  apply (run_elem _ _ _ _ _ _ _ Hrun) in Hm as (d & s & _ & Hs & ->). simpl.
  split; [by apply rrf_score_Ok|].
  intros -> -> ->. unfold rrf_score, add_rrf in Hs.
  split; intros Ht Hv; rewrite Ht, Hv in Hs; vm_compute in Hs; congruence.
Qed.

Lemma fused_score_is_sum_of_rank_terms_witness :
  PyFloat.same (2 / 61)%float
    (fused_score default_w default_w default_rrf_k (Some 1) (Some 1))
  ∧ (default_w = default_w → default_w = default_w →
     default_rrf_k = default_rrf_k →
     (Some 1 = Some 1 → Some 1 = None → (2 / 61)%float = (1 / 61)%float)
     ∧ (Some 1 = Some 1 → Some 1 = Some 1 → (2 / 61)%float = (2 / 61)%float)).
Proof.
  apply (fused_score_is_sum_of_rank_terms mixed_hits default_w default_w
           default_rrf_k default_max_passages mixed_result mixed_A).
  - vm_compute. reflexivity.
  - left.
Defined.

(** C5: the documents of the result are exactly the documents of the
    input, each once; the call returns whenever [rrf_k] is not negative
    and [rrf_k] plus the number of hits stays in the range of floats, which
    covers the defaults; the empty input gives the empty list. *)
Theorem aggregate_ids_exact
    (hits : list SearchHit) (w_text w_vector : float)
    (rrf_k max_passages_per_doc : Z) :
  (∀ out,
     aggregate_search_hits hits w_text w_vector rrf_k max_passages_per_doc = Ok out →
     NoDup (id <$> out) ∧ (∀ d, d ∈ id <$> out ↔ d ∈ id <$> hits))
  ∧ (0 ≤ rrf_k → rrf_k + len hits < PyFloat.overflow_threshold →
     ∃ out,
       aggregate_search_hits hits w_text w_vector rrf_k max_passages_per_doc = Ok out)
  ∧ aggregate_search_hits [] w_text w_vector rrf_k max_passages_per_doc = Ok [].
Proof.
  split_and!.
  - intros out Hrun. pose proof (run_ids _ _ _ _ _ _ Hrun) as Hperm. split.
    + rewrite Hperm. apply NoDup_keys_merge_hits.
    + intros d. rewrite Hperm. apply elem_keys_merge_hits.
  - apply run_returns.
  - reflexivity.
Qed.

(** C6: the result is in descending order of fused score, each hit's score
    at least the next one's (the scores being numbers, not [nan]); hits of
    equal score stand in the order in which their documents first occur in
    the input. *)
Theorem aggregate_sorted_by_score
    (hits : list SearchHit) (w_text w_vector : float)
    (rrf_k max_passages_per_doc : Z) (out : list SearchHit) :
  aggregate_search_hits hits w_text w_vector rrf_k max_passages_per_doc = Ok out →
  Forall (fun m => PyFloat.not_nan (score m)) out →
  (∀ i a b, out !! i = Some a → out !! S i = Some b →
            PyFloat.le (score b) (score a))
  ∧ ∃ merged,
      id <$> merged = first_seen [] (id <$> hits)
      ∧ out ≡ₚ merged
      ∧ ∀ k, filter (fun m => PrimFloat.eqb (score m) k = true) out
             = filter (fun m => PrimFloat.eqb (score m) k = true) merged.
Proof.
  intros Hrun Hnan. pose proof Hrun as (scored & H2 & ->)%run_Ok. split.
  - apply (Sorted_adjacent (desc score)). apply sorted_desc_Sorted.
    by rewrite sorted_desc_perm in Hnan.
  - exists scored. split_and!.
    + rewrite <- keys_merge_hits.
      by apply (scored_ids hits w_text w_vector rrf_k max_passages_per_doc).
    + apply sorted_desc_perm.
    + intros k. apply sorted_desc_stable.
Qed.

Lemma aggregate_sorted_by_score_witness :
  (∀ i a b, mixed_result !! i = Some a → mixed_result !! S i = Some b →
            PyFloat.le (score b) (score a))
  ∧ ∃ merged,
      id <$> merged = first_seen [] (id <$> mixed_hits)
      ∧ mixed_result ≡ₚ merged
      ∧ ∀ k, filter (fun m => PrimFloat.eqb (score m) k = true) mixed_result
             = filter (fun m => PrimFloat.eqb (score m) k = true) merged.
Proof.
  apply (aggregate_sorted_by_score mixed_hits default_w default_w
           default_rrf_k default_max_passages mixed_result).
  - vm_compute. reflexivity.
  - repeat constructor.
Defined.

(** ** Passages *)

Section Passages.
Implicit Types (p b : Passage) (ps g : list Passage) (c : string)
  (best : ODict.t Passage).
Import ODictFacts.

Lemma keys_dedup_step best p :
  ODict.keys (dedup_step best p) =
    if decide (chunk_id p ∈ ODict.keys best) then ODict.keys best
    else ODict.keys best ++ [chunk_id p].
Proof.
  unfold dedup_step. destruct (ODict.get (chunk_id p) best) as [o|] eqn:Hg.
  - rewrite decide_True by (apply get_is_Some; by eexists).
    destruct (PyFloat.gt _ _); [|done]. by rewrite keys_set, Hg.
  - rewrite decide_False by (by apply get_None). by rewrite keys_set, Hg.
Qed.

Lemma get_dedup_step best p c :
  ODict.get c (dedup_step best p) =
    if decide (chunk_id p = c) then pick (ODict.get c best) p
    else ODict.get c best.
Proof.
  unfold dedup_step, pick. case_decide as Hc.
  - subst c. destruct (ODict.get (chunk_id p) best) as [o|] eqn:Hg.
    + destruct (PyFloat.gt _ _); [by rewrite get_set_eq | done].
    + by rewrite get_set_eq.
  - destruct (ODict.get (chunk_id p) best) as [o|] eqn:Hg.
    + destruct (PyFloat.gt _ _); [by rewrite get_set_ne | done].
    + by rewrite get_set_ne.
Qed.

Lemma keys_foldl_dedup ps : ∀ best,
  ODict.keys (foldl dedup_step best ps) =
    ODict.keys best ++ first_seen (ODict.keys best) (chunk_id <$> ps).
Proof.
  induction ps as [|p ps IH]; intros best; csimpl.
  - by rewrite app_nil_r.
  - rewrite IH, keys_dedup_step.
    destruct (decide (chunk_id p ∈ ODict.keys best)); [done|].
    rewrite <- app_assoc. simpl. do 2 f_equal.
    apply first_seen_ext. intros x. set_solver.
Qed.

Lemma get_foldl_dedup ps : ∀ best c,
  ODict.get c (foldl dedup_step best ps) =
    foldl pick (ODict.get c best) (filter (fun p => chunk_id p = c) ps).
Proof.
  induction ps as [|p ps IH]; intros best c; simpl; [done|].
  rewrite IH, get_dedup_step, filter_cons.
  by destruct (decide (chunk_id p = c)).
Qed.

Lemma keys_best_by_chunk ps :
  ODict.keys (best_by_chunk ps) = first_seen [] (chunk_id <$> ps).
Proof. unfold best_by_chunk. by rewrite keys_foldl_dedup. Qed.

Lemma get_best_by_chunk ps c :
  ODict.get c (best_by_chunk ps) =
    foldl pick None (filter (fun p => chunk_id p = c) ps).
Proof. unfold best_by_chunk. by rewrite get_foldl_dedup. Qed.

(** The passage kept for a group is its first maximum. *)
Lemma foldl_pick_first_max g : ∀ pre o b,
  Forall (fun p => PyFloat.not_nan (p_score p)) (o :: g) →
  first_max_of o pre →
  foldl pick (Some o) g = Some b →
  first_max_of b (pre ++ g).
Proof.
  induction g as [|p g IH]; intros pre o b Hnan Ho; simpl.
  - intros [= <-]. by rewrite app_nil_r.
  - apply Forall_cons in Hnan as [Hno Hnan].
    apply Forall_cons in Hnan as [Hnp Hnan].
    destruct Ho as (g1 & g2 & -> & H1 & H2).
    replace ((g1 ++ o :: g2) ++ p :: g) with (((g1 ++ o :: g2) ++ [p]) ++ g)
      by (by rewrite <- !app_assoc).
    unfold PyFloat.gt. destruct (PrimFloat.ltb (p_score o) (p_score p)) eqn:Hlt.
    + apply IH; [by constructor|].
      exists (g1 ++ o :: g2), []. split_and!; [done| |constructor].
      apply Forall_app. split; [|constructor].
      * eapply Forall_impl; [done|]. intros q Hq. simpl in Hq.
        apply (FloatOrder.lt_le_trans _ (p_score o)); [done|].
        by apply FloatOrder.lt_le.
      * done.
      * eapply Forall_impl; [done|]. intros q Hq. simpl in Hq.
        by apply (FloatOrder.le_lt_trans _ (p_score o)).
    + apply IH; [by constructor|].
      exists g1, (g2 ++ [p]). split_and!; [by rewrite <- !app_assoc|done|].
      apply Forall_app. split; [done|]. constructor; [|constructor].
      by apply FloatOrder.not_lt_le.
Qed.

Lemma foldl_pick_None_first_max g b :
  Forall (fun p => PyFloat.not_nan (p_score p)) g →
  foldl pick None g = Some b → first_max_of b g.
Proof.
  destruct g as [|o g]; [done|]. simpl. intros Hnan Hb.
  apply (foldl_pick_first_max g [o] o b Hnan); [|done].
  exists [], []. by repeat constructor.
Qed.

Lemma foldl_pick_chunk c g : ∀ old b,
  Forall (fun p => chunk_id p = c) g →
  (∀ o, old = Some o → chunk_id o = c) →
  foldl pick old g = Some b → chunk_id b = c.
Proof.
  induction g as [|p g IH]; intros old b Hg Hold; simpl.
  - intros ->. by apply Hold.
  - apply Forall_cons in Hg as [Hp Hg]. apply IH; [done|].
    intros o. unfold pick. destruct old as [o'|].
    + destruct (PyFloat.gt _ _); intros [= <-]; [done | by apply Hold].
    + by intros [= <-].
Qed.

(** The values of [best_by_chunk]: one passage per chunk, in the order in
    which the chunks first occur, each the first maximum of its chunk. *)
Lemma values_best_by_chunk ps :
  Forall (fun p => PyFloat.not_nan (p_score p)) ps →
  chunk_id <$> ODict.values (best_by_chunk ps) = first_seen [] (chunk_id <$> ps)
  ∧ Forall (fun b => first_max_of b (chunk_group b ps))
      (ODict.values (best_by_chunk ps)).
Proof.
  intros Hnan.
  assert (∀ c b, (c, b) ∈ best_by_chunk ps →
                 chunk_id b = c ∧ first_max_of b (chunk_group b ps)) as Hentry.
  { intros c b Hin.
    apply elem_get in Hin;
      [|rewrite keys_best_by_chunk; apply first_seen_NoDup].
    rewrite get_best_by_chunk in Hin.
    assert (chunk_id b = c) as Hc.
    { apply (foldl_pick_chunk c (filter (fun p => chunk_id p = c) ps) None b);
        [|done|done].
      apply Forall_forall. by intros q [? _]%list_elem_of_filter. }
    split; [done|]. unfold chunk_group. rewrite Hc.
    apply foldl_pick_None_first_max; [|done].
    apply Forall_forall. intros q [_ Hq]%list_elem_of_filter.
    revert q Hq. by apply Forall_forall. }
  split.
  - rewrite <- keys_best_by_chunk. unfold ODict.values, ODict.keys.
    revert Hentry. generalize (best_by_chunk ps). intros best Hentry.
    induction best as [|[c b] best IH]; [done|]. csimpl. f_equal.
    + apply (Hentry c b). left.
    + apply IH. intros c' b' Hin. apply Hentry. by right.
  - apply Forall_forall. intros b Hb. unfold ODict.values in Hb.
    apply list_elem_of_fmap in Hb as ([c b'] & -> & Hin). simpl.
    by apply (Hentry c b').
Qed.

Lemma elem_values_best_by_chunk ps b :
  b ∈ ODict.values (best_by_chunk ps) → b ∈ ps.
Proof.
  unfold ODict.values. intros ([c b'] & -> & Hin)%list_elem_of_fmap. simpl.
  apply elem_get in Hin; [|rewrite keys_best_by_chunk; apply first_seen_NoDup].
  rewrite get_best_by_chunk in Hin.
  assert (∀ g old, foldl pick old g = Some b' →
                   old = Some b' ∨ b' ∈ g) as Hgen.
  { induction g as [|p g IH]; intros old; simpl; [by left|].
    intros [Hold| Hg]%IH; [|right; by right].
    unfold pick in Hold. destruct old as [o|].
    - destruct (PyFloat.gt _ _); injection Hold as <-; [right; left | by left].
    - injection Hold as <-. right. left. }
  apply Hgen in Hin as [?|Hin]; [done|].
  by apply list_elem_of_filter in Hin as [_ ?].
Qed.

Lemma passages_foldl_fold_hit (hs : list SearchHit) : ∀ m,
  passages (foldl (fun m h => fold_hit h m) m hs)
  = passages m ++ concat (passages <$> hs).
Proof.
  induction hs as [|h hs IH]; intros m; csimpl.
  - by rewrite app_nil_r.
  - rewrite IH. simpl. destruct (passages h); simpl.
    + done.
    + by rewrite <- app_assoc.
Qed.

(** Before the deduplication the merged hit holds the passages of the
    hits of its document, concatenated. *)
Lemma passages_fold_doc d hits :
  passages (fold_doc d (hits_of d hits)) = passages_of d hits.
Proof. unfold fold_doc. by rewrite passages_foldl_fold_hit. Qed.

Lemma Sorted_take {A} (R : A → A → Prop) (l : list A) n :
  Sorted R l → Sorted R (take n l).
Proof.
  intros Hs. revert n. induction Hs as [|x l Hs IH Hhd]; intros [|n]; simpl;
    try constructor.
  - apply IH.
  - destruct Hhd; destruct n; simpl; by constructor.
Qed.
End Passages.

Lemma slice_to_nonneg {A} (n : Z) (l : list A) :
  0 ≤ n → slice_to n l = take (Z.to_nat n) l.
Proof. intros Hn. unfold slice_to. by destruct (Z.leb_spec 0 n); [|lia]. Qed.

(** C4: the passages of each hit of the result are the passages of the
    input hits of its document, deduplicated by [chunk_id] keeping for each
    chunk the passage with the highest score (the first encountered of
    those that tie), sorted by score descending and cut to at most
    [max_passages_per_doc]; no chunk occurs twice; two input passages of
    one chunk with different scores leave exactly the higher one. The
    passage scores are numbers, not [nan], and the bound is not
    negative. *)
Theorem passages_best_per_chunk_sorted_capped
    (hits : list SearchHit) (w_text w_vector : float)
    (rrf_k max_passages_per_doc : Z) (out : list SearchHit) (m : SearchHit) :
  aggregate_search_hits hits w_text w_vector rrf_k max_passages_per_doc = Ok out →
  m ∈ out →
  0 ≤ max_passages_per_doc →
  Forall (fun p => PyFloat.not_nan (p_score p)) (passages_of (id m) hits) →
  (∃ survivors,
     chunk_id <$> survivors = first_seen [] (chunk_id <$> passages_of (id m) hits)
     ∧ Forall (fun b => first_max_of b (chunk_group b (passages_of (id m) hits)))
         survivors
     ∧ passages m
       = take (Z.to_nat max_passages_per_doc) (sorted_desc p_score survivors))
  ∧ Sorted (desc p_score) (passages m)
  ∧ len (passages m) ≤ max_passages_per_doc
  ∧ NoDup (chunk_id <$> passages m)
  ∧ (∀ p1 p2,
       passages_of (id m) hits = [p1; p2] → chunk_id p1 = chunk_id p2 →
       1 ≤ max_passages_per_doc →
       (PyFloat.lt (p_score p1) (p_score p2) → passages m = [p2])
       ∧ (PyFloat.lt (p_score p2) (p_score p1) → passages m = [p1])).
Proof.
  intros Hrun Hm Hmax Hnan.
  apply (run_elem _ _ _ _ _ _ _ Hrun) in Hm as (d & s & _ & _ & ->).
  simpl in *. rewrite passages_fold_doc. unfold top_passages.
  rewrite slice_to_nonneg by done.
  destruct (values_best_by_chunk _ Hnan) as [Hkeys Hbest].
  set (survivors := ODict.values (best_by_chunk (passages_of d hits))) in *.
  assert (Forall (fun p => PyFloat.not_nan (p_score p)) survivors) as Hsn.
  { apply Forall_forall. intros b Hb%elem_values_best_by_chunk.
    revert b Hb. by apply Forall_forall. }
  split_and!.
  - by exists survivors.
  - apply Sorted_take. by apply sorted_desc_Sorted.
  - unfold len. rewrite length_take. lia.
  - rewrite fmap_take. eapply sublist_NoDup; [|apply sublist_take].
    rewrite sorted_desc_perm, Hkeys. apply first_seen_NoDup.
  - intros p1 p2 Hps Hc H1. subst survivors. rewrite Hps.
    unfold best_by_chunk, dedup_step. simpl.
    rewrite <- Hc, String.eqb_refl. unfold PyFloat.gt.
    assert (∀ x : Passage, take (Z.to_nat max_passages_per_doc) [x] = [x]) as Ht.
    { intros x. apply take_ge. simpl. lia. }
    split; intros Hlt.
    + unfold PyFloat.lt in Hlt. rewrite Hlt. apply Ht.
    + rewrite (FloatOrder.le_not_lt _ _ (FloatOrder.lt_le _ _ Hlt)). apply Ht.
Qed.

Lemma passages_best_per_chunk_sorted_capped_witness :
  (∃ survivors,
     chunk_id <$> survivors = first_seen [] (chunk_id <$> passages_of "A" mixed_hits)
     ∧ Forall (fun b => first_max_of b (chunk_group b (passages_of "A" mixed_hits)))
         survivors
     ∧ passages mixed_A
       = take (Z.to_nat default_max_passages) (sorted_desc p_score survivors))
  ∧ Sorted (desc p_score) (passages mixed_A)
  ∧ len (passages mixed_A) ≤ default_max_passages
  ∧ NoDup (chunk_id <$> passages mixed_A)
  ∧ (∀ p1 p2,
       passages_of "A" mixed_hits = [p1; p2] → chunk_id p1 = chunk_id p2 →
       1 ≤ default_max_passages →
       (PyFloat.lt (p_score p1) (p_score p2) → passages mixed_A = [p2])
       ∧ (PyFloat.lt (p_score p2) (p_score p1) → passages mixed_A = [p1])).
Proof.
  apply (passages_best_per_chunk_sorted_capped mixed_hits default_w default_w
           default_rrf_k default_max_passages mixed_result mixed_A).
  - vm_compute. reflexivity.
  - left.
  - unfold default_max_passages. lia.
  - repeat constructor.
Defined.

(** ** Best raw scores *)

Section BestRaw.
Implicit Types (hs : list SearchHit) (m : SearchHit) (vs : list float).

Lemma bm25_foldl_fold_hit hs : ∀ m,
  bm25 (foldl (fun m h => fold_hit h m) m hs)
  = best_raw (bm25 m) (omap bm25 hs).
Proof.
  induction hs as [|h hs IH]; intros m; [done|].
  simpl. rewrite IH. simpl. by destruct (bm25 h).
Qed.

Lemma cosine_foldl_fold_hit hs : ∀ m,
  cosine (foldl (fun m h => fold_hit h m) m hs)
  = best_raw (cosine m) (omap cosine hs).
Proof.
  induction hs as [|h hs IH]; intros m; [done|].
  simpl. rewrite IH. simpl. by destruct (cosine h).
Qed.

Lemma neg_inf_lt_nonneg v : PyFloat.le PyFloat.zero v → PyFloat.lt PyFloat.neg_inf v.
Proof. intros Hv. by apply (FloatOrder.lt_le_trans _ PyFloat.zero). Qed.

(** One step of the loop keeps a maximum of non-negative scores. *)
Lemma best_raw_step a seen v :
  is_max_of a seen → PyFloat.le PyFloat.zero a → PyFloat.le PyFloat.zero v →
  is_max_of (PyFloat.max (PyFloat.or_neg_inf (Some a)) v) (seen ++ [v])
  ∧ PyFloat.le PyFloat.zero (PyFloat.max (PyFloat.or_neg_inf (Some a)) v).
Proof.
  intros [Hin Hub] Ha Hv.
  destruct (FloatOrder.le_not_nan _ _ Ha) as [_ Hna].
  destruct (FloatOrder.le_not_nan _ _ Hv) as [_ Hnv].
  assert (∀ b, PyFloat.le a b → PyFloat.le v b → b ∈ seen ++ [v] →
               is_max_of b (seen ++ [v])) as Hmk.
  { intros b Hab Hvb Hb. split; [done|]. apply Forall_app. split.
    - eapply Forall_impl; [done|]. intros x Hx. simpl in Hx.
      by apply (FloatOrder.le_trans _ a).
    - by repeat constructor. }
  unfold PyFloat.or_neg_inf, PyFloat.truthy, PyFloat.max, PyFloat.gt.
  destruct (PrimFloat.eqb a PyFloat.zero) eqn:Hz; simpl.
  - apply FloatOrder.eqb_le in Hz as [Haz _].
    rewrite (neg_inf_lt_nonneg v Hv). split; [|done].
    apply Hmk; [by apply (FloatOrder.le_trans _ PyFloat.zero)
               |by apply FloatOrder.le_refl|set_solver].
  - destruct (PrimFloat.ltb a v) eqn:Hlt.
    + split; [|done].
      apply Hmk; [by apply FloatOrder.lt_le|by apply FloatOrder.le_refl|set_solver].
    + split; [|done].
      apply Hmk; [by apply FloatOrder.le_refl|by apply FloatOrder.not_lt_le|set_solver].
Qed.

Lemma best_raw_from vs : ∀ a seen,
  is_max_of a seen → PyFloat.le PyFloat.zero a →
  Forall (fun v => PyFloat.le PyFloat.zero v) vs →
  ∃ b, best_raw (Some a) vs = Some b ∧ is_max_of b (seen ++ vs).
Proof.
  induction vs as [|v vs IH]; intros a seen Ha H0 Hvs.
  - exists a. by rewrite app_nil_r.
  - apply Forall_cons in Hvs as [Hv Hvs].
    destruct (best_raw_step a seen v Ha H0 Hv) as [Hmax Hpos].
    destruct (IH _ _ Hmax Hpos Hvs) as (b & Hb & Hbmax).
    exists b. split; [done|]. by rewrite <- app_assoc in Hbmax.
Qed.

(** On scores that are all at least zero the loop computes the maximum. *)
Lemma best_raw_nonneg vs :
  Forall (fun v => PyFloat.le PyFloat.zero v) vs →
  match vs with
  | [] => best_raw None vs = None
  | _ :: _ => ∃ b, best_raw None vs = Some b ∧ is_max_of b vs
  end.
Proof.
  destruct vs as [|v vs]; [done|]. intros [Hv Hvs]%Forall_cons.
  destruct (FloatOrder.le_not_nan _ _ Hv) as [_ Hnv].
  assert (PyFloat.max (PyFloat.or_neg_inf None) v = v) as Hfirst.
  { unfold PyFloat.max, PyFloat.or_neg_inf, PyFloat.gt.
    by rewrite (neg_inf_lt_nonneg v Hv). }
  change (best_raw None (v :: vs))
    with (best_raw (Some (PyFloat.max (PyFloat.or_neg_inf None) v)) vs).
  rewrite Hfirst.
  apply (best_raw_from vs v [v]); [|done|done].
  split; [left|]. repeat constructor. by apply FloatOrder.le_refl.
Qed.
End BestRaw.

(** C3, a defect of the code: the merged [bm25] and [cosine] are meant to
    be the maximum of the raw scores of the document (the loop is
    commented "Keep best raw scores"), but [m.cosine or float("-inf")]
    also discards a stored score of [0.0]. A document with the vector
    scores [0.0] and then [-1.0] ends with [cosine = -1.0], which is not
    their maximum. *)
Theorem best_raw_score_lost_after_zero :
  ∃ m, aggregate_default zero_then_negative = Ok [m]
       ∧ omap cosine (hits_of "D" zero_then_negative) = [0%float; (-1)%float]
       ∧ cosine m = Some (-1)%float
       ∧ PyFloat.lt (-1)%float 0%float.
Proof. eexists. vm_compute. repeat split; reflexivity. Qed.

(** The merged raw scores are the maximum when no raw score is below zero
    (as for BM25 scores): [bm25] and [cosine] of each hit of the result are
    absent when no input hit of the document has the field, and otherwise
    the maximum of the field over the input hits of the document. *)
Theorem best_raw_scores_nonneg
    (hits : list SearchHit) (w_text w_vector : float)
    (rrf_k max_passages_per_doc : Z) (out : list SearchHit) (m : SearchHit) :
  aggregate_search_hits hits w_text w_vector rrf_k max_passages_per_doc = Ok out →
  m ∈ out →
  Forall (fun v => PyFloat.le PyFloat.zero v) (omap bm25 (hits_of (id m) hits)) →
  Forall (fun v => PyFloat.le PyFloat.zero v) (omap cosine (hits_of (id m) hits)) →
  match omap bm25 (hits_of (id m) hits) with
  | [] => bm25 m = None
  | vs => ∃ b, bm25 m = Some b ∧ is_max_of b vs
  end
  ∧ match omap cosine (hits_of (id m) hits) with
    | [] => cosine m = None
    | vs => ∃ c, cosine m = Some c ∧ is_max_of c vs
    end.
Proof.
  intros Hrun Hm Hb Hc.
  apply (run_elem _ _ _ _ _ _ _ Hrun) in Hm as (d & s & _ & _ & ->).
  simpl in *. unfold fold_doc.
  rewrite bm25_foldl_fold_hit, cosine_foldl_fold_hit. simpl.
  split.
  - pose proof (best_raw_nonneg _ Hb) as H. by destruct (omap bm25 _).
  - pose proof (best_raw_nonneg _ Hc) as H. by destruct (omap cosine _).
Qed.

Lemma best_raw_scores_nonneg_witness :
  match omap bm25 (hits_of "A" mixed_hits) with
  | [] => bm25 mixed_A = None
  | vs => ∃ b, bm25 mixed_A = Some b ∧ is_max_of b vs
  end
  ∧ match omap cosine (hits_of "A" mixed_hits) with
    | [] => cosine mixed_A = None
    | vs => ∃ c, cosine mixed_A = Some c ∧ is_max_of c vs
    end.
Proof.
  apply (best_raw_scores_nonneg mixed_hits default_w default_w
           default_rrf_k default_max_passages mixed_result mixed_A).
  - vm_compute. reflexivity.
  - left.
  - repeat constructor.
  - repeat constructor.
Defined.

(** ** Snippets *)

Section SnippetFacts.
Implicit Types (s sub t q : pystr).

Lemma startswith_prefix s sub :
  startswith s sub = true ↔ ∃ rest, s = sub ++ rest.
Proof.
  revert s. induction sub as [|c sub IH]; intros s.
  - split; [by exists s | by destruct s].
  - destruct s as [|d s]; simpl.
    + split; [done | by intros [rest ?]].
    + rewrite andb_true_iff, N.eqb_eq, IH. split.
      * intros [-> [rest ->]]. by exists rest.
      * intros [rest [= -> ->]]. split; [done | by exists rest].
Qed.

Lemma occurs_at_drop s sub i :
  occurs_at s sub i ↔ (i ≤ length s)%nat ∧ startswith (drop i s) sub = true.
Proof.
  rewrite startswith_prefix. split.
  - intros (pre & post & -> & <-). split.
    + rewrite length_app. lia.
    + exists post. by rewrite drop_app_length.
  - intros [Hi [rest Hrest]]. exists (take i s), rest. split.
    + by rewrite <- Hrest, take_drop.
    + rewrite length_take. lia.
Qed.

Lemma occurs_at_cons c s sub i :
  occurs_at (c :: s) sub (S i) ↔ occurs_at s sub i.
Proof. rewrite !occurs_at_drop. simpl. by rewrite <- Nat.succ_le_mono. Qed.

Lemma occurs_at_0 s sub : occurs_at s sub 0 ↔ startswith s sub = true.
Proof. rewrite occurs_at_drop. simpl. split; [by intros [_ ?] | split; [lia|done]]. Qed.

(** [find_from] returns the offset of the first occurrence, or [-1] when
    there is none. *)
Lemma find_from_spec sub s : ∀ i,
  (find_from i s sub = -1 ∧ no_occurrence s sub)
  ∨ ∃ k, find_from i s sub = i + Z.of_nat k ∧ first_occurrence s sub k.
Proof.
  induction s as [|c s IH]; intros i; cbn [find_from].
  - destruct (startswith [] sub) eqn:Hs.
    + right. exists 0%nat. split; [lia|]. split; [by apply occurs_at_0 | lia].
    + left. split; [done|]. intros j [Hj Hd]%occurs_at_drop.
      simpl in Hj. replace j with 0%nat in Hd by lia.
      rewrite drop_0 in Hd. congruence.
  - destruct (startswith (c :: s) sub) eqn:Hs.
    + right. exists 0%nat. split; [lia|]. split; [by apply occurs_at_0 | lia].
    + destruct (IH (i + 1)) as [[Hf Hno]|(k & Hf & Hk & Hfirst)].
      * left. split; [done|]. intros [|j].
        -- rewrite occurs_at_0. congruence.
        -- rewrite occurs_at_cons. apply Hno.
      * right. exists (S k). split; [lia|]. split.
        -- by apply occurs_at_cons.
        -- intros [|j] Hj.
           ++ rewrite occurs_at_0. congruence.
           ++ rewrite occurs_at_cons. apply Hfirst. lia.
Qed.

Lemma first_occurrence_unique s sub i j :
  first_occurrence s sub i → first_occurrence s sub j → i = j.
Proof.
  intros [Hi Hi'] [Hj Hj'].
  destruct (Nat.lt_trichotomy i j) as [Hlt|[->|Hlt]]; [|done|].
  - by destruct (Hj' i Hlt).
  - by destruct (Hi' j Hlt).
Qed.

Lemma find_no_occurrence s sub : no_occurrence s sub → find s sub = -1.
Proof.
  intros Hno. unfold find.
  destruct (find_from_spec sub s 0) as [[Hf _]|(k & _ & [Hk _])]; [done|].
  by destruct (Hno k).
Qed.

Lemma find_first_occurrence s sub i :
  first_occurrence s sub i → find s sub = Z.of_nat i.
Proof.
  intros Hi. unfold find.
  destruct (find_from_spec sub s 0) as [[_ Hno]|(k & Hf & Hk)].
  - destruct Hi as [Hi _]. by destruct (Hno i).
  - rewrite Hf, (first_occurrence_unique _ _ _ _ Hi Hk). lia.
Qed.

(** A slice between two offsets inside the text is the substring. *)
Lemma slice_substring (a b : Z) s :
  0 ≤ a → 0 ≤ b ≤ len s →
  slice a b s = substring (Z.to_nat a) (Z.to_nat b) s.
Proof.
  intros Ha Hb. unfold slice, substring, clamp_index, len in *.
  destruct (Z.ltb_spec a 0); [lia|]. destruct (Z.ltb_spec b 0); [lia|].
  destruct (Z.le_gt_cases a (Z.of_nat (length s))) as [Hle|Hgt].
  - rewrite (Z.min_r _ a), (Z.min_r _ b) by lia. f_equal. lia.
  - rewrite (Z.min_l _ a), (Z.min_r _ b) by lia.
    rewrite !drop_ge by lia. by rewrite !take_nil.
Qed.
End SnippetFacts.

(** [make_snippet], case by case, with the offsets the code works with:
    it returns the empty string for an empty text; when the trimmed query
    is empty, or its lowercased form occurs nowhere in the lowercased text,
    it returns the first [window] characters of the text, followed by the
    ellipsis exactly when the text is longer than [window]; when the first
    occurrence in the lowercased text is at offset [idx] of the lowercased
    text, it returns the substring of the text from
    [max(0, idx - window/2)] to [min(len(text), idx + window/2)], with the
    ellipsis in front iff the start is above 0 and at the end iff the end
    is below the length of the text. The window is not negative; [lower]
    is any case mapping. *)
Theorem make_snippet_cases
    (lower : pystr → pystr) (text query : pystr) (window : Z) :
  0 ≤ window →
  make_snippet lower [] query window = []
  ∧ (text ≠ [] →
     strip query = [] ∨ no_occurrence (lower text) (lower (strip query)) →
     make_snippet lower text query window
     = take (Z.to_nat window) text
       ++ (if decide (window < len text) then ellipsis else []))
  ∧ (∀ idx,
       text ≠ [] → strip query ≠ [] →
       first_occurrence (lower text) (lower (strip query)) idx →
       make_snippet lower text query window
       = (if decide (0 < snippet_start idx window) then ellipsis else [])
         ++ substring (Z.to_nat (snippet_start idx window))
              (Z.to_nat (snippet_end text idx window)) text
         ++ (if decide (snippet_end text idx window < len text)
             then ellipsis else []))
  ∧ make_snippet lower (str "hello world") (str "") 4 = str "hell...".
Proof.
  intros Hw. split_and!.
  - done.
  - intros Ht Hq. unfold make_snippet. destruct text as [|c t]; [done|].
    assert (head_snippet (c :: t) window
            = take (Z.to_nat window) (c :: t)
              ++ (if decide (window < len (c :: t)) then ellipsis else []))
      as Hhead.
    { unfold head_snippet. rewrite slice_to_nonneg by done. f_equal.
      destruct (Z.ltb_spec window (len (c :: t))); case_decide; done || lia. }
    destruct (strip query) as [|c' q'] eqn:Hs; [done|].
    destruct Hq as [?|Hno]; [done|].
    by rewrite (find_no_occurrence _ _ Hno).
  - intros idx Ht Hq Hidx. unfold make_snippet.
    destruct text as [|c t]; [done|].
    destruct (strip query) as [|c' q'] eqn:Hs; [done|].
    rewrite (find_first_occurrence _ _ _ Hidx).
    destruct (Z.eqb_spec (Z.of_nat idx) (-1)); [lia|].
    fold (snippet_start idx window). fold (snippet_end (c :: t) idx window).
    assert (0 ≤ window / 2) by (apply Z.div_pos; lia).
    assert (0 ≤ snippet_start idx window) by (unfold snippet_start; lia).
    assert (0 ≤ snippet_end (c :: t) idx window ≤ len (c :: t))
      by (unfold snippet_end, len; lia).
    rewrite slice_substring by done.
    f_equal; [|f_equal].
    + destruct (Z.ltb_spec 0 (snippet_start idx window)); case_decide; done || lia.
    + destruct (Z.ltb_spec (snippet_end (c :: t) idx window) (len (c :: t)));
        case_decide; done || lia.
  - reflexivity.
Qed.

Lemma make_snippet_cases_witness :
  make_snippet lower_ascii [] (str "quick") 10 = []
  ∧ (str "the quick brown fox" ≠ [] →
     strip (str "quick") = []
     ∨ no_occurrence (lower_ascii (str "the quick brown fox"))
         (lower_ascii (strip (str "quick"))) →
     make_snippet lower_ascii (str "the quick brown fox") (str "quick") 10
     = take (Z.to_nat 10) (str "the quick brown fox")
       ++ (if decide (10 < len (str "the quick brown fox")) then ellipsis else []))
  ∧ (∀ idx,
       str "the quick brown fox" ≠ [] → strip (str "quick") ≠ [] →
       first_occurrence (lower_ascii (str "the quick brown fox"))
         (lower_ascii (strip (str "quick"))) idx →
       make_snippet lower_ascii (str "the quick brown fox") (str "quick") 10
       = (if decide (0 < snippet_start idx 10) then ellipsis else [])
         ++ substring (Z.to_nat (snippet_start idx 10))
              (Z.to_nat (snippet_end (str "the quick brown fox") idx 10))
              (str "the quick brown fox")
         ++ (if decide (snippet_end (str "the quick brown fox") idx 10
                        < len (str "the quick brown fox"))
             then ellipsis else []))
  ∧ make_snippet lower_ascii (str "hello world") (str "") 4 = str "hell...".
Proof.
  apply (make_snippet_cases lower_ascii (str "the quick brown fox")
           (str "quick") 10).
  lia.
Defined.

(** The second example of the specification: the excerpt around "quick"
    starts at the start of the text, so it has the ellipsis only at its
    end. *)
Example make_snippet_quick :
  first_occurrence (lower_ascii (str "the quick brown fox"))
    (lower_ascii (strip (str "quick"))) 4
  ∧ make_snippet lower_ascii (str "the quick brown fox") (str "quick") 10
    = str "the quick...".
Proof.
  split; [|reflexivity]. split.
  - exists (str "the "), (str " brown fox"). by split.
  - intros j Hj [Hle Hs]%occurs_at_drop.
    do 4 (destruct j as [|j]; [vm_compute in Hs; congruence|]). lia.
Qed.

(** C7, a defect of the code: [make_snippet] searches the lowercased
    text and uses the offset found there on the text itself. Lowercasing
    can lengthen a text (the capital I with a dot above becomes two code
    points), and then the excerpt is not taken where the query occurs. In
    ten dotted capital I followed by "quick" and ten "x", the query occurs
    at offset 10 and nowhere before, so with the window 4 the excerpt
    should be the characters 8 to 12 of the text between two ellipses; the
    code finds the offset 20 and returns four of the "x". *)
Theorem make_snippet_misplaced_when_lower_lengthens :
  matches_at lower_dotted dotted_text (str "quick") 10
  ∧ (∀ j, (j < 10)%nat → ¬ matches_at lower_dotted dotted_text (str "quick") j)
  ∧ find (lower_dotted dotted_text) (lower_dotted (strip (str "quick"))) = 20
  ∧ make_snippet lower_dotted dotted_text (str "quick") 4 = str "...xxxx..."
  ∧ ellipsis
    ++ substring (Z.to_nat (snippet_start 10 4))
         (Z.to_nat (snippet_end dotted_text 10 4)) dotted_text
    ++ ellipsis
    = str "..." ++ [304; 304]%N ++ str "qu...".
Proof.
  split_and!.
  - split; [vm_compute; lia | reflexivity].
  - intros j Hj [_ Hm].
    do 10 (destruct j as [|j]; [vm_compute in Hm; congruence|]). lia.
  - reflexivity.
  - reflexivity.
  - reflexivity.
Qed.

(** ** The search endpoint *)

Section SearchFacts.
Context (sv : Services).
Implicit Types (query : pystr) (page page_size : Z) (log : list Call).

(** What [search] does once both retrievals have answered. *)
Local Abbreviation finish query page page_size text_search_hits vector_search_hits :=
  (mbind (lift (aggregate_default (text_search_hits ++ vector_search_hits)))
     (fun documents =>
        mbind (mapM_st (enrich sv)
                 (slice (((if page <? 1 then 1 else page) - 1)
                         * (if page_size <? 1 then 10 else page_size))
                    (((if page <? 1 then 1 else page) - 1)
                     * (if page_size <? 1 then 10 else page_size)
                     + (if page_size <? 1 then 10 else page_size))
                    documents))
          (fun results =>
             ret {| r_query := query;
                    r_page := if page <? 1 then 1 else page;
                    r_page_size := if page_size <? 1 then 10 else page_size;
                    r_total_results := len documents;
                    r_total_pages :=
                      (len documents
                       + (if page_size <? 1 then 10 else page_size) - 1)
                      / (if page_size <? 1 then 10 else page_size);
                    r_results := results |}))).

Lemma text_search_run query k log :
  text_search sv query k log
  = (log ++ [CallSearchText query k],
     match chunks_search_text sv query k with
     | Ok results => Ok (text_hit sv query <$> results)
     | Raise e => Raise e
     end).
Proof.
  unfold text_search, mbind, call, ret.
  by destruct (chunks_search_text sv query k).
Qed.

Lemma vector_search_run query k log :
  vector_search sv query k log
  = match embeddings_create sv (embedded_query query) with
    | Raise e => (log ++ [CallEmbeddings (embedded_query query)], Raise e)
    | Ok embedding =>
        (log ++ [CallEmbeddings (embedded_query query);
                 CallSearchVector embedding k k],
         match chunks_search_vector sv embedding k with
         | Ok results => Ok (vector_hit sv (embedded_query query) <$> results)
         | Raise e => Raise e
         end)
    end.
Proof.
  unfold vector_search, mbind, call, ret. fold (embedded_query query).
  destruct (embeddings_create sv (embedded_query query)) as [emb|e]; [|done].
  rewrite <- app_assoc.
  by destruct (chunks_search_vector sv emb k).
Qed.

(** The retrieval of [search], call by call. *)
Lemma search_run query page page_size log :
  search sv query page page_size log
  = let k := recall_of page page_size in
    match chunks_search_text sv query k with
    | Raise e => (log ++ [CallSearchText query k], Raise e)
    | Ok items =>
        match embeddings_create sv (embedded_query query) with
        | Raise e =>
            (log ++ [CallSearchText query k;
                     CallEmbeddings (embedded_query query)], Raise e)
        | Ok embedding =>
            match chunks_search_vector sv embedding k with
            | Raise e =>
                (log ++ [CallSearchText query k;
                         CallEmbeddings (embedded_query query);
                         CallSearchVector embedding k k], Raise e)
            | Ok items' =>
                finish query page page_size (text_hit sv query <$> items)
                  (vector_hit sv (embedded_query query) <$> items')
                  (log ++ [CallSearchText query k;
                           CallEmbeddings (embedded_query query);
                           CallSearchVector embedding k k])
            end
        end
    end.
Proof.
  unfold search. fold (recall_of page page_size).
  unfold mbind at 1. rewrite text_search_run. simpl.
  destruct (chunks_search_text sv query _) as [items|e]; [|done].
  unfold mbind at 1. rewrite vector_search_run.
  destruct (embeddings_create sv _) as [emb|e];
    [|by rewrite <- app_assoc].
  rewrite <- app_assoc. simpl.
  by destruct (chunks_search_vector sv emb _) as [items'|e].
Qed.

(** The log only grows. *)
Lemma appends_ret {A} (a : A) : appends (ret a).
Proof. intros log. exists []. by rewrite app_nil_r. Qed.

Lemma appends_lift {A} (r : result A) : appends (lift r).
Proof. intros log. exists []. by rewrite app_nil_r. Qed.

Lemma appends_call {A} (c : Call) (r : result A) : appends (call c r).
Proof. intros log. by exists [c]. Qed.

Lemma appends_mbind {A B} (c : M (list Call) A) (k : A → M (list Call) B) :
  appends c → (∀ a, appends (k a)) → appends (mbind c k).
Proof.
  intros Hc Hk log. unfold mbind. destruct (Hc log) as [calls Hcalls].
  destruct (c log) as [log' [a|e]]; simpl in *; subst log'.
  - destruct (Hk a (log ++ calls)) as [calls' ->].
    exists (calls ++ calls'). by rewrite app_assoc.
  - by exists calls.
Qed.

Lemma appends_mapM_st {A B} (f : A → M (list Call) B) (l : list A) :
  (∀ a, appends (f a)) → appends (mapM_st f l).
Proof.
  intros Hf. induction l as [|x l IH]; simpl; [apply appends_ret|].
  apply appends_mbind; [done|]. intros y.
  apply appends_mbind; [done|]. intros ys. apply appends_ret.
Qed.

Lemma appends_enrich doc : appends (enrich sv doc).
Proof.
  unfold enrich. apply appends_mbind; [apply appends_call|]. intros m.
  apply appends_mbind; [apply appends_lift|]. intros lm. apply appends_ret.
Qed.

Lemma appends_finish query page page_size ths vhs :
  appends (finish query page page_size ths vhs).
Proof.
  apply appends_mbind; [apply appends_lift|]. intros documents.
  apply appends_mbind; [|intros; apply appends_ret].
  apply appends_mapM_st, appends_enrich.
Qed.
End SearchFacts.

(** C8, as stated, fails: when the text search raises and the vector
    search would return a hit, [search] returns no response; it raises the
    error of the text search, having made no other call. *)
Lemma search_fails_with_lexical_down :
  chunks_search_text lexical_down (str "hello") 50
    = Raise (HttpResponseError "unavailable")
  ∧ embeddings_create lexical_down (str "hello") = Ok [1%float]
  ∧ chunks_search_vector lexical_down [1%float] 50 = Ok [hello_item]
  ∧ search lexical_down (str "hello") 1 10 []
    = ([CallSearchText (str "hello") 50],
       Raise (HttpResponseError "unavailable")).
Proof. repeat split; reflexivity. Qed.

(** C8 (amended): [search] has no fallback between the modalities. When
    the text search raises, [search] raises that error and calls nothing
    else; when the text search answers and the embedding or the vector
    search raises, [search] raises that error. A response is returned only
    when both modalities answer. *)
Theorem search_raises_when_a_modality_raises
    (sv : Services) (query : pystr) (page page_size : Z) (log : list Call) :
  (∀ e, chunks_search_text sv query (recall_of page page_size) = Raise e →
        search sv query page page_size log
        = (log ++ [CallSearchText query (recall_of page page_size)], Raise e))
  ∧ (∀ items e,
       chunks_search_text sv query (recall_of page page_size) = Ok items →
       embeddings_create sv (embedded_query query) = Raise e
       ∨ (∃ embedding,
            embeddings_create sv (embedded_query query) = Ok embedding
            ∧ chunks_search_vector sv embedding (recall_of page page_size)
              = Raise e) →
       (search sv query page page_size log).2 = Raise e)
  ∧ (∀ response,
       (search sv query page page_size log).2 = Ok response →
       ∃ items embedding items',
         chunks_search_text sv query (recall_of page page_size) = Ok items
         ∧ embeddings_create sv (embedded_query query) = Ok embedding
         ∧ chunks_search_vector sv embedding (recall_of page page_size)
           = Ok items').
Proof.
  rewrite search_run. cbv zeta. split_and!.
  - by intros e ->.
  - intros items e -> [->|(emb & -> & ->)]; done.
  - intros response.
    destruct (chunks_search_text sv query _) as [items|e]; [|done].
    destruct (embeddings_create sv _) as [emb|e]; [|done].
    destruct (chunks_search_vector sv emb _) as [items'|e] eqn:Hv; [|done].
    intros _. by exists items, emb, items'.
Qed.

(** C9, as stated, fails: [search] does not check the query. For the empty
    query it calls the text search, the embedding service and the vector
    search, and returns a response. *)
Lemma search_accepts_empty_query :
  search all_up [] 1 10 []
  = ([ CallSearchText [] 50; CallEmbeddings []; CallSearchVector [1%float] 50 50;
       CallGetDocument "D" ],
     Ok {| r_query := []; r_page := 1; r_page_size := 10;
           r_total_results := 1; r_total_pages := 1;
           r_results := [hello_hit] |}).
Proof. vm_compute. reflexivity. Qed.

(** For the empty query, whatever the services answer, the first action
    of [search] is the text search with the empty string and the recall
    budget; when the text search answers, the embedding service is called
    next. *)
Lemma search_first_calls_on_empty_query
    (sv : Services) (page page_size : Z) (log : list Call) :
  ∃ calls,
    (search sv [] page page_size log).1
    = log ++ CallSearchText [] (recall_of page page_size) :: calls
    ∧ (∀ items,
         chunks_search_text sv [] (recall_of page page_size) = Ok items →
         ∃ calls', calls = CallEmbeddings [] :: calls').
Proof.
  rewrite search_run. cbv zeta. change (embedded_query []) with (@nil codepoint).
  destruct (chunks_search_text sv [] _) as [items|e]; [|by exists []].
  destruct (embeddings_create sv []) as [emb|e];
    [|exists [CallEmbeddings []]; split; [done | by eexists]].
  destruct (chunks_search_vector sv emb _) as [items'|e];
    [|eexists; split; [done | by eexists]].
  match goal with
  | |- context [mbind ?c ?k ?l] =>
      destruct (appends_finish sv [] page page_size
                  (text_hit sv [] <$> items) (vector_hit sv [] <$> items') l)
        as [calls Hcalls]
  end.
  exists ([CallEmbeddings []; CallSearchVector emb (recall_of page page_size)
             (recall_of page page_size)] ++ calls).
  split; [|by eexists].
  rewrite Hcalls. by rewrite <- app_assoc.
Qed.

(** ** Rules for triples *)

Section Triples.
Context {S : Type}.
Implicit Types (P : S → Prop) (R : exn → S → Prop).

Lemma triple_ret {A} P (Q : A → S → Prop) R (a : A) :
  (∀ s, P s → Q a s) → triple P (ret a) Q R.
Proof. intros H s Hs. by apply H. Qed.

Lemma triple_lift {A} P (Q : A → S → Prop) R (r : result A) :
  (∀ s a, P s → r = Ok a → Q a s) → (∀ s e, P s → r = Raise e → R e s) →
  triple P (lift r) Q R.
Proof. intros HQ HR s Hs. unfold lift. destruct r; [by apply HQ | by apply HR]. Qed.

Lemma triple_gets {A} P (Q : A → S → Prop) R (f : S → A) :
  (∀ s, P s → Q (f s) s) → triple P (gets f) Q R.
Proof. intros H s Hs. by apply H. Qed.

Lemma triple_modify P (Q : unit → S → Prop) R (f : S → S) :
  (∀ s, P s → Q tt (f s)) → triple P (modify f) Q R.
Proof. intros H s Hs. by apply H. Qed.

Lemma triple_bind {A B} P (Q' : A → S → Prop) (Q : B → S → Prop) R
    (c : M S A) (k : A → M S B) :
  triple P c Q' R → (∀ a, triple (Q' a) (k a) Q R) → triple P (mbind c k) Q R.
Proof.
  intros Hc Hk s Hs. unfold mbind. specialize (Hc s Hs).
  destruct (c s) as [s' [a|e]]; [by apply Hk | done].
Qed.

Lemma triple_conseq {A} P P' (Q Q' : A → S → Prop) R R' (c : M S A) :
  triple P' c Q' R' →
  (∀ s, P s → P' s) → (∀ a s, Q' a s → Q a s) → (∀ e s, R' e s → R e s) →
  triple P c Q R.
Proof.
  intros Hc HP HQ HR s Hs. specialize (Hc s (HP s Hs)).
  destruct (c s) as [s' [a|e]]; [by apply HQ | by apply HR].
Qed.

(** A loop with an invariant on the accumulator and the state. *)
Lemma triple_foldM {A B} (I : B → S → Prop) R (f : B → A → M S B)
    (l : list A) :
  (∀ acc x, x ∈ l → triple (I acc) (f acc x) I R) →
  ∀ acc, triple (I acc) (foldM_st f acc l) I R.
Proof.
  induction l as [|x l IH]; intros Hf acc; simpl.
  - by apply triple_ret.
  - eapply triple_bind; [apply Hf; left|].
    intros acc'. apply IH. intros acc'' y Hy. apply Hf. by right.
Qed.

(** A loop with an invariant on the state alone. *)
Lemma triple_mapM {A B} (I : S → Prop) R (f : A → M S B) (l : list A) :
  (∀ x, x ∈ l → triple I (f x) (fun _ => I) R) →
  triple I (mapM_st f l) (fun _ => I) R.
Proof.
  induction l as [|x l IH]; intros Hf; simpl.
  - by apply triple_ret.
  - eapply triple_bind; [apply Hf; left|]. intros y.
    eapply triple_bind; [apply IH; intros z Hz; apply Hf; by right|].
    intros ys. by apply triple_ret.
Qed.
End Triples.

(** ** The store of [aggregate_search_hits] *)

Section Frame.
Context (σ0 : heap).
Implicit Types (σ : heap) (m l : loc) (merged : ODict.t loc) (o : HitObj).

Lemma extends_refl : extends σ0 σ0.
Proof. by split. Qed.

Lemma values_set {V} (k : string) (v : V) (d : ODict.t V) x :
  x ∈ ODict.values (ODict.set k v d) → x = v ∨ x ∈ ODict.values d.
Proof.
  unfold ODict.values. induction d as [|[k' v'] d IH]; csimpl.
  - intros ->%list_elem_of_singleton. by left.
  - destruct (String.eqb k k'); csimpl; rewrite !elem_of_cons; naive_solver.
Qed.

Lemma get_values {V} (k : string) (v : V) (d : ODict.t V) :
  ODict.get k d = Some v → v ∈ ODict.values d.
Proof.
  intros Hin%ODictFacts.get_Some_elem. unfold ODict.values.
  apply list_elem_of_fmap. by exists (k, v).
Qed.

Lemma created_hit_at σ m :
  created σ0 σ m →
  hit_objs σ0 !! m = None
  ∧ hit_objs σ !! m = Some (hit_at σ m)
  ∧ list_objs σ0 !! o_passages (hit_at σ m) = None
  ∧ o_meta (hit_at σ m) = None.
Proof. intros (H0 & o & Ho & Hl & Hm). unfold hit_at. by rewrite Ho. Qed.

Lemma created_same_hits σ σ' m :
  hit_objs σ' = hit_objs σ → created σ0 σ m → created σ0 σ' m.
Proof. intros Heq (H0 & o & Ho & Hl & Hm). split; [done|]. exists o. by rewrite Heq. Qed.

(** Writing an object that [σ0] does not hold. *)
Lemma only_created_write_hit merged m o :
  hit_objs σ0 !! m = None → list_objs σ0 !! o_passages o = None →
  o_meta o = None →
  triple (only_created σ0 merged) (write_hit m o)
    (fun _ => only_created σ0 merged) (fun _ => extends σ0).
Proof.
  intros Hm Hl Hmeta. apply triple_modify. intros σ [[Hh Hls] Hall].
  split; [split; simpl; [by apply insert_subseteq_r | done]|].
  eapply Forall_impl; [done|]. intros m' (H0 & o' & Ho' & Hl' & Hm'). simpl.
  split; [done|]. destruct (decide (m = m')) as [->|Hne].
  - exists o. simpl. by rewrite lookup_insert_eq.
  - exists o'. simpl. by rewrite lookup_insert_ne.
Qed.

Lemma only_created_write_list merged l v :
  list_objs σ0 !! l = None →
  triple (only_created σ0 merged) (write_list l v)
    (fun _ => only_created σ0 merged) (fun _ => extends σ0).
Proof.
  intros Hl. apply triple_modify. intros σ [[Hh Hls] Hall].
  split; [split; simpl; [done | by apply insert_subseteq_r]|].
  eapply Forall_impl; [done|]. intros m'. by apply created_same_hits.
Qed.

Lemma only_created_alloc_list merged v :
  triple (only_created σ0 merged) (alloc_list v)
    (fun l σ => only_created σ0 merged σ ∧ list_objs σ0 !! l = None)
    (fun _ => extends σ0).
Proof.
  intros σ [[Hh Hls] Hall]. simpl.
  assert (list_objs σ !! fresh (dom (list_objs σ)) = None) as Hfresh
    by (apply not_elem_of_dom, is_fresh).
  assert (list_objs σ0 !! fresh (dom (list_objs σ)) = None) as Hfresh0.
  { destruct (list_objs σ0 !! fresh (dom (list_objs σ))) eqn:H0; [|done].
    eapply lookup_weaken in H0; [|done]. congruence. }
  split; [|done].
  split; [split; simpl; [done | by apply insert_subseteq_r]|].
  eapply Forall_impl; [done|]. intros m'. by apply created_same_hits.
Qed.

Lemma only_created_alloc_hit merged o :
  list_objs σ0 !! o_passages o = None → o_meta o = None →
  triple (only_created σ0 merged) (alloc_hit o)
    (fun m σ => only_created σ0 merged σ ∧ created σ0 σ m)
    (fun _ => extends σ0).
Proof.
  intros Hl Hmeta σ [[Hh Hls] Hall]. simpl.
  assert (hit_objs σ !! fresh (dom (hit_objs σ)) = None) as Hfresh
    by (apply not_elem_of_dom, is_fresh).
  assert (hit_objs σ0 !! fresh (dom (hit_objs σ)) = None) as Hfresh0.
  { destruct (hit_objs σ0 !! fresh (dom (hit_objs σ))) eqn:H0; [|done].
    eapply lookup_weaken in H0; [|done]. congruence. }
  split; [split|].
  - split; simpl; [by apply insert_subseteq_r | done].
  - eapply Forall_impl; [done|]. intros m' (H0 & o' & Ho' & Hl' & Hm'). simpl.
    split; [done|]. exists o'. simpl. rewrite lookup_insert_ne; [done|].
    intros <-. congruence.
  - split; [done|]. exists o. simpl. by rewrite lookup_insert_eq.
Qed.

Lemma only_created_read_hit merged m :
  triple (only_created σ0 merged) (read_hit m)
    (fun o σ => only_created σ0 merged σ ∧ o = hit_at σ m) (fun _ => extends σ0).
Proof. by apply triple_gets. Qed.

Lemma only_created_read_list merged l :
  triple (only_created σ0 merged) (read_list l)
    (fun _ σ => only_created σ0 merged σ) (fun _ => extends σ0).
Proof. by apply triple_gets. Qed.

Lemma only_created_extends merged σ : only_created σ0 merged σ → extends σ0 σ.
Proof. by intros [? _]. Qed.

Lemma only_created_elem merged σ m :
  only_created σ0 merged σ → m ∈ ODict.values merged → created σ0 σ m.
Proof. intros [_ Hall] Hm. revert m Hm. by apply Forall_forall. Qed.
End Frame.

Section FrameLoops.
Context (σ0 : heap).
Implicit Types (σ : heap) (m l h : loc) (merged : ODict.t loc) (o : HitObj).
Local Open Scope monad_scope.

Lemma triple_pure {A} (φ : Prop) (P : heap → Prop) (c : M heap A)
    (Q : A → heap → Prop) (R : exn → heap → Prop) :
  (φ → triple P c Q R) → triple (fun σ => P σ ∧ φ) c Q R.
Proof. intros H σ [HP Hφ]. by apply H. Qed.

(** [m.field = ...] on a merged hit, keeping or renewing its list. *)
Lemma only_created_update merged m (f : HitObj → HitObj) :
  m ∈ ODict.values merged →
  (∀ o, list_objs σ0 !! o_passages o = None → o_meta o = None →
        list_objs σ0 !! o_passages (f o) = None ∧ o_meta (f o) = None) →
  triple (only_created σ0 merged) (om <~ read_hit m ;; write_hit m (f om))
    (fun _ => only_created σ0 merged) (fun _ => extends σ0).
Proof.
  intros Hm Hf σ Hoc.
  destruct (created_hit_at σ0 σ m (only_created_elem σ0 _ _ _ Hoc Hm))
    as (H0 & _ & Hl & Hmeta).
  destruct (Hf _ Hl Hmeta) as [Hl' Hmeta'].
  apply (only_created_write_hit σ0 merged m (f (hit_at σ m)) H0 Hl' Hmeta' σ Hoc).
Qed.

(** [m.passages.extend(hps)] on a merged hit. *)
Lemma only_created_extend merged m (hps : list Passage) :
  m ∈ ODict.values merged →
  triple (only_created σ0 merged)
    (om <~ read_hit m ;;
     mps <~ read_list (o_passages om) ;;
     write_list (o_passages om) (mps ++ hps))
    (fun _ => only_created σ0 merged) (fun _ => extends σ0).
Proof.
  intros Hm σ Hoc.
  destruct (created_hit_at σ0 σ m (only_created_elem σ0 _ _ _ Hoc Hm))
    as (H0 & _ & Hl & Hmeta).
  apply (only_created_write_list σ0 merged (o_passages (hit_at σ m))
           (list_at σ (o_passages (hit_at σ m)) ++ hps) Hl σ Hoc).
Qed.

Lemma only_created_ensure merged doc_id :
  triple (only_created σ0 merged) (h_ensure doc_id merged)
    (fun r σ => only_created σ0 r.1 σ ∧ r.2 ∈ ODict.values r.1)
    (fun _ => extends σ0).
Proof.
  unfold h_ensure. destruct (ODict.get doc_id merged) as [m|] eqn:Hg.
  - apply triple_ret. intros σ Hoc. split; [done|]. by eapply get_values.
  - eapply triple_bind; [apply only_created_alloc_list|]. intros ps.
    apply triple_pure. intros Hps.
    eapply triple_bind; [by apply only_created_alloc_hit|]. intros m.
    apply triple_ret. intros σ [[Hext Hall] Hm]. simpl. split.
    + split; [done|]. apply Forall_forall.
      intros x [->|Hx]%values_set; [done|].
      revert x Hx. by apply Forall_forall.
    + eapply get_values. apply ODictFacts.get_set_eq.
Qed.

Lemma only_created_merge_step merged h :
  triple (only_created σ0 merged) (h_merge_step merged h)
    (only_created σ0) (fun _ => extends σ0).
Proof.
  unfold h_merge_step.
  eapply triple_bind; [apply only_created_read_hit|]. intros oh.
  eapply triple_conseq with (P' := only_created σ0 merged)
    (Q' := only_created σ0) (R' := fun _ => extends σ0); [|by intros ? [? _]|done..].
  eapply triple_bind; [apply only_created_ensure|]. intros [merged' m].
  apply triple_pure. simpl. intros Hm.
  eapply triple_bind with (Q' := fun _ => only_created σ0 merged').
  { destruct (o_bm25 oh) as [b|]; [|by apply triple_ret].
    by apply (only_created_update merged' m
                (fun om => {| o_id := o_id om;
                              o_bm25 := Some (PyFloat.max (PyFloat.or_neg_inf (o_bm25 om)) b);
                              o_cosine := o_cosine om; o_score := o_score om;
                              o_meta := o_meta om;
                              o_passages := o_passages om |})). }
  intros _.
  eapply triple_bind with (Q' := fun _ => only_created σ0 merged').
  { destruct (o_cosine oh) as [c|]; [|by apply triple_ret].
    by apply (only_created_update merged' m
                (fun om => {| o_id := o_id om; o_bm25 := o_bm25 om;
                              o_cosine := Some (PyFloat.max (PyFloat.or_neg_inf (o_cosine om)) c);
                              o_score := o_score om;
                              o_meta := o_meta om;
                              o_passages := o_passages om |})). }
  intros _.
  eapply triple_bind; [apply only_created_read_list|]. intros hps.
  eapply triple_bind with (Q' := fun _ => only_created σ0 merged').
  { destruct hps as [|p hps]; [by apply triple_ret|].
    by apply only_created_extend. }
  intros _. by apply triple_ret.
Qed.

Lemma only_created_read_created merged m :
  m ∈ ODict.values merged →
  triple (only_created σ0 merged) (read_hit m)
    (fun om σ => only_created σ0 merged σ
                 ∧ (hit_objs σ0 !! m = None
                    ∧ list_objs σ0 !! o_passages om = None
                    ∧ o_meta om = None))
    (fun _ => extends σ0).
Proof.
  intros Hm. apply triple_gets. intros σ Hoc. split; [done|].
  by destruct (created_hit_at σ0 σ m (only_created_elem σ0 _ _ _ Hoc Hm))
    as (H0 & _ & Hl & Hmeta).
Qed.

Lemma only_created_score_doc merged w_text w_vector rrf_k maxp trank vrank e :
  e ∈ ODict.items merged →
  triple (only_created σ0 merged)
    (h_score_doc w_text w_vector rrf_k maxp trank vrank e)
    (fun _ => only_created σ0 merged) (fun _ => extends σ0).
Proof.
  destruct e as [doc_id m]. intros He.
  assert (m ∈ ODict.values merged) as Hm.
  { unfold ODict.values. apply list_elem_of_fmap. by exists (doc_id, m). }
  unfold h_score_doc.
  eapply triple_bind with (Q' := fun _ => only_created σ0 merged).
  { apply triple_lift; [done | by intros σ e [? _]]. }
  intros s.
  eapply triple_bind; [by apply only_created_read_created|]. intros om.
  apply triple_pure. intros (H0 & Hl & Hmeta).
  eapply triple_bind; [by apply only_created_write_hit|]. intros [].
  eapply triple_bind; [by apply only_created_read_created|]. intros om'.
  apply triple_pure. intros (_ & Hl' & Hmeta').
  eapply triple_bind; [apply only_created_read_list|]. intros ps.
  eapply triple_bind; [apply only_created_alloc_list|]. intros top.
  apply triple_pure. intros Htop.
  by apply only_created_write_hit.
Qed.

Lemma only_created_aggregate hits w_text w_vector rrf_k maxp :
  triple (fun σ => σ = σ0)
    (h_aggregate_search_hits hits w_text w_vector rrf_k maxp)
    (fun out σ => extends σ0 σ ∧ Forall (created σ0 σ) out)
    (fun _ => extends σ0).
Proof.
  unfold h_aggregate_search_hits.
  eapply triple_bind with (Q' := fun _ => only_created σ0 []).
  { apply triple_gets. intros σ Hσ. rewrite Hσ.
    split; [apply extends_refl | constructor]. }
  intros hits_list.
  eapply triple_bind.
  { apply (triple_foldM (only_created σ0)). intros acc h _.
    apply only_created_merge_step. }
  intros merged.
  eapply triple_bind.
  { apply (triple_mapM (only_created σ0 merged)). intros e He.
    by apply only_created_score_doc. }
  intros ys. apply triple_gets. intros σ [Hext Hall]. split; [done|].
  by rewrite sorted_desc_perm.
Qed.
End FrameLoops.

(** C10: [aggregate_search_hits] writes no object it was given. Whether it
    returns or raises, every hit object and every list object of the store
    it starts from is still there, unchanged, so every input hit has the
    same [id], [bm25], [cosine], [score], [meta] and [passages]; every hit
    it returns is an object that did not exist before the call, with no
    metadata and with a list of passages that did not exist before. *)
Theorem aggregate_leaves_input_unchanged
    (hits : list loc) (w_text w_vector : float)
    (rrf_k max_passages_per_doc : Z) (σ σ' : heap) (r : result (list loc)) :
  h_aggregate_search_hits hits w_text w_vector rrf_k max_passages_per_doc σ
    = (σ', r) →
  hit_objs σ ⊆ hit_objs σ'
  ∧ list_objs σ ⊆ list_objs σ'
  ∧ (∀ h, is_Some (hit_objs σ !! h) →
          is_Some (list_objs σ !! o_passages (hit_at σ h)) →
          view σ' h = view σ h)
  ∧ (∀ out, r = Ok out →
       ∀ m, m ∈ out →
            hit_objs σ !! m = None
            ∧ is_Some (hit_objs σ' !! m)
            ∧ meta (view σ' m) = None
            ∧ list_objs σ !! o_passages (hit_at σ' m) = None).
Proof.
  intros Hrun.
  pose proof (only_created_aggregate σ hits w_text w_vector rrf_k
                max_passages_per_doc σ eq_refl) as H.
  rewrite Hrun in H.
  assert (extends σ σ') as [Hh Hl] by (destruct r; [apply H | done]).
  split_and!; [done..| |].
  - intros h [o Ho] [ps Hps]. unfold view, list_of, hit_at, list_at in *.
    rewrite Ho in Hps. simpl in Hps.
    rewrite (lookup_weaken _ _ _ _ Ho Hh), Ho. simpl.
    by rewrite (lookup_weaken _ _ _ _ Hps Hl), Hps.
  - intros out -> m Hm. destruct H as [_ Hall].
    pose proof (proj1 (Forall_forall _ _) Hall m Hm) as Hc.
    destruct (created_hit_at σ σ' m Hc) as (H0 & Hm' & Hlist & Hmeta).
    split_and!; [done | by eexists | done | done].
Qed.

Lemma aggregate_leaves_input_unchanged_witness :
  hit_objs two_hit_store
    ⊆ hit_objs (h_aggregate_search_hits [1%positive; 2%positive] default_w
                  default_w default_rrf_k default_max_passages two_hit_store).1
  ∧ list_objs two_hit_store
    ⊆ list_objs (h_aggregate_search_hits [1%positive; 2%positive] default_w
                   default_w default_rrf_k default_max_passages two_hit_store).1
  ∧ (∀ h, is_Some (hit_objs two_hit_store !! h) →
          is_Some (list_objs two_hit_store !! o_passages (hit_at two_hit_store h)) →
          view (h_aggregate_search_hits [1%positive; 2%positive] default_w
                  default_w default_rrf_k default_max_passages two_hit_store).1 h
          = view two_hit_store h)
  ∧ (∀ out, Ok [3%positive] = Ok out →
       ∀ m, m ∈ out →
            hit_objs two_hit_store !! m = None
            ∧ is_Some (hit_objs
                         (h_aggregate_search_hits [1%positive; 2%positive]
                            default_w default_w default_rrf_k
                            default_max_passages two_hit_store).1 !! m)
            ∧ meta (view (h_aggregate_search_hits [1%positive; 2%positive]
                            default_w default_w default_rrf_k
                            default_max_passages two_hit_store).1 m) = None
            ∧ list_objs two_hit_store
              !! o_passages
                   (hit_at (h_aggregate_search_hits [1%positive; 2%positive]
                              default_w default_w default_rrf_k
                              default_max_passages two_hit_store).1 m) = None).
Proof.
  apply (aggregate_leaves_input_unchanged [1%positive; 2%positive] default_w
           default_w default_rrf_k default_max_passages two_hit_store).
  vm_compute. reflexivity.
Defined.

(** ** The store and the values *)

Section Store.
Implicit Types (σ : heap) (m l h : loc) (o : HitObj) (v : list Passage).

Lemma hit_at_set_hit m o σ m' :
  hit_at (set_hit m o σ) m' = if decide (m = m') then o else hit_at σ m'.
Proof.
  unfold hit_at, set_hit. simpl. rewrite lookup_insert.
  by destruct (decide (m = m')).
Qed.

Lemma hit_at_set_list l v σ m : hit_at (set_list l v σ) m = hit_at σ m.
Proof. done. Qed.

Lemma list_at_set_hit m o σ l : list_at (set_hit m o σ) l = list_at σ l.
Proof. done. Qed.

Lemma list_at_set_list l v σ l' :
  list_at (set_list l v σ) l' = if decide (l = l') then v else list_at σ l'.
Proof.
  unfold list_at, set_list. simpl. rewrite lookup_insert.
  by destruct (decide (l = l')).
Qed.

Lemma list_of_set_list l v σ m : list_of (set_list l v σ) m = list_of σ m.
Proof. done. Qed.

Lemma list_of_set_hit m o σ m' :
  list_of (set_hit m o σ) m' = if decide (m = m') then o_passages o else list_of σ m'.
Proof. unfold list_of. rewrite hit_at_set_hit. by destruct (decide (m = m')). Qed.

Lemma view_set_hit m o σ m' :
  view (set_hit m o σ) m'
  = if decide (m = m') then mk_view o (list_at σ (o_passages o)) else view σ m'.
Proof.
  unfold view. rewrite list_of_set_hit, hit_at_set_hit, list_at_set_hit.
  by destruct (decide (m = m')).
Qed.

Lemma view_set_list l v σ m :
  view (set_list l v σ) m
  = if decide (l = list_of σ m) then mk_view (hit_at σ m) v else view σ m.
Proof.
  unfold view. rewrite list_of_set_list, hit_at_set_list, list_at_set_list.
  by destruct (decide (l = list_of σ m)).
Qed.

Lemma extends_set_hit σ0 σ m o :
  hit_objs σ0 !! m = None → extends σ0 σ → extends σ0 (set_hit m o σ).
Proof. intros Hm [Hh Hl]. split; simpl; [by apply insert_subseteq_r | done]. Qed.

Lemma extends_set_list σ0 σ l v :
  list_objs σ0 !! l = None → extends σ0 σ → extends σ0 (set_list l v σ).
Proof. intros Hm [Hh Hl]. split; simpl; [done | by apply insert_subseteq_r]. Qed.

Lemma fresh_hit_None σ0 σ :
  extends σ0 σ →
  hit_objs σ !! fresh (dom (hit_objs σ)) = None
  ∧ hit_objs σ0 !! fresh (dom (hit_objs σ)) = None.
Proof.
  intros [Hh _].
  assert (hit_objs σ !! fresh (dom (hit_objs σ)) = None) as Hfresh
    by (apply not_elem_of_dom, is_fresh).
  split; [done|].
  destruct (hit_objs σ0 !! fresh (dom (hit_objs σ))) eqn:H0; [|done].
  eapply lookup_weaken in H0; [|done]. congruence.
Qed.

Lemma fresh_list_None σ0 σ :
  extends σ0 σ →
  list_objs σ !! fresh (dom (list_objs σ)) = None
  ∧ list_objs σ0 !! fresh (dom (list_objs σ)) = None.
Proof.
  intros [_ Hl].
  assert (list_objs σ !! fresh (dom (list_objs σ)) = None) as Hfresh
    by (apply not_elem_of_dom, is_fresh).
  split; [done|].
  destruct (list_objs σ0 !! fresh (dom (list_objs σ))) eqn:H0; [|done].
  eapply lookup_weaken in H0; [|done]. congruence.
Qed.

(** An allocated object of the initial store reads the same later on. *)
Lemma extends_allocated σ0 σ h :
  extends σ0 σ → allocated σ0 h →
  hit_at σ h = hit_at σ0 h
  ∧ list_at σ (list_of σ0 h) = list_at σ0 (list_of σ0 h)
  ∧ view σ h = view σ0 h.
Proof.
  intros [Hh Hl] [[o Ho] [ps Hps]].
  assert (hit_at σ h = hit_at σ0 h) as Hhit.
  { unfold hit_at. by rewrite (lookup_weaken _ _ _ _ Ho Hh), Ho. }
  assert (list_at σ (list_of σ0 h) = list_at σ0 (list_of σ0 h)) as Hlist.
  { unfold list_at. by rewrite (lookup_weaken _ _ _ _ Hps Hl), Hps. }
  split_and!; [done..|].
  unfold view, list_of in *. by rewrite Hhit, Hlist.
Qed.
End Store.

(** ** Dictionaries of objects and of values *)

Section Views.
Implicit Types (σ : heap) (m : loc) (k : string) (d : ODict.t loc).
Import ODictFacts.

Lemma get_views σ k d : ODict.get k (views σ d) = view σ <$> ODict.get k d.
Proof.
  unfold views. induction d as [|[k' m'] d IH]; csimpl; [done|].
  by destruct (String.eqb k k').
Qed.

Lemma views_set σ k m d :
  views σ (ODict.set k m d) = ODict.set k (view σ m) (views σ d).
Proof.
  unfold views. induction d as [|[k' m'] d IH]; csimpl; [done|].
  destruct (String.eqb k k'); csimpl; [done|]. by rewrite IH.
Qed.

Lemma values_views σ d : ODict.values (views σ d) = view σ <$> ODict.values d.
Proof.
  unfold views, ODict.values. rewrite <- !list_fmap_compose.
  by apply list_fmap_ext.
Qed.

Lemma keys_views σ d : ODict.keys (views σ d) = ODict.keys d.
Proof.
  unfold views, ODict.keys. rewrite <- !list_fmap_compose.
  by apply list_fmap_ext.
Qed.

Lemma views_same σ σ' d :
  (∀ m, m ∈ ODict.values d → view σ' m = view σ m) → views σ' d = views σ d.
Proof.
  intros H. unfold views. apply Forall_fmap_ext_1, Forall_forall.
  intros [k m] Hin. simpl. f_equal. apply H.
  unfold ODict.values. apply list_elem_of_fmap. by exists (k, m).
Qed.

(** When the value of one object changes, the dictionary of values
    changes under its key. *)
Lemma views_change σ σ' d k m :
  NoDup (ODict.values d) → ODict.get k d = Some m →
  (∀ m', m' ∈ ODict.values d → m' ≠ m → view σ' m' = view σ m') →
  views σ' d = ODict.set k (view σ' m) (views σ d).
Proof.
  unfold views, ODict.values.
  induction d as [|[k' m'] d IH]; csimpl; [done|].
  intros [Hm' Hnd]%NoDup_cons Hget Hother.
  destruct (String.eqb_spec k k') as [->|Hne].
  - injection Hget as ->. f_equal.
    apply Forall_fmap_ext_1, Forall_forall. intros [k0 m0] Hin. simpl.
    f_equal. apply Hother.
    + right. apply list_elem_of_fmap. by exists (k0, m0).
    + intros ->. apply Hm'. apply list_elem_of_fmap. by exists (k0, m).
  - f_equal.
    + f_equal. apply Hother; [left|]. intros ->. apply Hm'.
      apply get_Some_elem in Hget. apply list_elem_of_fmap. by exists (k, m).
    + apply IH; [done..|]. intros m0 Hm0 Hne0. apply Hother; [by right | done].
Qed.

Lemma values_set_None {V} k (x : V) (d : ODict.t V) :
  ODict.get k d = None → ODict.values (ODict.set k x d) = ODict.values d ++ [x].
Proof.
  unfold ODict.values. induction d as [|[k' v'] d IH]; csimpl; [done|].
  destruct (String.eqb k k'); [done|]. intros Hg. csimpl. by rewrite IH.
Qed.

Lemma set_set {V} k (x y : V) (d : ODict.t V) :
  ODict.set k x (ODict.set k y d) = ODict.set k x d.
Proof.
  induction d as [|[k' v'] d IH]; simpl.
  - by rewrite String.eqb_refl.
  - destruct (String.eqb k k') eqn:Hk; simpl; rewrite Hk; [done|]. by rewrite IH.
Qed.

Lemma alter_Some {V} (f : V → V) k (x : V) (d : ODict.t V) :
  ODict.get k d = Some x → ODict.alter f k d = ODict.set k (f x) d.
Proof. intros Hg. unfold ODict.alter. by rewrite Hg. Qed.

Lemma alter_None {V} (f : V → V) k (d : ODict.t V) :
  ODict.get k d = None → ODict.alter f k d = d.
Proof. intros Hg. unfold ODict.alter. by rewrite Hg. Qed.

Lemma alter_alter {V} (f g : V → V) k (d : ODict.t V) :
  ODict.alter f k (ODict.alter g k d) = ODict.alter (f ∘ g) k d.
Proof.
  destruct (ODict.get k d) as [x|] eqn:Hg.
  - rewrite (alter_Some g k x d Hg), (alter_Some (f ∘ g) k x d Hg).
    rewrite (alter_Some f k (g x)); [apply set_set | apply get_set_eq].
  - by rewrite (alter_None g k d Hg), !alter_None.
Qed.

Lemma set_same {V} k (x : V) (d : ODict.t V) :
  ODict.get k d = Some x → ODict.set k x d = d.
Proof.
  induction d as [|[k' v'] d IH]; simpl; [done|].
  destruct (String.eqb k k'); [by intros [= ->] | intros Hg; by rewrite IH].
Qed.

Lemma alter_id {V} (f : V → V) k (d : ODict.t V) :
  (∀ x, f x = x) → ODict.alter f k d = d.
Proof.
  intros Hf. unfold ODict.alter. destruct (ODict.get k d) as [x|] eqn:Hg; [|done].
  rewrite Hf. by apply set_same.
Qed.

Lemma alter_ext {V} (f g : V → V) k (d : ODict.t V) :
  (∀ x, f x = g x) → ODict.alter f k d = ODict.alter g k d.
Proof. intros H. unfold ODict.alter. destruct (ODict.get k d); [by rewrite H | done]. Qed.
End Views.

(** ** The invariant of the simulation *)

Section Simulation.
Context (σ0 : heap).
Implicit Types (σ : heap) (m l h : loc) (k : string) (d : ODict.t loc)
  (mv : ODict.t SearchHit) (o : HitObj).
Import ODictFacts.

Lemma NoDup_fmap_ne {A B} (f : A → B) (xs : list A) x y :
  NoDup (f <$> xs) → x ∈ xs → y ∈ xs → x ≠ y → f x ≠ f y.
Proof.
  induction xs as [|z xs IH]; csimpl; [by intros _ ?%elem_of_nil|].
  intros [Hz Hnd]%NoDup_cons [->|Hx]%elem_of_cons [->|Hy]%elem_of_cons Hne Heq.
  - done.
  - apply Hz. rewrite Heq. by apply list_elem_of_fmap_2.
  - apply Hz. rewrite <- Heq. by apply list_elem_of_fmap_2.
  - by apply (IH Hnd Hx Hy Hne).
Qed.

Lemma simulates_elem d mv σ k m :
  simulates σ0 d mv σ → ODict.get k d = Some m →
  m ∈ ODict.values d ∧ owned σ0 σ m ∧ ODict.get k mv = Some (view σ m).
Proof.
  intros (Hext & Hown & Hnd & Hndl & <-) Hget.
  assert (m ∈ ODict.values d) as Hm by (by eapply get_values).
  split_and!; [done| |by rewrite get_views, Hget].
  by apply (proj1 (Forall_forall _ _) Hown).
Qed.

(** Writing a merged object, its list kept: the value under its key
    changes by [F]. *)
Lemma simulates_update d mv σ k m (f : HitObj → HitObj)
    (F : SearchHit → SearchHit) :
  simulates σ0 d mv σ → ODict.get k d = Some m →
  (∀ o, o_passages (f o) = o_passages o) →
  (∀ o ps, mk_view (f o) ps = F (mk_view o ps)) →
  simulates σ0 d (ODict.alter F k mv) (set_hit m (f (hit_at σ m)) σ).
Proof.
  intros Hsim Hget Hf HF.
  destruct (simulates_elem _ _ _ _ _ Hsim Hget) as (Hm & (H0 & Hl0 & Ha) & Hmv).
  destruct Hsim as (Hext & Hown & Hnd & Hndl & Hviews).
  assert (∀ m', list_of (set_hit m (f (hit_at σ m)) σ) m' = list_of σ m') as Hlist.
  { intros m'. rewrite list_of_set_hit. destruct (decide (m = m')) as [<-|]; [|done].
    by rewrite Hf. }
  split_and!.
  - by apply extends_set_hit.
  - eapply Forall_impl; [done|]. intros m' (H0' & Hl0' & [Hh' Hl']).
    unfold owned, allocated. rewrite Hlist. split_and!; [done..| |done].
    simpl. rewrite lookup_insert. by destruct (decide (m = m')).
  - done.
  - erewrite list_fmap_ext; [done|]. intros i m' _. apply Hlist.
  - rewrite (alter_Some F k _ _ Hmv), <- Hviews.
    rewrite (views_change σ _ d k m Hnd Hget).
    + f_equal. rewrite view_set_hit, decide_True by done.
      by rewrite Hf, HF.
    + intros m' _ Hne. by rewrite view_set_hit, decide_False.
Qed.

(** Writing the list of a merged object. *)
Lemma simulates_write_list d mv σ k m (g : list Passage → list Passage)
    (F : SearchHit → SearchHit) :
  simulates σ0 d mv σ → ODict.get k d = Some m →
  (∀ o ps, mk_view o (g ps) = F (mk_view o ps)) →
  simulates σ0 d (ODict.alter F k mv)
    (set_list (list_of σ m) (g (list_at σ (list_of σ m))) σ).
Proof.
  intros Hsim Hget HF.
  destruct (simulates_elem _ _ _ _ _ Hsim Hget) as (Hm & (H0 & Hl0 & Ha) & Hmv).
  destruct Hsim as (Hext & Hown & Hnd & Hndl & Hviews).
  split_and!.
  - by apply extends_set_list.
  - eapply Forall_impl; [done|]. intros m' (H0' & Hl0' & [Hh' Hl']).
    unfold owned, allocated. rewrite list_of_set_list. split_and!; [done..|].
    simpl. rewrite lookup_insert. by destruct (decide _).
  - done.
  - done.
  - rewrite (alter_Some F k _ _ Hmv), <- Hviews.
    rewrite (views_change σ _ d k m Hnd Hget).
    + f_equal. rewrite view_set_list, decide_True by done. apply HF.
    + intros m' Hm' Hne. rewrite view_set_list, decide_False; [done|].
      intros Heq. by apply (NoDup_fmap_ne (list_of σ) _ m' m Hndl).
Qed.

Lemma NoDup_fmap_replace {A B} `{EqDecision A} (f : A → B) (xs : list A)
    (x : A) (y : B) :
  NoDup (f <$> xs) → y ∉ f <$> xs →
  NoDup ((fun z => if decide (x = z) then y else f z) <$> xs).
Proof.
  induction xs as [|z xs IH]; csimpl; [constructor|].
  intros [Hz Hnd]%NoDup_cons [Hyz Hy]%not_elem_of_cons.
  constructor; [|by apply IH].
  intros (z' & Heq & Hz')%list_elem_of_fmap.
  destruct (decide (x = z)) as [Hxz|Hxz], (decide (x = z')) as [Hxz'|Hxz'].
  - subst z z'. apply Hz. by apply list_elem_of_fmap_2.
  - apply Hy. subst y. by apply list_elem_of_fmap_2.
  - done.
  - apply Hz. rewrite Heq. by apply list_elem_of_fmap_2.
Qed.

(** Giving a merged object a new list. *)
Lemma simulates_renew d mv σ k m (f : loc → HitObj → HitObj)
    (g : list Passage → list Passage) (F : SearchHit → SearchHit) :
  simulates σ0 d mv σ → ODict.get k d = Some m →
  (∀ l o, o_passages (f l o) = l) →
  (∀ l o ps, mk_view (f l o) (g ps) = F (mk_view o ps)) →
  simulates σ0 d (ODict.alter F k mv)
    (set_hit m (f (fresh (dom (list_objs σ))) (hit_at σ m))
       (set_list (fresh (dom (list_objs σ))) (g (list_at σ (list_of σ m))) σ)).
Proof.
  intros Hsim Hget Hf HF.
  destruct (simulates_elem _ _ _ _ _ Hsim Hget) as (Hm & (H0 & Hl0 & Ha) & Hmv).
  destruct Hsim as (Hext & Hown & Hnd & Hndl & Hviews).
  destruct (fresh_list_None σ0 σ Hext) as [Hfresh Hfresh0].
  set (top := fresh (dom (list_objs σ))) in *.
  set (σ1 := set_list top (g (list_at σ (list_of σ m))) σ).
  assert (∀ m', m' ∈ ODict.values d → list_of σ m' ≠ top) as Hne.
  { intros m' Hm' Heq.
    destruct (proj1 (Forall_forall _ _) Hown m' Hm') as (_ & _ & _ & [ps Hps]).
    rewrite Heq in Hps. congruence. }
  assert (∀ m', list_of (set_hit m (f top (hit_at σ m)) σ1) m'
                = if decide (m = m') then top else list_of σ m') as Hlist.
  { intros m'. rewrite list_of_set_hit, Hf. by destruct (decide (m = m')). }
  split_and!.
  - by apply extends_set_hit, extends_set_list.
  - eapply Forall_impl; [done|]. intros m' (H0' & Hl0' & [Hh' Hl']).
    unfold owned, allocated. rewrite Hlist. simpl. rewrite lookup_insert.
    destruct (decide (m = m')) as [<-|Hmm'].
    + split_and!; [done..|by eexists|]. rewrite lookup_insert_eq. by eexists.
    + split_and!; [done..|]. rewrite lookup_insert. by destruct (decide _).
  - done.
  - erewrite list_fmap_ext; [|intros i m' _; apply Hlist].
    apply NoDup_fmap_replace; [done|].
    intros (m' & Heq & Hm')%list_elem_of_fmap. by apply (Hne m').
  - rewrite (alter_Some F k _ _ Hmv), <- Hviews.
    rewrite (views_change σ _ d k m Hnd Hget).
    + f_equal. rewrite view_set_hit, decide_True by done.
      rewrite Hf. unfold σ1. rewrite list_at_set_list, decide_True by done.
      apply HF.
    + intros m' Hm' Hmm'. rewrite view_set_hit, decide_False by done.
      unfold σ1. rewrite view_set_list, decide_False; [done|].
      intros Heq. by apply (Hne m').
Qed.

(** Creating the merged object of a new document. *)
Lemma simulates_new d mv σ k o :
  simulates σ0 d mv σ → ODict.get k d = None →
  o_passages o = fresh (dom (list_objs σ)) →
  simulates σ0 (ODict.set k (fresh (dom (hit_objs σ))) d)
    (ODict.set k (mk_view o []) mv)
    (set_hit (fresh (dom (hit_objs σ))) o
       (set_list (fresh (dom (list_objs σ))) [] σ)).
Proof.
  intros (Hext & Hown & Hnd & Hndl & Hviews) Hget Ho.
  destruct (fresh_list_None σ0 σ Hext) as [Hfl Hfl0].
  destruct (fresh_hit_None σ0 σ Hext) as [Hfh Hfh0].
  set (top := fresh (dom (list_objs σ))) in *.
  set (m := fresh (dom (hit_objs σ))) in *.
  set (σ1 := set_list top [] σ).
  assert (∀ m', m' ∈ ODict.values d → m ≠ m' ∧ list_of σ m' ≠ top) as Hne.
  { intros m' Hm'.
    destruct (proj1 (Forall_forall _ _) Hown m' Hm') as (_ & _ & [o' Ho'] & [ps Hps]).
    split; intros Heq.
    - subst m'. congruence.
    - rewrite Heq in Hps. congruence. }
  assert (∀ m', m' ∈ ODict.values d →
                list_of (set_hit m o σ1) m' = list_of σ m'
                ∧ view (set_hit m o σ1) m' = view σ m') as Hold.
  { intros m' Hm'. destruct (Hne m' Hm') as [Hmm' Hl'].
    rewrite list_of_set_hit, view_set_hit, !decide_False by done.
    split; [done|]. unfold σ1. by rewrite view_set_list, decide_False. }
  unfold simulates. rewrite (values_set_None _ _ _ Hget).
  split_and!.
  - by apply extends_set_hit, extends_set_list.
  - apply Forall_app. split.
    + apply Forall_forall. intros m' Hm'.
      destruct (proj1 (Forall_forall _ _) Hown m' Hm') as (H0' & Hl0' & [Hh' Hl']).
      destruct (Hold m' Hm') as [Hlist _]. destruct (Hne m' Hm') as [Hmm' Hl''].
      unfold owned, allocated. rewrite Hlist. simpl.
      rewrite !lookup_insert_ne by done. by split_and!.
    + constructor; [|constructor]. unfold owned, allocated.
      rewrite list_of_set_hit, decide_True, Ho by done. simpl.
      rewrite !lookup_insert_eq. by split_and!.
  - apply NoDup_app. split_and!; [done| |apply NoDup_singleton].
    intros m' Hm' ->%list_elem_of_singleton. by destruct (Hne m Hm').
  - rewrite fmap_app. apply NoDup_app. split_and!.
    + erewrite list_fmap_ext; [done|]. intros i m' Hi.
      apply Hold. by eapply list_elem_of_lookup_2.
    + intros l (m' & -> & Hm')%list_elem_of_fmap. csimpl.
      destruct (Hold m' Hm') as [-> _].
      rewrite list_of_set_hit, decide_True, Ho by done.
      intros Heq%list_elem_of_singleton.
      by destruct (Hne m' Hm').
    + apply NoDup_singleton.
  - rewrite views_set, <- Hviews. f_equal.
    + rewrite view_set_hit, decide_True by done. f_equal.
      rewrite Ho. unfold σ1. by rewrite list_at_set_list, decide_True.
    + apply views_same. intros m' Hm'. by apply Hold.
Qed.
End Simulation.

(** ** The loops on the store and on values *)

Section SimLoops.
Context (σ0 : heap).
Implicit Types (σ : heap) (m l h : loc) (k : string) (d : ODict.t loc)
  (mv : ODict.t SearchHit) (o : HitObj) (R : exn → heap → Prop).
Import ODictFacts.
Local Open Scope monad_scope.

Lemma triple_assoc {S A B C} (P : S → Prop) (Q : C → S → Prop)
    (R : exn → S → Prop) (c : M S A) (k1 : A → M S B) (k2 : B → M S C) :
  triple P (mbind (mbind c k1) k2) Q R →
  triple P (mbind c (fun a => mbind (k1 a) k2)) Q R.
Proof.
  intros H s Hs. specialize (H s Hs). unfold mbind in *.
  by destruct (c s) as [s1 [a|e]].
Qed.

Lemma triple_witness {S A} (P : S → Prop) (Q : A → S → Prop)
    (R : exn → S → Prop) (c : M S A) :
  (∀ s0, P s0 → triple P c Q R) → triple P c Q R.
Proof. intros H s Hs. exact (H s Hs s Hs). Qed.

Lemma triple_pure_l {S A} (φ : Prop) (P : S → Prop) (c : M S A)
    (Q : A → S → Prop) (R : exn → S → Prop) :
  (φ → triple P c Q R) → triple (fun s => P s ∧ φ) c Q R.
Proof. intros H s [HP Hφ]. by apply H. Qed.

Lemma sim_update d mv k m (f : HitObj → HitObj) (F : SearchHit → SearchHit) R :
  ODict.get k d = Some m →
  (∀ o, o_passages (f o) = o_passages o) →
  (∀ o ps, mk_view (f o) ps = F (mk_view o ps)) →
  triple (simulates σ0 d mv) (om <~ read_hit m ;; write_hit m (f om))
    (fun _ => simulates σ0 d (ODict.alter F k mv)) R.
Proof. intros Hget Hf HF σ Hsim. by apply simulates_update. Qed.

Lemma sim_extend d mv k m (hps : list Passage) R :
  ODict.get k d = Some m →
  triple (simulates σ0 d mv)
    (om <~ read_hit m ;;
     mps <~ read_list (o_passages om) ;;
     write_list (o_passages om) (mps ++ hps))
    (fun _ => simulates σ0 d (ODict.alter (extend_passages hps) k mv)) R.
Proof.
  intros Hget σ Hsim.
  by apply (simulates_write_list σ0 d mv σ k m (fun ps => ps ++ hps)).
Qed.

Lemma sim_renew d mv k m (f : loc → HitObj → HitObj)
    (g : list Passage → list Passage) (F : SearchHit → SearchHit) R :
  ODict.get k d = Some m →
  (∀ l o, o_passages (f l o) = l) →
  (∀ l o ps, mk_view (f l o) (g ps) = F (mk_view o ps)) →
  triple (simulates σ0 d mv)
    (om <~ read_hit m ;;
     ps <~ read_list (o_passages om) ;;
     top <~ alloc_list (g ps) ;;
     write_hit m (f top om))
    (fun _ => simulates σ0 d (ODict.alter F k mv)) R.
Proof. intros Hget Hf HF σ Hsim. by apply simulates_renew. Qed.

Lemma sim_ensure d mv k R :
  triple (simulates σ0 d mv) (h_ensure k d)
    (fun r σ => simulates σ0 r.1 (ensure k mv) σ ∧ ODict.get k r.1 = Some r.2)
    R.
Proof.
  intros σ Hsim. unfold h_ensure, ensure.
  destruct (ODict.get k d) as [m|] eqn:Hget.
  - destruct (simulates_elem _ _ _ _ _ _ Hsim Hget) as (_ & _ & ->). by simpl.
  - assert (ODict.get k mv = None) as ->.
    { destruct Hsim as (_ & _ & _ & _ & <-). by rewrite get_views, Hget. }
    simpl. split; [|apply get_set_eq].
    by apply (simulates_new σ0 d mv σ k
                {| o_id := k; o_bm25 := None; o_cosine := None;
                   o_score := PyFloat.zero; o_meta := None;
                   o_passages := fresh (dom (list_objs σ)) |}).
Qed.

Lemma merge_step_alter mv (hv : SearchHit) :
  merge_step mv hv = ODict.alter (fold_hit hv) (id hv) (ensure (id hv) mv).
Proof. done. Qed.

(** The three updates of the merge loop, one after the other, are
    [fold_hit]. *)
Lemma merge_step_fields mv (hv : SearchHit) (mv1 mv2 mv3 mv4 : ODict.t SearchHit) :
  mv1 = ensure (id hv) mv →
  mv2 = match bm25 hv with
        | Some b => ODict.alter (keep_bm25 b) (id hv) mv1
        | None => mv1
        end →
  mv3 = match cosine hv with
        | Some c => ODict.alter (keep_cosine c) (id hv) mv2
        | None => mv2
        end →
  mv4 = match passages hv with
        | [] => mv3
        | _ :: _ => ODict.alter (extend_passages (passages hv)) (id hv) mv3
        end →
  mv4 = merge_step mv hv.
Proof.
  intros -> -> -> ->. rewrite merge_step_alter.
  destruct (bm25 hv) as [b|] eqn:Hb, (cosine hv) as [c|] eqn:Hc,
    (passages hv) as [|p ps] eqn:Hp;
    rewrite ?alter_alter;
    first [ apply alter_ext | symmetry; apply alter_id ];
    intros [i xb xc xs xm xp]; unfold fold_hit; rewrite Hb, Hc, Hp; simpl;
    by rewrite ?app_nil_r.
Qed.

Lemma sim_merge_step d mv h R :
  allocated σ0 h →
  triple (simulates σ0 d mv) (h_merge_step d h)
    (fun d' => simulates σ0 d' (merge_step mv (view σ0 h))) R.
Proof.
  intros Hh. unfold h_merge_step. set (hv := view σ0 h).
  eapply triple_bind with
    (Q' := fun oh σ => simulates σ0 d mv σ ∧ oh = hit_at σ0 h).
  { apply triple_gets. intros σ Hsim. split; [done|].
    destruct Hsim as (Hext & _). by destruct (extends_allocated _ _ _ Hext Hh). }
  intros oh. apply triple_pure_l. intros ->.
  change (o_id (hit_at σ0 h)) with (id hv).
  change (o_bm25 (hit_at σ0 h)) with (bm25 hv).
  change (o_cosine (hit_at σ0 h)) with (cosine hv).
  eapply triple_bind; [apply sim_ensure|]. intros [d1 m].
  apply triple_pure_l. intros Hget. cbn [fst snd] in Hget.
  set (mv1 := ensure (id hv) mv).
  eapply triple_bind with
    (Q' := fun _ => simulates σ0 d1
                      (match bm25 hv with
                       | Some b => ODict.alter (keep_bm25 b) (id hv) mv1
                       | None => mv1
                       end)).
  { destruct (bm25 hv) as [b|]; [|by apply triple_ret].
    by apply (sim_update d1 mv1 (id hv) m
                (fun om => {| o_id := o_id om;
                              o_bm25 := Some (PyFloat.max (PyFloat.or_neg_inf (o_bm25 om)) b);
                              o_cosine := o_cosine om; o_score := o_score om;
                              o_meta := o_meta om;
                              o_passages := o_passages om |})). }
  intros []. set (mv2 := match bm25 hv with Some _ => _ | None => _ end).
  eapply triple_bind with
    (Q' := fun _ => simulates σ0 d1
                      (match cosine hv with
                       | Some c => ODict.alter (keep_cosine c) (id hv) mv2
                       | None => mv2
                       end)).
  { destruct (cosine hv) as [c|]; [|by apply triple_ret].
    by apply (sim_update d1 mv2 (id hv) m
                (fun om => {| o_id := o_id om; o_bm25 := o_bm25 om;
                              o_cosine := Some (PyFloat.max (PyFloat.or_neg_inf (o_cosine om)) c);
                              o_score := o_score om;
                              o_meta := o_meta om;
                              o_passages := o_passages om |})). }
  intros []. set (mv3 := match cosine hv with Some _ => _ | None => _ end).
  eapply triple_bind with
    (Q' := fun hps σ => simulates σ0 d1 mv3 σ ∧ hps = passages hv).
  { apply triple_gets. intros σ Hsim. split; [done|].
    destruct Hsim as (Hext & _).
    by destruct (extends_allocated _ _ _ Hext Hh) as (_ & ? & _). }
  intros hps. apply triple_pure_l. intros ->.
  eapply triple_bind with
    (Q' := fun _ => simulates σ0 d1
                      (match passages hv with
                       | [] => mv3
                       | _ :: _ => ODict.alter (extend_passages (passages hv)) (id hv) mv3
                       end)).
  { destruct (passages hv) as [|p ps]; [by apply triple_ret|].
    by apply sim_extend. }
  intros []. apply triple_ret. intros σ Hsim.
  by rewrite <- (merge_step_fields mv hv mv1 mv2 mv3 _ eq_refl eq_refl eq_refl eq_refl).
Qed.
Lemma sim_merge_loop (hits : list loc) R : ∀ d mv,
  Forall (allocated σ0) hits →
  triple (simulates σ0 d mv) (foldM_st h_merge_step d hits)
    (fun d' => simulates σ0 d' (foldl merge_step mv (view σ0 <$> hits))) R.
Proof.
  induction hits as [|h hits IH]; intros d mv Hall; csimpl.
  - by apply triple_ret.
  - apply Forall_cons in Hall as [Hh Hall].
    eapply triple_bind; [by apply sim_merge_step|].
    intros d'. by apply IH.
Qed.

Context (w_text w_vector : float) (rrf_k max_passages_per_doc : Z)
  (trank vrank : gmap string Z).

Local Abbreviation sc := (rrf_score w_text w_vector rrf_k trank vrank).
Local Abbreviation h_step :=
  (h_score_doc w_text w_vector rrf_k max_passages_per_doc trank vrank).
Local Abbreviation v_step :=
  (score_doc w_text w_vector rrf_k max_passages_per_doc trank vrank).

Lemma sim_score_doc_Ok d mv k m s R :
  ODict.get k d = Some m → sc k = Ok s →
  triple (simulates σ0 d mv) (h_step (k, m))
    (fun _ => simulates σ0 d (ODict.alter (scored max_passages_per_doc s) k mv))
    R.
Proof.
  intros Hget Hs. unfold h_score_doc. rewrite Hs.
  eapply triple_bind with (Q' := fun s' σ => simulates σ0 d mv σ ∧ s' = s).
  { apply triple_lift; [by intros σ a ? [= <-] | done]. }
  intros s'. apply triple_pure_l. intros ->.
  apply triple_assoc.
  eapply triple_bind.
  { by apply (sim_update d mv k m
                (fun om => {| o_id := o_id om; o_bm25 := o_bm25 om;
                              o_cosine := o_cosine om; o_score := s;
                              o_meta := o_meta om;
                              o_passages := o_passages om |})
                (set_score s)). }
  intros [].
  eapply triple_conseq.
  { by apply (sim_renew d (ODict.alter (set_score s) k mv) k m
                (fun top om => {| o_id := o_id om; o_bm25 := o_bm25 om;
                                  o_cosine := o_cosine om; o_score := o_score om;
                                  o_meta := o_meta om; o_passages := top |})
                (top_passages max_passages_per_doc)
                (cut_passages max_passages_per_doc)). }
  - done.
  - intros [] σ. by rewrite alter_alter.
  - done.
Qed.

Lemma sim_score_doc_Raise d mv k m e (Q : unit → heap → Prop) :
  sc k = Raise e →
  triple (simulates σ0 d mv) (h_step (k, m)) Q (fun e' _ => e' = e).
Proof. intros Hs σ Hsim. unfold h_score_doc, mbind, lift. by rewrite Hs. Qed.

Lemma set_middle {V} k (x y : V) (pv lv : ODict.t V) :
  k ∉ ODict.keys pv →
  ODict.set k y (pv ++ (k, x) :: lv) = pv ++ (k, y) :: lv.
Proof.
  unfold ODict.keys. induction pv as [|[k' v'] pv IH]; csimpl.
  - intros _. by rewrite String.eqb_refl.
  - intros [Hne Hk]%not_elem_of_cons.
    destruct (String.eqb_spec k k'); [done|]. by rewrite IH.
Qed.

Lemma get_middle {V} k (x : V) (pv lv : ODict.t V) :
  k ∉ ODict.keys pv → ODict.get k (pv ++ (k, x) :: lv) = Some x.
Proof.
  unfold ODict.keys. induction pv as [|[k' v'] pv IH]; csimpl.
  - intros _. by rewrite String.eqb_refl.
  - intros [Hne Hk]%not_elem_of_cons.
    destruct (String.eqb_spec k k'); [done|]. by apply IH.
Qed.

Lemma alter_middle {V} (f : V → V) k (x : V) (pv lv : ODict.t V) :
  k ∉ ODict.keys pv →
  ODict.alter f k (pv ++ (k, x) :: lv) = pv ++ (k, f x) :: lv.
Proof.
  intros Hk. rewrite (alter_Some _ _ _ _ (get_middle k x pv lv Hk)).
  by apply set_middle.
Qed.

(** The scoring loop on the store follows the loop on values, entry by
    entry, up to the first exception. *)
Lemma sim_score_loop d (l : list (string * loc)) : ∀ pv lv,
  (∀ e, e ∈ l → ODict.get e.1 d = Some e.2) →
  ODict.keys lv = l.*1 → NoDup (ODict.keys (pv ++ lv)) →
  triple (simulates σ0 d (pv ++ lv)) (mapM_st h_step l)
    (fun _ σ => ∃ lv', score_all max_passages_per_doc sc lv = Ok lv'
                       ∧ simulates σ0 d (pv ++ lv') σ)
    (fun e _ => score_all max_passages_per_doc sc lv = Raise e).
Proof.
  induction l as [|[k m] l IH]; intros pv lv Hl Hkeys Hnd.
  - destruct lv; [|done]. apply triple_ret. intros σ Hsim. by exists [].
  - destruct lv as [|[k' x] lv]; [done|]. injection Hkeys as -> Hkeys.
    assert (k ∉ ODict.keys pv) as Hk.
    { unfold ODict.keys in *. rewrite fmap_app in Hnd.
      apply NoDup_app in Hnd as (_ & Hdisj & _). intros Hin.
      apply (Hdisj k Hin). left. }
    assert (score_all max_passages_per_doc sc ((k, x) :: lv)
            = bind (sc k) (fun s =>
                bind (score_all max_passages_per_doc sc lv) (fun ys =>
                  Ok ((k, scored max_passages_per_doc s x) :: ys)))) as ->.
    { unfold score_all. simpl. by destruct (sc k). }
    cbn [mapM_st].
    destruct (sc k) as [s|e] eqn:Hs.
    + eapply triple_bind.
      { apply sim_score_doc_Ok; [|done]. apply (Hl (k, m)). left. }
      intros []. rewrite alter_middle by done.
      replace (pv ++ (k, scored max_passages_per_doc s x) :: lv)
        with ((pv ++ [(k, scored max_passages_per_doc s x)]) ++ lv)
        by (by rewrite <- app_assoc).
      cbn [bind].
      eapply triple_bind with
        (Q' := fun _ σ =>
                 ∃ lv', score_all max_passages_per_doc sc lv = Ok lv'
                        ∧ simulates σ0 d
                            ((pv ++ [(k, scored max_passages_per_doc s x)]) ++ lv') σ).
      { eapply triple_conseq.
        - apply (IH (pv ++ [(k, scored max_passages_per_doc s x)]) lv);
            [intros e He; apply Hl; by right|done|].
          rewrite <- app_assoc. unfold ODict.keys in *.
          by rewrite fmap_app in *.
        - done.
        - done.
        - intros e σ Hlv. simpl in Hlv. by rewrite Hlv. }
      intros ys. apply triple_ret. intros σ (lv' & Hlv' & Hsim).
      rewrite Hlv'. simpl.
      eexists. split; [done|]. by rewrite <- app_assoc in Hsim.
    + cbn [bind]. eapply triple_bind with (Q' := fun _ _ => False).
      * eapply triple_conseq.
        -- by apply (sim_score_doc_Raise d (pv ++ (k, x) :: lv) k m e
                       (fun _ _ => False)).
        -- done.
        -- done.
        -- by intros e' σ ->.
      * by intros [] σ [].
Qed.

Lemma sim_score_all d mv :
  NoDup (ODict.keys d) → ODict.keys mv = ODict.keys d →
  triple (simulates σ0 d mv) (mapM_st h_step (ODict.items d))
    (fun _ σ => ∃ lv', score_all max_passages_per_doc sc mv = Ok lv'
                       ∧ simulates σ0 d lv' σ)
    (fun e _ => score_all max_passages_per_doc sc mv = Raise e).
Proof.
  intros Hnd Hkeys.
  apply (sim_score_loop d (ODict.items d) [] mv).
  - intros [k m] He. by apply elem_get.
  - done.
  - simpl. by rewrite Hkeys.
Qed.

Lemma mapM_score_doc mv :
  mapM v_step (ODict.items mv)
  = bind (score_all max_passages_per_doc sc mv) (fun lv => Ok (ODict.values lv)).
Proof.
  unfold score_all, ODict.items, ODict.values.
  induction mv as [|[k x] mv IH]; [done|]. csimpl. rewrite IH.
  destruct (sc k) as [s|e]; [|done]. simpl.
  by destruct (mapM (fun e => s0 <- sc e.1 ;; Ok (e.1, scored max_passages_per_doc s0 e.2)) mv).
Qed.

Lemma sorted_desc_fmap {A B} (key : B → float) (f : A → B) (xs : list A) :
  sorted_desc key (f <$> xs) = f <$> sorted_desc (key ∘ f) xs.
Proof.
  assert (∀ x ys, insert_desc key (f x) (f <$> ys)
                  = f <$> insert_desc (key ∘ f) x ys) as Hins.
  { intros x ys. induction ys as [|y ys IH]; csimpl; [done|].
    destruct (PrimFloat.ltb (key (f x)) (key (f y))); csimpl; [|done].
    by rewrite IH. }
  unfold sorted_desc. induction xs as [|x xs IH]; csimpl; [done|].
  by rewrite IH, Hins.
Qed.
End SimLoops.

Lemma simulates_init σ : simulates σ [] [] σ.
Proof. split_and!; by try constructor. Qed.

Lemma h_aggregate_simulation (σ0 : heap) (hits : list loc)
    (w_text w_vector : float) (rrf_k max_passages_per_doc : Z) :
  Forall (allocated σ0) hits →
  triple (fun σ => σ = σ0)
    (h_aggregate_search_hits hits w_text w_vector rrf_k max_passages_per_doc)
    (fun out σ' =>
       aggregate_search_hits (view σ0 <$> hits) w_text w_vector rrf_k
         max_passages_per_doc = Ok (view σ' <$> out))
    (fun e _ =>
       aggregate_search_hits (view σ0 <$> hits) w_text w_vector rrf_k
         max_passages_per_doc = Raise e).
Proof.
  intros Hall. unfold h_aggregate_search_hits.
  eapply triple_bind with
    (Q' := fun hl σ => simulates σ0 [] [] σ ∧ hl = view σ0 <$> hits).
  { apply triple_gets. intros σ ->. split; [apply simulates_init | done]. }
  intros hl. apply triple_pure_l. intros ->.
  eapply triple_bind; [by apply sim_merge_loop|]. intros d.
  change (foldl merge_step [] (view σ0 <$> hits))
    with (merge_hits (view σ0 <$> hits)).
  set (mv := merge_hits (view σ0 <$> hits)).
  apply triple_witness. intros σ1 (_ & _ & _ & _ & Hviews).
  assert (ODict.keys d = ODict.keys mv) as Hkeys
    by (by rewrite <- Hviews, keys_views).
  assert (NoDup (ODict.keys d)) as Hnd
    by (rewrite Hkeys; apply NoDup_keys_merge_hits).
  eapply triple_bind.
  { eapply triple_conseq.
    - exact (sim_score_all σ0 w_text w_vector rrf_k max_passages_per_doc
               (text_rank (view σ0 <$> hits)) (vector_rank (view σ0 <$> hits))
               d mv Hnd (eq_sym Hkeys)).
    - done.
    - intros ys σ' H. exact H.
    - intros e σ' Hscore. unfold aggregate_search_hits. cbv zeta. fold mv.
      by rewrite mapM_score_doc, Hscore. }
  intros ys. apply triple_gets. intros σ' (lv' & Hscore & Hsim).
  destruct Hsim as (_ & _ & _ & _ & Hviews').
  unfold aggregate_search_hits. cbv zeta. fold mv.
  rewrite mapM_score_doc, Hscore. simpl. f_equal.
  rewrite <- Hviews', values_views. apply sorted_desc_fmap.
Qed.

(** The two models agree: run on a store in which the input hits and
    their lists are allocated, the function on objects returns the objects
    whose values are the hits the function on values returns for the values
    of the input, and raises when and what it raises. *)
Theorem h_aggregate_search_hits_refines
    (hits : list loc) (w_text w_vector : float)
    (rrf_k max_passages_per_doc : Z) (σ : heap) :
  Forall (allocated σ) hits →
  match h_aggregate_search_hits hits w_text w_vector rrf_k
          max_passages_per_doc σ with
  | (σ', Ok out) =>
      aggregate_search_hits (view σ <$> hits) w_text w_vector rrf_k
        max_passages_per_doc = Ok (view σ' <$> out)
  | (σ', Raise e) =>
      aggregate_search_hits (view σ <$> hits) w_text w_vector rrf_k
        max_passages_per_doc = Raise e
  end.
Proof.
  intros Hall.
  exact (h_aggregate_simulation σ hits w_text w_vector rrf_k
           max_passages_per_doc Hall σ eq_refl).
Qed.

Lemma h_aggregate_search_hits_refines_witness :
  match h_aggregate_search_hits [1%positive; 2%positive] default_w default_w
          default_rrf_k default_max_passages two_hit_store with
  | (σ', Ok out) =>
      aggregate_search_hits (view two_hit_store <$> [1%positive; 2%positive])
        default_w default_w default_rrf_k default_max_passages
      = Ok (view σ' <$> out)
  | (σ', Raise e) =>
      aggregate_search_hits (view two_hit_store <$> [1%positive; 2%positive])
        default_w default_w default_rrf_k default_max_passages
      = Raise e
  end.
Proof.
  apply (h_aggregate_search_hits_refines [1%positive; 2%positive] default_w
           default_w default_rrf_k default_max_passages two_hit_store).
  repeat constructor; by eexists.
Defined.

(** ** The fusion: errors and passages, for every input *)

Lemma mapM_Raise {A B : Type} (f : A → result B) (l : list A) e :
  mapM f l = Raise e → ∃ x, x ∈ l ∧ f x = Raise e.
Proof.
  induction l as [|x l IH]; simpl; [done|].
  destruct (f x) as [y|e'] eqn:Hx; simpl.
  - destruct (mapM f l) as [ys|e'']; simpl; [done|].
    intros [= ->]. destruct IH as (x' & Hin & Hx'); [done|].
    exists x'. split; [by right | done].
  - intros [= ->]. exists x. split; [left | done].
Qed.

Lemma mapM_Raise_elem {A B : Type} (f : A → result B) (l : list A) x e :
  x ∈ l → f x = Raise e → ∃ e', mapM f l = Raise e'.
Proof.
  intros Hin Hx. destruct (mapM f l) as [ys|e'] eqn:Hm; [|by eexists].
  apply mapM_Ok in Hm. apply list_elem_of_lookup in Hin as [i Hi].
  destruct (Forall2_lookup_l _ _ _ _ _ Hm Hi) as (y & _ & Hy). congruence.
Qed.

Lemma truediv_int_Raise x n e :
  PyFloat.truediv_int x n = Raise e →
  (e = OverflowError ∧ PyFloat.overflow_threshold ≤ Z.abs n)
  ∨ (e = ZeroDivisionError ∧ n = 0).
Proof.
  unfold PyFloat.truediv_int, PyFloat.of_int.
  destruct (Z.leb_spec PyFloat.overflow_threshold (Z.abs n)); simpl.
  - intros [= <-]. by left.
  - destruct (Z.eqb_spec n 0); [|done]. intros [= <-]. by right.
Qed.

Lemma truediv_int_zero x : PyFloat.truediv_int x 0 = Raise ZeroDivisionError.
Proof. reflexivity. Qed.

Section FusionErrors.
Context (hits : list SearchHit) (w_text w_vector : float)
  (rrf_k max_passages_per_doc : Z).
Implicit Types (d : string) (m : SearchHit) (out : list SearchHit).

Local Abbreviation run :=
  (aggregate_search_hits hits w_text w_vector rrf_k max_passages_per_doc).
Local Abbreviation score_of :=
  (rrf_score w_text w_vector rrf_k (text_rank hits) (vector_rank hits)).

Lemma add_rrf_Raise w (rank : gmap string Z) d s e :
  add_rrf w rrf_k rank d s = Raise e →
  ∃ r, rank !! d = Some r
       ∧ ((e = OverflowError ∧ PyFloat.overflow_threshold ≤ Z.abs (rrf_k + r))
          ∨ (e = ZeroDivisionError ∧ rrf_k + r = 0)).
Proof.
  unfold add_rrf. destruct (rank !! d) as [r|]; [|done].
  destruct (PyFloat.truediv_int _ _) as [q|e'] eqn:Hq; [done|]. simpl.
  intros [= ->]. exists r. split; [done|]. by apply truediv_int_Raise in Hq.
Qed.

Lemma score_of_Raise d e :
  score_of d = Raise e →
  ∃ r, (text_rank hits !! d = Some r ∨ vector_rank hits !! d = Some r)
       ∧ ((e = OverflowError ∧ PyFloat.overflow_threshold ≤ Z.abs (rrf_k + r))
          ∨ (e = ZeroDivisionError ∧ rrf_k + r = 0)).
Proof.
  unfold rrf_score.
  destruct (add_rrf w_text _ _ _ _) as [s|e'] eqn:Ht; simpl.
  - intros (r & Hr & He)%add_rrf_Raise. exists r. split; [by right | done].
  - intros [= ->]. apply add_rrf_Raise in Ht as (r & Hr & He).
    exists r. split; [by left | done].
Qed.

Lemma rank_in_range d r :
  text_rank hits !! d = Some r ∨ vector_rank hits !! d = Some r →
  1 ≤ r ≤ len hits ∧ d ∈ id <$> hits.
Proof.
  assert (∀ (P : SearchHit → Prop) `{∀ h, Decision (P h)},
            rank_map (filter P hits) !! d = Some r →
            1 ≤ r ≤ len hits ∧ d ∈ id <$> hits) as Hgen.
  { intros P ? Hr. split.
    - apply rank_map_bound in Hr. pose proof (len_filter_le P hits). lia.
    - assert (rank_map (filter P hits) !! d ≠ None) as Hne by congruence.
      rewrite rank_map_None in Hne.
      destruct (decide (d ∈ id <$> filter P hits)) as [Hin|]; [|done].
      apply list_elem_of_fmap in Hin as (h & -> & Hin).
      apply list_elem_of_filter in Hin as [_ Hin].
      by apply list_elem_of_fmap_2. }
  intros [Hr|Hr]; eapply Hgen; exact Hr.
Qed.

Lemma score_of_zero_rank d :
  Z.abs rrf_k + len hits < PyFloat.overflow_threshold →
  text_rank hits !! d = Some (- rrf_k) ∨ vector_rank hits !! d = Some (- rrf_k) →
  score_of d = Raise ZeroDivisionError.
Proof.
  intros Hbound Hzero. unfold rrf_score, add_rrf.
  destruct (text_rank hits !! d) as [rt|] eqn:Ht.
  - destruct (PyFloat.truediv_int _ (rrf_k + rt)) as [q|e] eqn:Hq; simpl.
    + destruct Hzero as [[= ->]|Hv].
      * replace (rrf_k + - rrf_k) with 0 in Hq by lia. done.
      * rewrite Hv. replace (rrf_k + - rrf_k) with 0 by lia. done.
    + apply truediv_int_Raise in Hq as [[_ Hq]|[-> _]]; [|done].
      destruct (rank_in_range d rt) as [? _]; [by left|]. lia.
  - simpl. destruct Hzero as [?|Hv]; [done|]. rewrite Hv.
    replace (rrf_k + - rrf_k) with 0 by lia. done.
Qed.

Lemma run_Raise e :
  run = Raise e → ∃ d, d ∈ id <$> hits ∧ score_of d = Raise e.
Proof.
  unfold aggregate_search_hits.
  destruct (mapM _ _) as [scored|e'] eqn:Hm; [done|]. simpl. intros [= ->].
  apply mapM_Raise in Hm as ([d m] & Hin & Hstep).
  exists d. split.
  - apply elem_keys_merge_hits. unfold ODict.keys, ODict.items in *.
    by apply (list_elem_of_fmap_2 fst) in Hin.
  - unfold score_doc in Hstep.
    destruct (score_of d); simpl in Hstep; congruence.
Qed.

Lemma run_Raise_elem d e :
  d ∈ id <$> hits → score_of d = Raise e → ∃ e', run = Raise e'.
Proof.
  intros Hd Hs. apply elem_keys_merge_hits in Hd.
  unfold ODict.keys in Hd. apply list_elem_of_fmap in Hd as ([d' m] & -> & Hin).
  destruct (mapM_Raise_elem
              (score_doc w_text w_vector rrf_k max_passages_per_doc
                 (text_rank hits) (vector_rank hits))
              (ODict.items (merge_hits hits)) (d', m) e) as [e' He']; [done| |].
  - unfold score_doc. simpl in Hs. by rewrite Hs.
  - exists e'. unfold aggregate_search_hits. by rewrite He'.
Qed.
End FusionErrors.

(** [aggregate_search_hits] raises nothing but [ZeroDivisionError] and
    [OverflowError]. As long as [rrf_k] and the number of hits stay in the
    range of floats, it raises exactly when some document has, in the text
    or in the vector rank map, the rank [-rrf_k], and what it raises then is
    [ZeroDivisionError]; in every other case it returns. *)
Theorem aggregate_raises_on_zero_denominator
    (hits : list SearchHit) (w_text w_vector : float)
    (rrf_k max_passages_per_doc : Z) :
  Z.abs rrf_k + len hits < PyFloat.overflow_threshold →
  ((∃ d, text_rank hits !! d = Some (- rrf_k)
         ∨ vector_rank hits !! d = Some (- rrf_k)) →
   aggregate_search_hits hits w_text w_vector rrf_k max_passages_per_doc
   = Raise ZeroDivisionError)
  ∧ (∀ e,
       aggregate_search_hits hits w_text w_vector rrf_k max_passages_per_doc
       = Raise e →
       e = ZeroDivisionError
       ∧ ∃ d, text_rank hits !! d = Some (- rrf_k)
              ∨ vector_rank hits !! d = Some (- rrf_k)).
Proof.
  intros Hbound.
  assert (∀ e,
            aggregate_search_hits hits w_text w_vector rrf_k
              max_passages_per_doc = Raise e →
            e = ZeroDivisionError
            ∧ ∃ d, text_rank hits !! d = Some (- rrf_k)
                   ∨ vector_rank hits !! d = Some (- rrf_k)) as Honly.
  { intros e (d & _ & (r & Hr & He)%score_of_Raise)%run_Raise.
    destruct (rank_in_range hits d r Hr) as [Hrange _].
    destruct He as [[_ Hover]|[-> Hz]]; [lia|].
    split; [done|]. exists d. by replace (- rrf_k) with r by lia. }
  split; [|done].
  intros [d Hd]. destruct (rank_in_range hits d (- rrf_k) Hd) as [_ Hin].
  pose proof (score_of_zero_rank hits w_text w_vector rrf_k d Hbound Hd) as Hs.
  destruct (run_Raise_elem hits w_text w_vector rrf_k max_passages_per_doc
              d _ Hin Hs) as [e' He'].
  rewrite He'. f_equal. by destruct (Honly e' He').
Qed.

Lemma aggregate_raises_on_zero_denominator_witness :
  ((∃ d, text_rank two_chunks_then_other !! d = Some (- -3)
         ∨ vector_rank two_chunks_then_other !! d = Some (- -3)) →
   aggregate_search_hits two_chunks_then_other default_w default_w (-3)
     default_max_passages
   = Raise ZeroDivisionError)
  ∧ (∀ e,
       aggregate_search_hits two_chunks_then_other default_w default_w (-3)
         default_max_passages
       = Raise e →
       e = ZeroDivisionError
       ∧ ∃ d, text_rank two_chunks_then_other !! d = Some (- -3)
              ∨ vector_rank two_chunks_then_other !! d = Some (- -3)).
Proof.
  apply (aggregate_raises_on_zero_denominator two_chunks_then_other
           default_w default_w (-3) default_max_passages).
  vm_compute. reflexivity.
Defined.

Section TopPassages.
Implicit Types (ps : list Passage) (p : Passage) (n : Z).

Lemma slice_to_sublist {A} (n : Z) (l : list A) : slice_to n l `sublist_of` l.
Proof. unfold slice_to. destruct (0 <=? n); apply sublist_take. Qed.

Lemma slice_to_length {A} (n : Z) (l : list A) :
  len (slice_to n l) = if 0 <=? n then Z.min n (len l) else Z.max 0 (len l + n).
Proof.
  unfold slice_to, len. destruct (Z.leb_spec 0 n); rewrite length_take; lia.
Qed.

Lemma elem_of_concat {A} (x : A) (ls : list (list A)) :
  x ∈ concat ls → ∃ l, x ∈ l ∧ l ∈ ls.
Proof.
  induction ls as [|l ls IH]; simpl; [by intros ?%elem_of_nil|].
  intros [Hx|Hx]%elem_of_app.
  - exists l. split; [done | left].
  - destruct (IH Hx) as (l' & ? & ?). exists l'. split; [done | by right].
Qed.

Lemma top_passages_elem n ps p : p ∈ top_passages n ps → p ∈ ps.
Proof.
  unfold top_passages. intros Hp.
  apply elem_values_best_by_chunk. rewrite <- (sorted_desc_elem p_score).
  eapply elem_of_sublist; [done | apply slice_to_sublist].
Qed.

Lemma top_passages_NoDup n ps : NoDup (chunk_id <$> top_passages n ps).
Proof.
  unfold top_passages.
  eapply sublist_NoDup; [|apply fmap_sublist, slice_to_sublist].
  rewrite sorted_desc_perm.
  unfold ODict.values. rewrite <- list_fmap_compose.
  assert (∀ e, e ∈ best_by_chunk ps → (chunk_id ∘ snd) e = e.1) as Hkey.
  { intros [c b] Hin. simpl.
    apply ODictFacts.elem_get in Hin;
      [|rewrite keys_best_by_chunk; apply first_seen_NoDup].
    rewrite get_best_by_chunk in Hin.
    by apply (foldl_pick_chunk c (filter (fun p => chunk_id p = c) ps) None b);
      [apply Forall_forall; intros ? [? _]%list_elem_of_filter | |]. }
  rewrite (Forall_fmap_ext_1 _ fst) by (by apply Forall_forall).
  fold (ODict.keys (best_by_chunk ps)). rewrite keys_best_by_chunk.
  apply first_seen_NoDup.
Qed.

Lemma top_passages_length n ps :
  len (top_passages n ps)
  = let chunks := len (first_seen [] (chunk_id <$> ps)) in
    if 0 <=? n then Z.min n chunks else Z.max 0 (chunks + n).
Proof.
  unfold top_passages. rewrite slice_to_length. cbv zeta.
  replace (len (sorted_desc p_score (ODict.values (best_by_chunk ps))))
    with (len (first_seen [] (chunk_id <$> ps))); [done|].
  unfold len. rewrite sorted_desc_length, <- keys_best_by_chunk.
  unfold ODict.keys, ODict.values. by rewrite !length_fmap.
Qed.
End TopPassages.

(** Whatever the scores and the bound are, every passage of a returned hit
    is a passage of an input hit of the same document, and no two passages
    of a returned hit have the same chunk identifier. *)
Theorem aggregate_passages_come_from_document
    (hits : list SearchHit) (w_text w_vector : float)
    (rrf_k max_passages_per_doc : Z) (out : list SearchHit) (m : SearchHit) :
  aggregate_search_hits hits w_text w_vector rrf_k max_passages_per_doc = Ok out →
  m ∈ out →
  (∀ p, p ∈ passages m → ∃ h, h ∈ hits ∧ id h = id m ∧ p ∈ passages h)
  ∧ NoDup (chunk_id <$> passages m).
Proof.
  intros Hrun Hm.
  apply (run_elem _ _ _ _ _ _ _ Hrun) in Hm as (d & s & _ & _ & ->).
  simpl. rewrite passages_fold_doc. split; [|apply top_passages_NoDup].
  intros p Hp%top_passages_elem. unfold passages_of in Hp.
  apply elem_of_concat in Hp as (ps & Hp & Hps).
  apply list_elem_of_fmap in Hps as (h & -> & Hh).
  apply list_elem_of_filter in Hh as [Hid Hh]. by exists h.
Qed.

Lemma aggregate_passages_come_from_document_witness :
  (∀ p, p ∈ passages mixed_A →
        ∃ h, h ∈ mixed_hits ∧ id h = id mixed_A ∧ p ∈ passages h)
  ∧ NoDup (chunk_id <$> passages mixed_A).
Proof.
  apply (aggregate_passages_come_from_document mixed_hits default_w default_w
           default_rrf_k default_max_passages mixed_result mixed_A).
  - vm_compute. reflexivity.
  - left.
Defined.

(** The number of passages of a returned hit, for every bound: with
    [chunks] the number of distinct chunk identifiers among the passages of
    the input hits of the document, a bound that is not negative keeps
    [min(bound, chunks)] passages, so none for the bound 0; a negative
    bound does not lift the limit but drops the [-bound] last passages of
    the sorted list, leaving [max(0, chunks + bound)]. *)
Theorem aggregate_passage_count
    (hits : list SearchHit) (w_text w_vector : float)
    (rrf_k max_passages_per_doc : Z) (out : list SearchHit) (m : SearchHit) :
  aggregate_search_hits hits w_text w_vector rrf_k max_passages_per_doc = Ok out →
  m ∈ out →
  let chunks := len (first_seen [] (chunk_id <$> passages_of (id m) hits)) in
  len (passages m)
  = if 0 <=? max_passages_per_doc then Z.min max_passages_per_doc chunks
    else Z.max 0 (chunks + max_passages_per_doc).
Proof.
  intros Hrun Hm.
  apply (run_elem _ _ _ _ _ _ _ Hrun) in Hm as (d & s & _ & _ & ->).
  simpl. rewrite passages_fold_doc. apply top_passages_length.
Qed.

Lemma aggregate_passage_count_witness :
  len (passages (lexical_hit_pair_result))
  = if 0 <=? -1 then Z.min (-1) 2 else Z.max 0 (2 + -1).
Proof.
  apply (aggregate_passage_count two_chunks_then_other default_w default_w
           default_rrf_k (-1)
           [lexical_hit_pair_result;
            {| id := "B"; bm25 := Some 1%float; cosine := None;
               score := (1 / 63)%float; meta := None; passages := [] |}]
           lexical_hit_pair_result).
  - vm_compute. reflexivity.
  - left.
Defined.

(** ** Snippets: size and short texts *)

Section SnippetSize.
Context (lower : pystr → pystr).
Implicit Types (t q s sub : pystr) (window : Z).

Lemma find_range s sub : find s sub = -1 ∨ 0 ≤ find s sub ≤ len s.
Proof.
  unfold find. destruct (find_from_spec sub s 0) as [[-> _]|(k & -> & Hk & _)];
    [by left|]. right.
  apply occurs_at_drop in Hk as [Hk _]. unfold len. lia.
Qed.

Lemma head_snippet_length t window :
  0 ≤ window → len (head_snippet t window) ≤ Z.min (len t) window + 3.
Proof.
  intros Hw. unfold head_snippet. rewrite slice_to_nonneg by done.
  unfold len. rewrite length_app, length_take.
  destruct (Z.ltb_spec window (Z.of_nat (length t))); simpl; lia.
Qed.

Lemma head_snippet_whole t window :
  len t ≤ window → head_snippet t window = t.
Proof.
  intros Hw. unfold head_snippet.
  assert (0 ≤ window) by (unfold len in Hw; lia).
  rewrite slice_to_nonneg by done.
  destruct (Z.ltb_spec window (len t)); [lia|].
  rewrite app_nil_r. apply take_ge. unfold len in Hw. lia.
Qed.

Lemma slice_length_bound {A} (a b : Z) (xs : list A) :
  0 ≤ a → 0 ≤ b → len (slice a b xs) ≤ Z.max 0 (Z.min (len xs) b - a).
Proof.
  intros Ha Hb. unfold slice, clamp_index, len.
  destruct (Z.ltb_spec a 0); [lia|]. destruct (Z.ltb_spec b 0); [lia|].
  rewrite length_take, length_drop. lia.
Qed.

Lemma slice_whole {A} (b : Z) (xs : list A) : len xs ≤ b → slice 0 b xs = xs.
Proof.
  intros Hb. unfold slice, clamp_index, len in *. simpl.
  destruct (Z.ltb_spec b 0); [lia|].
  rewrite (Z.min_r _ 0), (Z.min_l _ b) by lia. simpl. apply take_ge. lia.
Qed.
End SnippetSize.

Lemma snippet_length_min
    (lower : pystr → pystr) (text query : pystr) (window : Z) :
  0 ≤ window →
  len (make_snippet lower text query window) ≤ Z.min (len text) window + 6.
Proof.
  intros Hw. unfold make_snippet.
  destruct text as [|c t]; [unfold len; simpl; lia|].
  pose proof (head_snippet_length (c :: t) window Hw).
  destruct (strip query) as [|c' q']; [lia|].
  destruct (find_range (lower (c :: t)) (lower (c' :: q'))) as [->|Hidx];
    [simpl; lia|].
  destruct (Z.eqb_spec (find (lower (c :: t)) (lower (c' :: q'))) (-1)); [lia|].
  set (idx := find (lower (c :: t)) (lower (c' :: q'))) in *.
  assert (0 ≤ window / 2) by (apply Z.div_pos; lia).
  assert (2 * (window / 2) ≤ window) by (apply Z.mul_div_le; lia).
  assert (0 ≤ len (c :: t)) by (unfold len; lia).
  pose proof (slice_length_bound (Z.max 0 (idx - window / 2))
                (Z.min (len (c :: t)) (idx + window / 2)) (c :: t)
                ltac:(lia) ltac:(lia)) as Hs.
  unfold len in *. rewrite !length_app.
  destruct (0 <? Z.max 0 (idx - window / 2));
    destruct (Z.min (Z.of_nat (length (c :: t))) (idx + window / 2)
              <? Z.of_nat (length (c :: t)));
    change (length ellipsis) with 3%nat;
    change (length (@nil codepoint)) with 0%nat; lia.
Qed.

(** A snippet is never longer than the window plus the two ellipses, and
    never longer than the text plus the two ellipses. The window is not
    negative. *)
Theorem make_snippet_length
    (lower : pystr → pystr) (text query : pystr) (window : Z) :
  0 ≤ window →
  len (make_snippet lower text query window) ≤ window + 6
  ∧ len (make_snippet lower text query window) ≤ len text + 6.
Proof.
  intros Hw. pose proof (snippet_length_min lower text query window Hw).
  split; lia.
Qed.

Lemma make_snippet_length_witness :
  len (make_snippet lower_ascii (str "the quick brown fox") (str "quick") 10)
  ≤ 10 + 6
  ∧ len (make_snippet lower_ascii (str "the quick brown fox") (str "quick") 10)
    ≤ len (str "the quick brown fox") + 6.
Proof.
  apply (make_snippet_length lower_ascii (str "the quick brown fox")
           (str "quick") 10).
  lia.
Defined.

(** A text of at most half the window is returned as it is, whatever the
    query, provided its lowercased form is not longer than half the window
    either: the offset of the match is one of the lowercased text. *)
Theorem make_snippet_short_text
    (lower : pystr → pystr) (text query : pystr) (window : Z) :
  len text ≤ window / 2 → len (lower text) ≤ window / 2 →
  make_snippet lower text query window = text.
Proof.
  intros Ht Hl. unfold make_snippet. destruct text as [|c t]; [done|].
  assert (0 ≤ len (c :: t)) by (unfold len; lia).
  assert (0 ≤ window).
  { destruct (Z.le_gt_cases 0 window); [done|].
    assert (window / 2 < 0) by (apply Z.div_lt_upper_bound; lia). lia. }
  assert (2 * (window / 2) ≤ window) by (apply Z.mul_div_le; lia).
  assert (head_snippet (c :: t) window = c :: t) as Hhead
    by (apply head_snippet_whole; lia).
  destruct (strip query) as [|c' q']; [done|].
  destruct (find_range (lower (c :: t)) (lower (c' :: q'))) as [->|Hidx];
    [done|].
  destruct (Z.eqb_spec (find (lower (c :: t)) (lower (c' :: q'))) (-1)); [lia|].
  set (idx := find (lower (c :: t)) (lower (c' :: q'))) in *.
  rewrite Z.max_l by lia. rewrite Z.min_l by lia.
  rewrite !Z.ltb_irrefl. simpl app.
  rewrite slice_whole by lia. apply app_nil_r.
Qed.

Lemma make_snippet_short_text_witness :
  make_snippet lower_ascii (str "Hello world") (str "WORLD") 400
  = str "Hello world".
Proof.
  apply (make_snippet_short_text lower_ascii (str "Hello world")
           (str "WORLD") 400);
    vm_compute; discriminate.
Defined.

Lemma substring_split (a m b : nat) (s : pystr) :
  (a ≤ m ≤ b)%nat → substring a b s = substring a m s ++ substring m b s.
Proof.
  intros Hamb. unfold substring.
  replace (b - a)%nat with ((m - a) + (b - m))%nat by lia.
  rewrite <- take_take_drop, drop_drop. do 3 f_equal. lia.
Qed.

(** The excerpt shows the match when the query is short enough: if the
    lowercased query, of length [n], first occurs in the lowercased text at
    offset [idx], is not longer than half the window, and the offsets
    [idx] to [idx + n] lie in the text, then the snippet contains the
    characters of the text between these offsets. They are the offsets of
    the match in the lowercased text. *)
Theorem make_snippet_shows_match
    (lower : pystr → pystr) (text query : pystr) (window : Z) (idx : nat) :
  0 ≤ window →
  text ≠ [] → strip query ≠ [] →
  first_occurrence (lower text) (lower (strip query)) idx →
  (idx + length (lower (strip query)) ≤ length text)%nat →
  len (lower (strip query)) ≤ window / 2 →
  ∃ pre post,
    make_snippet lower text query window
    = pre ++ substring idx (idx + length (lower (strip query))) text ++ post.
Proof.
  intros Hw Ht Hq Hidx Hin Hn. unfold make_snippet.
  destruct text as [|c t]; [done|].
  destruct (strip query) as [|c' q'] eqn:Hs; [done|].
  rewrite (find_first_occurrence _ _ _ Hidx).
  destruct (Z.eqb_spec (Z.of_nat idx) (-1)) as [|_]; [lia|].
  set (n := length (lower (c' :: q'))) in *.
  assert (0 ≤ window / 2) by (apply Z.div_pos; lia).
  set (a := Z.max 0 (Z.of_nat idx - window / 2)).
  set (b := Z.min (len (c :: t)) (Z.of_nat idx + window / 2)).
  unfold len in *.
  assert (0 ≤ a ≤ Z.of_nat idx) by lia.
  assert (Z.of_nat (idx + n) ≤ b ≤ Z.of_nat (length (c :: t))) by lia.
  rewrite slice_substring by (unfold len; lia).
  rewrite (substring_split (Z.to_nat a) idx (Z.to_nat b)) by lia.
  rewrite (substring_split idx (idx + n) (Z.to_nat b)) by lia.
  exists ((if 0 <? a then ellipsis else [])
          ++ substring (Z.to_nat a) idx (c :: t)),
    (substring (idx + n) (Z.to_nat b) (c :: t)
     ++ (if b <? Z.of_nat (length (c :: t)) then ellipsis else [])).
  rewrite <- !app_assoc. reflexivity.
Qed.

Lemma make_snippet_shows_match_witness :
  ∃ pre post,
    make_snippet lower_ascii (str "the quick brown fox") (str " Quick ") 10
    = pre ++ substring 4 (4 + length (lower_ascii (strip (str " Quick "))))
               (str "the quick brown fox")
          ++ post.
Proof.
  apply (make_snippet_shows_match lower_ascii (str "the quick brown fox")
           (str " Quick ") 10 4).
  - lia.
  - discriminate.
  - vm_compute. discriminate.
  - split.
    + exists (str "the "), (str " brown fox"). by split.
    + intros j Hj [Hle Hs]%occurs_at_drop.
      do 4 (destruct j as [|j]; [vm_compute in Hs; congruence|]). lia.
  - vm_compute. lia.
  - vm_compute. discriminate.
Defined.

(** ** The search endpoint: pages, metadata and calls *)

Section SearchRuns.
Context (sv : Services).
Implicit Types (query : pystr) (page page_size : Z) (log : list Call).
Implicit Types (doc : SearchHit) (docs : list SearchHit).

Lemma enrich_run doc log :
  (enrich sv doc log).1 = log ++ [CallGetDocument (id doc)]
  ∧ ∀ r, (enrich sv doc log).2 = Ok r → enriched doc r.
Proof.
  unfold enrich, mbind, call, lift, ret.
  destruct (get_document sv (id doc)) as [m|e]; [|done]. simpl.
  destruct (fromisoformat sv _) as [lm|e]; [|done]. simpl.
  split; [done|]. intros r [= <-]. by repeat split.
Qed.

Lemma enrich_described doc log :
  described sv (id doc) → ∃ r, (enrich sv doc log).2 = Ok r.
Proof.
  intros (m & lm & Hm & Hlm). unfold enrich, mbind, call, lift, ret.
  rewrite Hm. simpl. rewrite Hlm. by eexists.
Qed.

Lemma enrich_undescribed doc log e :
  undescribed sv (id doc) e → (enrich sv doc log).2 = Raise e.
Proof.
  unfold enrich, mbind, call, lift, ret.
  intros [Hm|(m & Hm & Hlm)]; rewrite Hm; simpl; [done|]. by rewrite Hlm.
Qed.

Lemma enrich_loop_run docs : ∀ log log' rs,
  mapM_st (enrich sv) docs log = (log', Ok rs) →
  Forall2 enriched docs rs
  ∧ log' = log ++ (CallGetDocument ∘ id <$> docs).
Proof.
  induction docs as [|doc docs IH]; intros log log' rs; simpl.
  - intros [= <- <-]. split; [constructor | by rewrite app_nil_r].
  - unfold mbind at 1. destruct (enrich_run doc log) as [Hlog Hr].
    destruct (enrich sv doc log) as [log1 [r|e]]; [|done]. simpl in *.
    unfold mbind at 1.
    destruct (mapM_st (enrich sv) docs log1) as [log2 [rs'|e]] eqn:Hrest;
      [|done].
    intros [= <- <-]. destruct (IH _ _ _ Hrest) as [Hall ->]. split.
    + constructor; [by apply Hr | done].
    + by rewrite Hlog, <- app_assoc.
Qed.


Lemma enrich_loop_Ok docs : ∀ log,
  Forall (fun doc => described sv (id doc)) docs →
  ∃ rs, mapM_st (enrich sv) docs log
        = (log ++ (CallGetDocument ∘ id <$> docs), Ok rs).
Proof.
  induction docs as [|doc docs IH]; intros log Hall; simpl.
  - exists []. unfold ret. by rewrite app_nil_r.
  - apply Forall_cons in Hall as [Hdoc Hall]. unfold mbind at 1.
    destruct (enrich_run doc log) as [Hlog _].
    destruct (enrich_described doc log Hdoc) as [r Hr].
    destruct (enrich sv doc log) as [log1 r']; simpl in *; subst log1 r'.
    unfold mbind at 1.
    destruct (IH (log ++ [CallGetDocument (id doc)]) Hall) as [rs ->].
    exists (r :: rs). unfold ret. by rewrite <- app_assoc.
Qed.

Lemma enrich_loop_Raise before doc after e : ∀ log,
  Forall (fun doc => described sv (id doc)) before →
  undescribed sv (id doc) e →
  mapM_st (enrich sv) (before ++ doc :: after) log
  = (log ++ (CallGetDocument ∘ id <$> before ++ [doc]), Raise e).
Proof.
  induction before as [|b before IH]; intros log Hall Hdoc; simpl.
  - unfold mbind at 1. destruct (enrich_run doc log) as [Hlog _].
    pose proof (enrich_undescribed doc log e Hdoc) as He.
    destruct (enrich sv doc log) as [log1 r']; simpl in *. by subst.
  - apply Forall_cons in Hall as [Hb Hall]. unfold mbind at 1.
    destruct (enrich_run b log) as [Hlog _].
    destruct (enrich_described b log Hb) as [r Hr].
    destruct (enrich sv b log) as [log1 r']; simpl in *; subst log1 r'.
    unfold mbind at 1. rewrite (IH _ Hall Hdoc). by rewrite <- app_assoc.
Qed.

Lemma slice_sublist {A} (a b : Z) (xs : list A) : slice a b xs `sublist_of` xs.
Proof.
  unfold slice. etrans; [apply sublist_take | apply sublist_drop].
Qed.

Lemma slice_length {A} (a b : Z) (xs : list A) :
  0 ≤ a ≤ b → len (slice a b xs) = Z.min (len xs) b - Z.min (len xs) a.
Proof.
  intros Hab. unfold slice, clamp_index, len.
  destruct (Z.ltb_spec a 0); [lia|]. destruct (Z.ltb_spec b 0); [lia|].
  rewrite length_take, length_drop. lia.
Qed.

Lemma page_bounds page page_size : 1 ≤ page_of page ∧ 1 ≤ page_size_of page_size.
Proof.
  unfold page_of, page_size_of.
  destruct (Z.ltb_spec page 1), (Z.ltb_spec page_size 1); lia.
Qed.

Lemma page_slice_length {A} page page_size (documents : list A) :
  len (page_slice page page_size documents)
  = Z.max 0 (Z.min (page_size_of page_size)
               (len documents - (page_of page - 1) * page_size_of page_size)).
Proof.
  destruct (page_bounds page page_size) as [Hp Hs].
  assert (0 ≤ (page_of page - 1) * page_size_of page_size)
    by (apply Z.mul_nonneg_nonneg; lia).
  unfold page_slice. rewrite slice_length by lia. unfold len. lia.
Qed.

(** [search] once the three retrieval calls have answered. *)
Lemma search_retrieved query page page_size log items embedding items' :
  chunks_search_text sv query (recall_of page page_size) = Ok items →
  embeddings_create sv (embedded_query query) = Ok embedding →
  chunks_search_vector sv embedding (recall_of page page_size) = Ok items' →
  search sv query page page_size log
  = match aggregate_default (retrieved sv query items items') with
    | Raise e =>
        (log ++ retrieval_calls query page page_size embedding, Raise e)
    | Ok documents =>
        match mapM_st (enrich sv) (page_slice page page_size documents)
                (log ++ retrieval_calls query page page_size embedding) with
        | (log', Raise e) => (log', Raise e)
        | (log', Ok results) =>
            (log',
             Ok {| r_query := query; r_page := page_of page;
                   r_page_size := page_size_of page_size;
                   r_total_results := len documents;
                   r_total_pages :=
                     (len documents + page_size_of page_size - 1)
                     / page_size_of page_size;
                   r_results := results |})
        end
    end.
Proof.
  intros Ht He Hv. rewrite search_run. cbv zeta. rewrite Ht, He, Hv.
  unfold page_slice, page_of, page_size_of, retrieved, retrieval_calls.
  unfold mbind at 1, lift.
  destruct (aggregate_default _) as [documents|e]; [|done].
  unfold mbind at 1.
  by destruct (mapM_st (enrich sv) _ _) as [log2 [rs|e]].
Qed.

Lemma search_Ok_inv query page page_size log log' resp :
  search sv query page page_size log = (log', Ok resp) →
  ∃ items embedding items' documents results,
    chunks_search_text sv query (recall_of page page_size) = Ok items
    ∧ embeddings_create sv (embedded_query query) = Ok embedding
    ∧ chunks_search_vector sv embedding (recall_of page page_size) = Ok items'
    ∧ aggregate_default (retrieved sv query items items') = Ok documents
    ∧ Forall2 enriched (page_slice page page_size documents) results
    ∧ resp = {| r_query := query; r_page := page_of page;
                r_page_size := page_size_of page_size;
                r_total_results := len documents;
                r_total_pages :=
                  (len documents + page_size_of page_size - 1)
                  / page_size_of page_size;
                r_results := results |}
    ∧ log' = log ++ retrieval_calls query page page_size embedding
                 ++ (CallGetDocument ∘ id <$> page_slice page page_size documents).
Proof.
  intros Hrun.
  destruct (chunks_search_text sv query (recall_of page page_size))
    as [items|e] eqn:Ht;
    [|by rewrite search_run in Hrun; cbv zeta in Hrun; rewrite Ht in Hrun].
  destruct (embeddings_create sv (embedded_query query)) as [emb|e] eqn:He;
    [|by rewrite search_run in Hrun; cbv zeta in Hrun; rewrite Ht, He in Hrun].
  destruct (chunks_search_vector sv emb (recall_of page page_size))
    as [items'|e] eqn:Hv;
    [|by rewrite search_run in Hrun; cbv zeta in Hrun;
         rewrite Ht, He, Hv in Hrun].
  rewrite (search_retrieved _ _ _ _ _ _ _ Ht He Hv) in Hrun.
  destruct (aggregate_default _) as [documents|e] eqn:Hagg; [|done].
  destruct (mapM_st (enrich sv) _ _) as [log2 [rs|e]] eqn:Hloop; [|done].
  injection Hrun as <- <-.
  destruct (enrich_loop_run _ _ _ _ Hloop) as [Hall ->].
  exists items, emb, items', documents, rs.
  split_and!; try done. by rewrite <- app_assoc.
Qed.

Lemma item_snippet_length (item : Item) query :
  len (item_snippet sv item query) ≤ 406.
Proof.
  unfold item_snippet, default_window.
  pose proof (snippet_length_min (lower sv) (default [] (item_text item))
                query 400). lia.
Qed.

(** The hits of the retrieval: one passage each, built from an item. *)
Lemma retrieved_hit query items items' h :
  h ∈ retrieved sv query items items' →
  ∃ item q, item ∈ items ++ items'
            ∧ id h = item_document_id item
            ∧ passages h = [ {| chunk_id := item_id item;
                                text := item_snippet sv item q;
                                p_score := item_score item;
                                retriever := match bm25 h with
                                             | Some _ => bm25_retriever
                                             | None => vector_retriever
                                             end |} ].
Proof.
  unfold retrieved. intros [Hh|Hh]%elem_of_app;
    apply list_elem_of_fmap in Hh as (item & -> & Hitem).
  - exists item, query. split; [apply elem_of_app; by left | done].
  - exists item, (embedded_query query).
    split; [apply elem_of_app; by right | done].
Qed.
End SearchRuns.

Lemma enriched_ids (docs rs : list SearchHit) :
  Forall2 enriched docs rs → id <$> rs = id <$> docs.
Proof.
  induction 1 as [|d r ds rs' (Hid & _) _ IH]; [done|]. csimpl.
  by rewrite IH, Hid.
Qed.

Lemma enriched_calls (docs rs : list SearchHit) :
  Forall2 enriched docs rs →
  CallGetDocument ∘ id <$> docs = CallGetDocument ∘ id <$> rs.
Proof.
  intros Hall. by rewrite !list_fmap_compose, (enriched_ids _ _ Hall).
Qed.

(** The response of [search]: the fused documents are those of
    [aggregate_search_hits] with its defaults on the text hits followed by
    the vector hits; the page and the page size are the normalised ones;
    [total_results] counts the fused documents and [total_pages] is the
    least number of pages of [page_size] that hold them; the results are
    the documents of the requested page with their metadata attached and
    nothing else changed; after the three retrieval calls the metadata
    store is called once for each result, in order. *)
Theorem search_response
    (sv : Services) (query : pystr) (page page_size : Z)
    (log log' : list Call) (resp : Response) :
  search sv query page page_size log = (log', Ok resp) →
  ∃ items embedding items' documents,
    chunks_search_text sv query (recall_of page page_size) = Ok items
    ∧ embeddings_create sv (embedded_query query) = Ok embedding
    ∧ chunks_search_vector sv embedding (recall_of page page_size) = Ok items'
    ∧ aggregate_default (retrieved sv query items items') = Ok documents
    ∧ r_query resp = query
    ∧ r_page resp = page_of page
    ∧ r_page_size resp = page_size_of page_size
    ∧ r_total_results resp = len documents
    ∧ r_total_results resp ≤ r_total_pages resp * r_page_size resp
    ∧ r_total_pages resp * r_page_size resp
      < r_total_results resp + r_page_size resp
    ∧ Forall2 enriched (page_slice page page_size documents) (r_results resp)
    ∧ log' = log ++ retrieval_calls query page page_size embedding
                 ++ (CallGetDocument ∘ id <$> r_results resp).
Proof.
  intros (items & emb & items' & documents & rs & Ht & He & Hv & Hagg & Hall
          & -> & ->)%search_Ok_inv.
  exists items, emb, items', documents. simpl.
  destruct (page_bounds page page_size) as [Hp Hs].
  split_and!; try done.
  - pose proof (Z.mul_succ_div_gt (len documents + page_size_of page_size - 1)
                  (page_size_of page_size)). lia.
  - pose proof (Z.mul_div_le (len documents + page_size_of page_size - 1)
                  (page_size_of page_size)). lia.
  - by rewrite (enriched_calls _ _ Hall).
Qed.

Lemma search_response_witness :
  ∃ items embedding items' documents,
    chunks_search_text all_up [] (recall_of 1 10) = Ok items
    ∧ embeddings_create all_up (embedded_query []) = Ok embedding
    ∧ chunks_search_vector all_up embedding (recall_of 1 10) = Ok items'
    ∧ aggregate_default (retrieved all_up [] items items') = Ok documents
    ∧ [] = @nil codepoint
    ∧ 1 = page_of 1
    ∧ 10 = page_size_of 10
    ∧ 1 = len documents
    ∧ 1 ≤ 1 * 10
    ∧ 1 * 10 < 1 + 10
    ∧ Forall2 enriched (page_slice 1 10 documents) [hello_hit]
    ∧ [ CallSearchText [] 50; CallEmbeddings []; CallSearchVector [1%float] 50 50;
        CallGetDocument "D" ]
      = [] ++ retrieval_calls [] 1 10 embedding
           ++ (CallGetDocument ∘ id <$> [hello_hit]).
Proof.
  apply (search_response all_up [] 1 10 []
           [ CallSearchText [] 50; CallEmbeddings [];
             CallSearchVector [1%float] 50 50; CallGetDocument "D" ]
           {| r_query := []; r_page := 1; r_page_size := 10;
              r_total_results := 1; r_total_pages := 1;
              r_results := [hello_hit] |}).
  vm_compute. reflexivity.
Defined.

(** The number of results of a page: [page_size] on every page before the
    last, what is left on the last, and none beyond it, in which case the
    metadata store is not called. A page past the end is no error. *)
Theorem search_page_count
    (sv : Services) (query : pystr) (page page_size : Z)
    (log log' : list Call) (resp : Response) :
  search sv query page page_size log = (log', Ok resp) →
  len (r_results resp)
  = Z.max 0 (Z.min (r_page_size resp)
               (r_total_results resp - (r_page resp - 1) * r_page_size resp))
  ∧ (r_page resp < r_total_pages resp →
     len (r_results resp) = r_page_size resp)
  ∧ (r_total_pages resp < r_page resp →
     r_results resp = []
     ∧ ∀ d, CallGetDocument d ∉ drop (length log) log').
Proof.
  intros (items & emb & items' & documents & rs & Ht & He & Hv & Hagg & Hall
          & -> & ->)%search_Ok_inv.
  simpl. destruct (page_bounds page page_size) as [Hp Hs].
  pose proof (page_slice_length page page_size documents) as Hlen.
  apply Forall2_length in Hall. unfold len in Hlen |- *.
  rewrite Hall in Hlen.
  set (ps := page_size_of page_size) in *. set (p := page_of page) in *.
  set (n := Z.of_nat (length documents)) in *.
  assert (0 ≤ n) by (unfold n; lia).
  pose proof (Z.mul_succ_div_gt (n + ps - 1) ps ltac:(lia)) as Hup.
  pose proof (Z.mul_div_le (n + ps - 1) ps ltac:(lia)) as Hlow.
  set (pages := (n + ps - 1) / ps) in *.
  split_and!.
  - done.
  - intros Hlt. rewrite Hlen. nia.
  - intros Hgt.
    assert (length rs = 0%nat) as Hnil
      by (apply Nat2Z.inj; rewrite Hlen; nia).
    rewrite Hnil in Hall. apply nil_length_inv in Hnil, Hall.
    split; [done|].
    rewrite Hall. intros d. rewrite drop_app_length.
    unfold retrieval_calls. set_solver.
Qed.

Lemma search_page_count_witness :
  len (@nil SearchHit) = Z.max 0 (Z.min 10 (1 - (2 - 1) * 10))
  ∧ (2 < 1 → len (@nil SearchHit) = 10)
  ∧ (1 < 2 →
     @nil SearchHit = []
     ∧ ∀ d, CallGetDocument d
            ∉ drop (length (@nil Call))
                [ CallSearchText [] 100; CallEmbeddings [];
                  CallSearchVector [1%float] 100 100 ]).
Proof.
  apply (search_page_count all_up [] 2 10 []
           [ CallSearchText [] 100; CallEmbeddings [];
             CallSearchVector [1%float] 100 100 ]
           {| r_query := []; r_page := 2; r_page_size := 10;
              r_total_results := 1; r_total_pages := 1;
              r_results := [] |}).
  vm_compute. reflexivity.
Defined.

Lemma first_seen_length (seen ids : list string) :
  (length (first_seen seen ids) ≤ length ids)%nat.
Proof.
  revert seen. induction ids as [|d ids IH]; intros seen; simpl; [done|].
  destruct (decide (d ∈ seen)); simpl.
  - specialize (IH seen). lia.
  - specialize (IH (d :: seen)). lia.
Qed.

Lemma retrieved_length sv query (items items' : list Item) :
  len (retrieved sv query items items') = len items + len items'.
Proof. unfold retrieved, len. rewrite length_app, !length_fmap. lia. Qed.

(** What a page of results is made of. The fused documents are at most as
    many as the items the two searches returned; no document occurs twice
    in a page; every result is a document of some returned item, has at
    most three passages, and each passage is the chunk of a returned item
    of that document, with the item's score and a text of at most 406
    characters (the window of 400 and two ellipses). *)
Theorem search_results_from_retrieval
    (sv : Services) (query : pystr) (page page_size : Z)
    (log log' : list Call) (resp : Response)
    (items : list Item) (embedding : list float) (items' : list Item) :
  search sv query page page_size log = (log', Ok resp) →
  chunks_search_text sv query (recall_of page page_size) = Ok items →
  embeddings_create sv (embedded_query query) = Ok embedding →
  chunks_search_vector sv embedding (recall_of page page_size) = Ok items' →
  r_total_results resp ≤ len items + len items'
  ∧ NoDup (id <$> r_results resp)
  ∧ ∀ r, r ∈ r_results resp →
      id r ∈ item_document_id <$> items ++ items'
      ∧ len (passages r) ≤ 3
      ∧ ∀ p, p ∈ passages r →
          len (text p) ≤ 406
          ∧ ∃ item, item ∈ items ++ items'
                    ∧ item_document_id item = id r
                    ∧ item_id item = chunk_id p
                    ∧ item_score item = p_score p.
Proof.
  intros (items0 & emb & items0' & documents & rs & Ht & He & Hv & Hagg & Hall
          & -> & ->)%search_Ok_inv Ht' He' Hv'.
  rewrite Ht' in Ht. injection Ht as <-.
  rewrite He' in He. injection He as <-.
  rewrite Hv' in Hv. injection Hv as <-. simpl.
  unfold aggregate_default in Hagg.
  pose proof (run_ids _ _ _ _ _ _ Hagg) as Hperm.
  split_and!.
  - rewrite <- retrieved_length with (sv := sv) (query := query).
    unfold len. apply Permutation_length in Hperm.
    rewrite length_fmap in Hperm. rewrite Hperm, keys_merge_hits.
    pose proof (first_seen_length [] (id <$> retrieved sv query items items')).
    rewrite length_fmap in *. lia.
  - rewrite (enriched_ids _ _ Hall).
    eapply sublist_NoDup; [|apply fmap_sublist, slice_sublist].
    rewrite Hperm. apply NoDup_keys_merge_hits.
  - intros r Hr. apply list_elem_of_lookup in Hr as [i Hi].
    destruct (Forall2_lookup_r _ _ _ _ _ Hall Hi)
      as (doc & Hdoc & Hid & _ & _ & _ & Hps & _).
    apply list_elem_of_lookup_2 in Hdoc.
    apply (elem_of_sublist _ documents) in Hdoc; [|apply slice_sublist].
    apply (run_elem _ _ _ _ _ _ _ Hagg) in Hdoc as (d & s & Hd & _ & ->).
    simpl in *. rewrite Hid, Hps, passages_fold_doc. clear Hid Hps.
    assert (∀ p, p ∈ passages_of d (retrieved sv query items items') →
                 len (text p) ≤ 406
                 ∧ ∃ item, item ∈ items ++ items'
                           ∧ item_document_id item = d
                           ∧ item_id item = chunk_id p
                           ∧ item_score item = p_score p) as Hpassage.
    { intros p (ps & Hp & Hps)%elem_of_concat.
      apply list_elem_of_fmap in Hps as (h & -> & Hh).
      apply list_elem_of_filter in Hh as [<- Hh].
      apply retrieved_hit in Hh as (item & q & Hitem & Hdoc & Hpass).
      rewrite Hpass in Hp. apply list_elem_of_singleton in Hp as ->. simpl.
      split; [apply item_snippet_length | by exists item]. }
    split_and!.
    + apply list_elem_of_fmap in Hd as (h & -> & Hh).
      apply retrieved_hit in Hh as (item & q & Hitem & -> & _).
      by apply list_elem_of_fmap_2.
    + rewrite top_passages_length. cbv zeta. unfold default_max_passages.
      simpl. lia.
    + intros p Hp%top_passages_elem. by apply Hpassage.
Qed.

Lemma search_results_from_retrieval_witness :
  1 ≤ len (@nil Item) + len [hello_item]
  ∧ NoDup (id <$> [hello_hit])
  ∧ ∀ r, r ∈ [hello_hit] →
      id r ∈ item_document_id <$> [] ++ [hello_item]
      ∧ len (passages r) ≤ 3
      ∧ ∀ p, p ∈ passages r →
          len (text p) ≤ 406
          ∧ ∃ item, item ∈ [] ++ [hello_item]
                    ∧ item_document_id item = id r
                    ∧ item_id item = chunk_id p
                    ∧ item_score item = p_score p.
Proof.
  apply (search_results_from_retrieval all_up [] 1 10 []
           [ CallSearchText [] 50; CallEmbeddings [];
             CallSearchVector [1%float] 50 50; CallGetDocument "D" ]
           {| r_query := []; r_page := 1; r_page_size := 10;
              r_total_results := 1; r_total_pages := 1;
              r_results := [hello_hit] |}
           [] [1%float] [hello_item]);
    vm_compute; reflexivity.
Defined.

(** One document of the page without metadata fails the whole request:
    when the retrieval and the fusion succeed and the metadata of a
    document of the page cannot be had, those of the documents before it
    being there, [search] raises that error; it has asked the store for
    the documents up to that one and for none after it. *)
Theorem search_raises_when_metadata_fails
    (sv : Services) (query : pystr) (page page_size : Z) (log : list Call)
    (items : list Item) (embedding : list float) (items' : list Item)
    (documents before after : list SearchHit) (doc : SearchHit) (e : exn) :
  chunks_search_text sv query (recall_of page page_size) = Ok items →
  embeddings_create sv (embedded_query query) = Ok embedding →
  chunks_search_vector sv embedding (recall_of page page_size) = Ok items' →
  aggregate_default (retrieved sv query items items') = Ok documents →
  page_slice page page_size documents = before ++ doc :: after →
  Forall (fun b => described sv (id b)) before →
  undescribed sv (id doc) e →
  search sv query page page_size log
  = (log ++ retrieval_calls query page page_size embedding
         ++ (CallGetDocument ∘ id <$> before ++ [doc]),
     Raise e).
Proof.
  intros Ht He Hv Hagg Hpage Hbefore Hdoc.
  rewrite (search_retrieved _ _ _ _ _ _ _ _ Ht He Hv), Hagg, Hpage.
  rewrite (enrich_loop_Raise sv before doc after e _ Hbefore Hdoc).
  by rewrite <- app_assoc.
Qed.

Lemma search_raises_when_metadata_fails_witness :
  search only_D_described (str "hello") 1 10 []
  = ([] ++ retrieval_calls (str "hello") 1 10 [1%float]
        ++ (CallGetDocument ∘ id
              <$> [] ++ [ {| id := "E"; bm25 := Some 2%float; cosine := None;
                             score := (1 / 61)%float; meta := None;
                             passages := [mk_passage "e1" 2 bm25_retriever] |} ]),
     Raise (KeyError "E")).
Proof.
  apply (search_raises_when_metadata_fails only_D_described (str "hello") 1 10 []
           [ {| item_score := 2; item_document_id := "E"; item_id := "e1";
                item_text := None |} ]
           [1%float] [hello_item]
           [ {| id := "E"; bm25 := Some 2%float; cosine := None;
                score := (1 / 61)%float; meta := None;
                passages := [mk_passage "e1" 2 bm25_retriever] |};
             {| id := "D"; bm25 := None; cosine := Some 0.5%float;
                score := (1 / 61)%float; meta := None;
                passages := [ {| chunk_id := "c"; text := str "Hello world";
                                 p_score := 0.5;
                                 retriever := vector_retriever |} ] |} ]
           []
           [ {| id := "D"; bm25 := None; cosine := Some 0.5%float;
                score := (1 / 61)%float; meta := None;
                passages := [ {| chunk_id := "c"; text := str "Hello world";
                                 p_score := 0.5;
                                 retriever := vector_retriever |} ] |} ]).
  - reflexivity.
  - reflexivity.
  - reflexivity.
  - vm_compute. reflexivity.
  - vm_compute. reflexivity.
  - constructor.
  - left. reflexivity.
Defined.

(** [search] returns a response whenever the three retrieval calls answer
    and the metadata store holds every document the searches returned:
    the fusion cannot fail on what the searches return. *)
Theorem search_returns
    (sv : Services) (query : pystr) (page page_size : Z) (log : list Call)
    (items : list Item) (embedding : list float) (items' : list Item) :
  chunks_search_text sv query (recall_of page page_size) = Ok items →
  embeddings_create sv (embedded_query query) = Ok embedding →
  chunks_search_vector sv embedding (recall_of page page_size) = Ok items' →
  60 + (len items + len items') < PyFloat.overflow_threshold →
  (∀ item, item ∈ items ++ items' → described sv (item_document_id item)) →
  ∃ log' resp, search sv query page page_size log = (log', Ok resp).
Proof.
  intros Ht He Hv Hbound Hmeta.
  rewrite (search_retrieved _ _ _ _ _ _ _ _ Ht He Hv).
  destruct (run_returns (retrieved sv query items items') default_w default_w
              default_rrf_k default_max_passages) as [documents Hagg].
  { unfold default_rrf_k. lia. }
  { rewrite retrieved_length. unfold default_rrf_k. lia. }
  unfold aggregate_default. rewrite Hagg.
  destruct (enrich_loop_Ok sv (page_slice page page_size documents)
              (log ++ retrieval_calls query page page_size embedding))
    as [rs ->]; [|by eexists _, _].
  apply Forall_forall. intros doc Hdoc.
  apply (elem_of_sublist _ documents) in Hdoc; [|apply slice_sublist].
  apply (run_elem _ _ _ _ _ _ _ Hagg) in Hdoc as (d & s & Hd & _ & ->).
  simpl. apply list_elem_of_fmap in Hd as (h & -> & Hh).
  apply retrieved_hit in Hh as (item & q & Hitem & -> & _). by apply Hmeta.
Qed.

Lemma search_returns_witness :
  ∃ log' resp, search all_up (str "hello") 1 10 [] = (log', Ok resp).
Proof.
  apply (search_returns all_up (str "hello") 1 10 [] [] [1%float] [hello_item]).
  - reflexivity.
  - reflexivity.
  - reflexivity.
  - vm_compute. reflexivity.
  - intros item _. exists some_document, (str "2024-01-01T00:00:00").
    split; reflexivity.
Defined.

(** C9 (amended): [search] makes no check of the query string. For the
    empty query its first action is the text search with the empty string
    and the recall budget, and when the text search answers the embedding
    service is called next, with the empty string. When the text search,
    the embedding service and the vector search answer and the metadata
    store holds every document the searches returned, [search] returns a
    response, for the empty query. *)
Theorem search_serves_empty_query
    (sv : Services) (page page_size : Z) (log : list Call) :
  (∃ calls,
     (search sv [] page page_size log).1
     = log ++ CallSearchText [] (recall_of page page_size) :: calls
     ∧ (∀ items,
          chunks_search_text sv [] (recall_of page page_size) = Ok items →
          ∃ calls', calls = CallEmbeddings [] :: calls'))
  ∧ (∀ items embedding items',
       chunks_search_text sv [] (recall_of page page_size) = Ok items →
       embeddings_create sv [] = Ok embedding →
       chunks_search_vector sv embedding (recall_of page page_size)
       = Ok items' →
       60 + (len items + len items') < PyFloat.overflow_threshold →
       (∀ item, item ∈ items ++ items' →
                described sv (item_document_id item)) →
       ∃ log' resp,
         search sv [] page page_size log = (log', Ok resp)
         ∧ r_query resp = []).
Proof.
  split; [apply search_first_calls_on_empty_query|].
  intros items embedding items' Ht He Hv Hbound Hmeta.
  rewrite (search_retrieved sv [] page page_size log items embedding items'
             Ht He Hv).
  destruct (run_returns (retrieved sv [] items items') default_w default_w
              default_rrf_k default_max_passages) as [documents Hagg].
  { unfold default_rrf_k. lia. }
  { rewrite retrieved_length. unfold default_rrf_k. lia. }
  unfold aggregate_default. rewrite Hagg.
  destruct (enrich_loop_Ok sv (page_slice page page_size documents)
              (log ++ retrieval_calls [] page page_size embedding))
    as [rs ->]; [|by eexists _, _].
  apply Forall_forall. intros doc Hdoc.
  apply (elem_of_sublist _ documents) in Hdoc; [|apply slice_sublist].
  apply (run_elem _ _ _ _ _ _ _ Hagg) in Hdoc as (d & s & Hd & _ & ->).
  simpl. apply list_elem_of_fmap in Hd as (h & -> & Hh).
  apply retrieved_hit in Hh as (item & q & Hitem & -> & _). by apply Hmeta.
Qed.



(** ** Settings from the environment *)

Section SettingsFacts.
Context (int_ : pystr → option Z) (env : environ).
Implicit Types (name : string) (v d : pystr).

Lemma _env_optional name d :
  _env env name (Some d) false = Returns (setting env name d).
Proof. unfold _env, getenv, setting. by destruct (env !! name). Qed.

Lemma _env_required name :
  _env env name None true
  = match env !! name with
    | Some v => if is_blank v then Raises (missing_required name) else Returns v
    | None => Raises (missing_required name)
    end.
Proof.
  unfold _env, getenv. destruct (env !! name) as [v|]; [|done].
  by destruct (is_blank v).
Qed.

Lemma _env_provided name :
  provided env name → _env env name None true = Returns (setting env name []).
Proof.
  intros (v & Hv & Hb). rewrite _env_required. unfold setting.
  by rewrite Hv, Hb.
Qed.

Lemma _env_not_provided name :
  ¬ provided env name → _env env name None true = Raises (missing_required name).
Proof.
  intros Hno. rewrite _env_required. destruct (env !! name) as [v|] eqn:Hv; [|done].
  destruct (is_blank v) eqn:Hb; [done|]. destruct Hno. by exists v.
Qed.

Lemma _env_returns_provided name v :
  _env env name None true = Returns v → provided env name.
Proof.
  rewrite _env_required. destruct (env !! name) as [v'|] eqn:Hv; [|done].
  destruct (is_blank v') eqn:Hb; [done|]. intros _. by exists v'.
Qed.

Lemma _env_int_dimension :
  _env_int int_ env "AZURE_OPENAI_EMBEDDING_DIM" (Some 1536) false
  = match env !! "AZURE_OPENAI_EMBEDDING_DIM"%string with
    | None => Returns 1536
    | Some raw =>
        if is_blank raw then Returns 1536
        else match int_ raw with
             | Some n => Returns n
             | None => Raises (not_an_integer "AZURE_OPENAI_EMBEDDING_DIM" raw)
             end
    end.
Proof. unfold _env_int, getenv. by destruct (env !! _). Qed.

(** [from_env] when every required variable is provided. *)
Lemma from_env_provided :
  Forall (provided env) required_variables →
  from_env int_ env
  = obind (_env_int int_ env "AZURE_OPENAI_EMBEDDING_DIM" (Some 1536) false)
      (fun dim => Returns (settings_of env dim)).
Proof.
  unfold required_variables. rewrite !Forall_cons.
  intros (H1 & H2 & H3 & H4 & H5 & H6 & H7 & _). unfold from_env.
  rewrite !_env_optional.
  rewrite (_env_provided _ H1), (_env_provided _ H2), (_env_provided _ H3),
    (_env_provided _ H4), (_env_provided _ H5), (_env_provided _ H6),
    (_env_provided _ H7).
  done.
Qed.

Lemma from_env_returns_provided s :
  from_env int_ env = Returns s → Forall (provided env) required_variables.
Proof.
  unfold from_env. rewrite !_env_optional. intros Hrun.
  repeat match type of Hrun with
         | obind (_env env ?name None true) _ = _ =>
             let v := fresh "v" in
             let H := fresh "H" in
             destruct (_env env name None true) as [v|] eqn:H; [|done];
             apply _env_returns_provided in H; simpl in Hrun
         end.
  unfold required_variables. by repeat constructor.
Qed.
End SettingsFacts.

(** [from_env] returns settings exactly when the seven required variables
    are set to values that are not blank and the embedding dimension, if
    set and not blank, is an integer. Every setting is then the value of its
    variable when the variable is set, even to the empty string, and its
    default otherwise; the dimension is the default 1536 when its variable
    is unset or blank. *)
Theorem from_env_returns_iff
    (int_ : pystr → option Z) (env : environ) (s : Settings) :
  from_env int_ env = Returns s
  ↔ Forall (provided env) required_variables
    ∧ ∃ dim, dimension_of int_ env = Some dim ∧ s = settings_of env dim.
Proof.
  split.
  - intros Hrun. pose proof (from_env_returns_provided _ _ _ Hrun) as Hreq.
    split; [done|]. rewrite (from_env_provided _ _ Hreq) in Hrun.
    rewrite _env_int_dimension in Hrun. unfold dimension_of.
    destruct (env !! "AZURE_OPENAI_EMBEDDING_DIM"%string) as [raw|].
    + destruct (is_blank raw).
      * injection Hrun as <-. by exists 1536.
      * destruct (int_ raw) as [n|]; [|done]. injection Hrun as <-.
        by exists n.
    + injection Hrun as <-. by exists 1536.
  - intros (Hreq & dim & Hdim & ->). rewrite (from_env_provided _ _ Hreq).
    rewrite _env_int_dimension. unfold dimension_of in Hdim.
    destruct (env !! "AZURE_OPENAI_EMBEDDING_DIM"%string) as [raw|].
    + destruct (is_blank raw); [by injection Hdim as <-|]. by rewrite Hdim.
    + by injection Hdim as <-.
Qed.

(** On the example environment: the chunk index, set to the empty string,
    is the empty string and not the default; the dimension is read. *)
Example from_env_complete :
  from_env int_decimal complete_env = Returns (settings_of complete_env 3072)
  ∧ search_chunk_index_name (settings_of complete_env 3072) = []
  ∧ search_document_index_name (settings_of complete_env 3072) = str "documents".
Proof. vm_compute. repeat split; reflexivity. Qed.

(** The error of [from_env] names the first required variable, in the
    order they are read, that is unset or blank, whatever the variables
    after it are. *)
Theorem from_env_reports_first_missing
    (int_ : pystr → option Z) (env : environ)
    (before after : list string) (name : string) :
  required_variables = before ++ name :: after →
  Forall (provided env) before →
  ¬ provided env name →
  from_env int_ env = Raises (missing_required name).
Proof.
  intros Hsplit Hbefore Hname. unfold required_variables in Hsplit.
  unfold from_env. rewrite !_env_optional.
  repeat (destruct before as [|? before];
          [ injection Hsplit as <- _;
            by rewrite (_env_not_provided _ _ Hname)
          | injection Hsplit as <- Hsplit;
            apply Forall_cons in Hbefore as [Hb Hbefore];
            rewrite (_env_provided _ _ Hb); clear Hb; cbn [obind] ]).
  by destruct before.
Qed.

Lemma from_env_reports_first_missing_witness :
  from_env int_decimal (delete "AZURE_SEARCH_KEY"%string complete_env)
  = Raises (missing_required "AZURE_SEARCH_KEY").
Proof.
  apply (from_env_reports_first_missing int_decimal
           (delete "AZURE_SEARCH_KEY"%string complete_env)
           ["AZURE_SEARCH_ENDPOINT"%string]
           [ "AZURE_SEARCH_BLOB_CONNECTION_STRING";
             "AZURE_SEARCH_BLOB_CONTAINER"; "AZURE_OPENAI_ENDPOINT";
             "AZURE_OPENAI_KEY"; "AZURE_OPENAI_EMBEDDING_DEPLOYMENT" ]%string
           "AZURE_SEARCH_KEY").
  - reflexivity.
  - repeat constructor. eexists. split; [vm_compute; reflexivity | reflexivity].
  - intros (v & Hv & _). vm_compute in Hv. discriminate.
Defined.

(** A dimension that is set, not blank and no integer is an error: the
    default is not used in its place. The required variables being
    provided, [from_env] raises the error that quotes the value. *)
Theorem from_env_rejects_bad_dimension
    (int_ : pystr → option Z) (env : environ) (raw : pystr) :
  Forall (provided env) required_variables →
  env !! "AZURE_OPENAI_EMBEDDING_DIM"%string = Some raw →
  is_blank raw = false →
  int_ raw = None →
  from_env int_ env
  = Raises (not_an_integer "AZURE_OPENAI_EMBEDDING_DIM" raw).
Proof.
  intros Hreq Hraw Hblank Hint. rewrite (from_env_provided _ _ Hreq).
  rewrite _env_int_dimension. by rewrite Hraw, Hblank, Hint.
Qed.

Lemma from_env_rejects_bad_dimension_witness :
  from_env int_decimal
    (<["AZURE_OPENAI_EMBEDDING_DIM"%string := str "1536 dims"]> complete_env)
  = Raises (not_an_integer "AZURE_OPENAI_EMBEDDING_DIM" (str "1536 dims")).
Proof.
  apply (from_env_rejects_bad_dimension int_decimal
           (<["AZURE_OPENAI_EMBEDDING_DIM"%string := str "1536 dims"]>
              complete_env)
           (str "1536 dims")).
  - repeat constructor;
      (eexists; split; [vm_compute; reflexivity | reflexivity]).
  - reflexivity.
  - reflexivity.
  - reflexivity.
Defined.

(** ** [setup]: what it asks of the service *)

Section SetupFacts.
Context (answer : list Event → Op → result unit).
Implicit Types (t trace : list Event) (op : Op) (ops : list Op) (e : exn).

Lemma request_then {A} op (k : M (list Event) A) t :
  mbind (request answer op) (fun _ => k) t
  = match answer t op with
    | Ok _ => k (t ++ [Request op])
    | Raise e => (t ++ [Request op], Raise e)
    end.
Proof. unfold mbind, request. by destruct (answer t op). Qed.

Lemma info_then {A} m (k : M (list Event) A) t :
  mbind (logger_info m) (fun _ => k) t = k (t ++ [Info m]).
Proof. done. Qed.

Lemma closing_run t :
  mbind (request answer close_index_client)
    (fun _ => request answer close_indexer_client) t
  = send_all answer t closings.
Proof.
  rewrite request_then. unfold closings. cbn [send_all].
  destruct (answer t close_index_client) as [[]|e]; [|done].
  unfold request. by destruct (answer _ close_indexer_client) as [[]|e].
Qed.

(** The body of the inner [try]. *)
Lemma rebuilding_run t :
  mbind (request answer (delete_index DOCUMENT_INDEX_SCHEMA)) (fun _ =>
  mbind (request answer (delete_index CHUNK_INDEX_SCHEMA)) (fun _ =>
  mbind (request answer delete_indexer) (fun _ =>
  mbind (request answer delete_skillset) (fun _ =>
  mbind (request answer delete_data_source_connection) (fun _ =>
  mbind (request answer (create_index DOCUMENT_INDEX_SCHEMA)) (fun _ =>
  mbind (request answer (create_index CHUNK_INDEX_SCHEMA)) (fun _ =>
  mbind (request answer create_data_source_connection) (fun _ =>
  mbind (request answer create_skillset) (fun _ =>
  mbind (request answer create_indexer) (fun _ =>
  logger_info completed)))))))))) t
  = let '(t3, r3) := send_all answer t rebuild in
    match r3 with
    | Ok _ => (t3 ++ [Info completed], Ok tt)
    | Raise e => (t3, Raise e)
    end.
Proof.
  unfold rebuild. cbn [send_all].
  repeat (rewrite request_then; destruct (answer _ _) as [[]|?]; [|done]).
  done.
Qed.

(** [setup] as three runs of requests: the lookups, the rebuild when a
    lookup raised [HttpResponseError], and the closings. *)
Lemma setup_run t :
  setup answer t
  = let '(t1, r1) := send_all answer t lookups in
    let '(t2, r2) :=
      match r1 with
      | Ok _ => (t1 ++ [Info healthy], Ok tt)
      | Raise e =>
          if is_HttpResponseError e then
            let '(t3, r3) :=
              send_all answer ((t1 ++ [Info (str_of e)]) ++ [Info setting_up])
                rebuild in
            match r3 with
            | Ok _ => (t3 ++ [Info completed], Ok tt)
            | Raise e' => (t3 ++ [Error (str_of e')], Ok tt)
            end
          else (t1, Raise e)
      end in
    match r2 with
    | Ok _ => send_all answer t2 closings
    | Raise e => (t2, Raise e)
    end.
Proof.
  unfold setup. unfold mbind at 1. unfold try_except at 1.
  rewrite request_then. unfold lookups. cbn [send_all].
  destruct (answer t (get_index DOCUMENT_INDEX_SCHEMA)) as [[]|e] eqn:E1.
  - rewrite request_then.
    destruct (answer _ (get_index CHUNK_INDEX_SCHEMA)) as [[]|e] eqn:E2.
    + unfold logger_info at 1, modify at 1. apply closing_run.
    + destruct (is_HttpResponseError e); [|done].
      rewrite !info_then. unfold try_except. rewrite rebuilding_run.
      destruct (send_all answer _ rebuild) as [t3 [[]|e']];
        cbn -[mbind request send_all]; by rewrite closing_run.
  - destruct (is_HttpResponseError e); [|done].
    rewrite !info_then. unfold try_except. rewrite rebuilding_run.
    destruct (send_all answer _ rebuild) as [t3 [[]|e']];
      cbn -[mbind request send_all]; by rewrite closing_run.
Qed.
Lemma send_all_shape ops : ∀ t,
  ∃ n, (n ≤ length ops)%nat
       ∧ (send_all answer t ops).1 = t ++ (Request <$> take n ops)
       ∧ ((send_all answer t ops).2 = Ok tt → n = length ops).
Proof.
  induction ops as [|op ops IH]; intros t; cbn [send_all].
  - exists 0%nat. by rewrite app_nil_r.
  - destruct (answer t op) as [[]|e].
    + destruct (IH (t ++ [Request op])) as (n & Hn & Htrace & Hok).
      exists (S n). split_and!; [simpl; lia| |intros ?; simpl; f_equal; auto].
      rewrite Htrace. by rewrite <- app_assoc.
    + exists 1%nat. split_and!; [simpl; lia| |done].
      by destruct ops.
Qed.

(** The first request is always sent. *)
Lemma send_all_first op ops t :
  ∃ n, (n ≤ length ops)%nat
       ∧ (send_all answer t (op :: ops)).1
         = t ++ (Request <$> op :: take n ops).
Proof.
  cbn [send_all]. destruct (answer t op) as [[]|e].
  - destruct (send_all_shape ops (t ++ [Request op])) as (n & Hn & -> & _).
    exists n. split; [done|]. by rewrite <- app_assoc.
  - exists 0%nat. split; [lia|]. by rewrite take_0.
Qed.

Lemma send_all_Ok ops : ∀ t,
  (∀ t' op, op ∈ ops → answer t' op = Ok tt) →
  send_all answer t ops = (t ++ (Request <$> ops), Ok tt).
Proof.
  induction ops as [|op ops IH]; intros t Hok; cbn [send_all].
  - by rewrite app_nil_r.
  - rewrite Hok by left. rewrite IH by (intros; apply Hok; by right).
    by rewrite <- app_assoc.
Qed.

Lemma send_all_until sent op rest e : ∀ t,
  (∀ t' op', op' ∈ sent → answer t' op' = Ok tt) →
  (∀ t', answer t' op = Raise e) →
  send_all answer t (sent ++ op :: rest)
  = (t ++ (Request <$> sent ++ [op]), Raise e).
Proof.
  induction sent as [|op' sent IH]; intros t Hok Hop; cbn [send_all app].
  - by rewrite Hop.
  - rewrite Hok by left. rewrite IH; [|intros; apply Hok; by right|done].
    by rewrite <- app_assoc.
Qed.

Lemma requests_app t1 t2 : requests (t1 ++ t2) = requests t1 ++ requests t2.
Proof. apply omap_app. Qed.

Lemma requests_sent ops : requests (Request <$> ops) = ops.
Proof. induction ops as [|op ops IH]; [done|]. csimpl. by rewrite IH. Qed.

Lemma changes_app t1 t2 : changes (t1 ++ t2) = changes t1 ++ changes t2.
Proof. unfold changes. by rewrite requests_app, filter_app. Qed.

Lemma changes_sent ops :
  changes (Request <$> ops) = filter (fun op => changes_service op = true) ops.
Proof. unfold changes. by rewrite requests_sent. Qed.


Lemma changes_closings n : changes (Request <$> take n closings) = [].
Proof. by destruct n as [|[|[|n]]]. Qed.


End SetupFacts.

Lemma filter_all {A} (P : A → Prop) `{∀ x, Decision (P x)} (l : list A) :
  Forall P l → filter P l = l.
Proof.
  induction 1 as [|x l Hx _ IH]; [done|].
  by rewrite filter_cons_True, IH.
Qed.

(** An event that is no request, and none of the logged ones, is not in
    a trace. *)
Ltac not_in_trace H :=
  repeat (rewrite elem_of_app in H || rewrite elem_of_cons in H);
  destruct_or? H;
  first [ done
        | by apply elem_of_nil in H
        | by apply list_elem_of_fmap in H as (? & ? & _) ].


(** When both indexes are found, [setup] changes nothing: it logs that the
    indexes are healthy and goes on to close the index client; it sends no
    deletion and no creation, and does not log "Setting up". *)
Theorem setup_leaves_healthy_service
    (answer : list Event → Op → result unit) :
  answer [] (get_index DOCUMENT_INDEX_SCHEMA) = Ok tt →
  answer [Request (get_index DOCUMENT_INDEX_SCHEMA)]
    (get_index CHUNK_INDEX_SCHEMA) = Ok tt →
  changes (setup answer []).1 = []
  ∧ Info healthy ∈ (setup answer []).1
  ∧ (Info setting_up ∉ (setup answer []).1)
  ∧ Request close_index_client ∈ (setup answer []).1.
Proof.
  intros H1 H2. rewrite setup_run. unfold lookups. cbn [send_all].
  rewrite H1. cbn [app]. rewrite H2. cbn [app].
  unfold closings. cbn [send_all].
  destruct (answer _ close_index_client) as [[]|e];
    [destruct (answer _ close_indexer_client) as [[]|e]|];
    cbn; (split_and!; [done | set_solver | | set_solver]);
    intros Hin; by not_in_trace Hin.
Qed.

Lemma setup_leaves_healthy_service_witness :
  changes (setup in_place []).1 = []
  ∧ Info healthy ∈ (setup in_place []).1
  ∧ (Info setting_up ∉ (setup in_place []).1)
  ∧ Request close_index_client ∈ (setup in_place []).1.
Proof. apply (setup_leaves_healthy_service in_place); reflexivity. Defined.

(** An index that is not found starts the rebuild, and no error of the
    rebuild stops [setup]: when a lookup raises [HttpResponseError] and the
    two closings answer, [setup] returns normally whatever the deletions
    and creations answer; it has sent the deletion of the document index
    first, also when only the chunk index was missing, and has closed both
    clients last. *)
Theorem setup_returns_despite_rebuild_errors
    (answer : list Event → Op → result unit) :
  missing_index answer →
  (∀ t, answer t close_index_client = Ok tt) →
  (∀ t, answer t close_indexer_client = Ok tt) →
  ∃ trace,
    setup answer []
    = (trace ++ [Request close_index_client; Request close_indexer_client],
       Ok tt)
    ∧ head (changes trace) = Some (delete_index DOCUMENT_INDEX_SCHEMA).
Proof.
  intros Hmiss Hc1 Hc2. rewrite setup_run. unfold lookups. cbn [send_all].
  assert (∀ t, send_all answer t closings
               = (t ++ [Request close_index_client;
                        Request close_indexer_client], Ok tt)) as Hclose.
  { intros t. unfold closings. cbn [send_all]. rewrite Hc1, Hc2.
    by rewrite <- app_assoc. }
  assert (∀ t, changes t = [] →
            ∃ trace,
              (let '(t2, r2) :=
                 let '(t3, r3) := send_all answer t rebuild in
                 match r3 with
                 | Ok _ => (t3 ++ [Info completed], Ok tt)
                 | Raise e' => (t3 ++ [Error (str_of e')], Ok tt)
                 end in
               match r2 with
               | Ok _ => send_all answer t2 closings
               | Raise e => (t2, Raise e)
               end)
              = (trace ++ [Request close_index_client;
                           Request close_indexer_client], Ok tt)
              ∧ head (changes trace)
                = Some (delete_index DOCUMENT_INDEX_SCHEMA)) as Hrebuild.
  { intros t Ht.
    destruct (send_all_first answer (delete_index DOCUMENT_INDEX_SCHEMA)
                (tail rebuild) t) as (n & _ & Htrace).
    change (delete_index DOCUMENT_INDEX_SCHEMA :: tail rebuild)
      with rebuild in Htrace.
    destruct (send_all answer t rebuild) as [t3 r3]. simpl in Htrace.
    subst t3.
    assert (head (changes (t ++ Request (delete_index DOCUMENT_INDEX_SCHEMA)
                             :: (Request <$> take n (tail rebuild))))
            = Some (delete_index DOCUMENT_INDEX_SCHEMA)) as Hhead
      by (by rewrite changes_app, Ht).
    destruct r3 as [[]|e']; rewrite Hclose; eexists; (split; [done|]);
      rewrite changes_app, app_nil_r; exact Hhead. }
  destruct Hmiss as [[msg H1]|(H1 & msg & H2)].
  - rewrite H1. cbn [is_HttpResponseError]. by apply Hrebuild.
  - rewrite H1. cbn [app]. rewrite H2. cbn [is_HttpResponseError].
    by apply Hrebuild.
Qed.

Lemma setup_returns_despite_rebuild_errors_witness :
  ∃ trace,
    setup chunk_index_missing []
    = (trace ++ [Request close_index_client; Request close_indexer_client],
       Ok tt)
    ∧ head (changes trace) = Some (delete_index DOCUMENT_INDEX_SCHEMA).
Proof.
  apply (setup_returns_despite_rebuild_errors chunk_index_missing).
  - right. split; [reflexivity | by exists "not found"%string].
  - reflexivity.
  - reflexivity.
Defined.

(** The rebuild stops at its first error and undoes nothing: when a lookup
    raises [HttpResponseError], the requests before [op] in the sequence
    answer and [op] raises [e], the requests that changed the service are
    those up to [op] and no other; the error is logged and "Completed"
    is not. *)
Theorem setup_stops_at_first_rebuild_error
    (answer : list Event → Op → result unit)
    (sent rest : list Op) (op : Op) (e : exn) :
  missing_index answer →
  rebuild = sent ++ op :: rest →
  (∀ t op', op' ∈ sent → answer t op' = Ok tt) →
  (∀ t, answer t op = Raise e) →
  changes (setup answer []).1 = sent ++ [op]
  ∧ Error (str_of e) ∈ (setup answer []).1
  ∧ Info completed ∉ (setup answer []).1.
Proof.
  intros Hmiss Hsplit Hsent Hop. rewrite setup_run. unfold lookups.
  cbn [send_all].
  assert (filter (fun op => changes_service op = true) (sent ++ [op])
          = sent ++ [op]) as Hchanging.
  { apply filter_all.
    assert (Forall (fun op => changes_service op = true) rebuild) as Hall
      by (by repeat constructor).
    rewrite Hsplit in Hall. apply Forall_app in Hall as [Hs Hr].
    apply Forall_cons in Hr as [Hr _]. apply Forall_app. by split; [|constructor]. }
  assert (∀ t, changes t = [] → Info completed ∉ t →
            let run :=
              (let '(t2, r2) :=
                 let '(t3, r3) := send_all answer t rebuild in
                 match r3 with
                 | Ok _ => (t3 ++ [Info completed], Ok tt)
                 | Raise e' => (t3 ++ [Error (str_of e')], Ok tt)
                 end in
               match r2 with
               | Ok _ => send_all answer t2 closings
               | Raise e => (t2, Raise e)
               end) in
            changes run.1 = sent ++ [op]
            ∧ Error (str_of e) ∈ run.1
            ∧ Info completed ∉ run.1) as Hrebuild.
  { intros t Ht Hno run. subst run. rewrite Hsplit.
    rewrite (send_all_until answer sent op rest e t Hsent Hop).
    destruct (send_all_shape answer closings
                ((t ++ (Request <$> sent ++ [op])) ++ [Error (str_of e)]))
      as (n3 & _ & -> & _).
    split_and!.
    - rewrite !changes_app, Ht, changes_sent, Hchanging, changes_closings.
      change (changes [Error (str_of e)]) with (@nil Op).
      by rewrite !app_nil_r.
    - set_solver.
    - intros Hin. rewrite !elem_of_app in Hin.
      destruct Hin as [[[Hin|Hin]|Hin]|Hin]; [done|..]; by not_in_trace Hin. }
  destruct Hmiss as [[msg H1]|(H1 & msg & H2)].
  - rewrite H1. cbn [is_HttpResponseError]. apply Hrebuild; [done|].
    intros Hin. by not_in_trace Hin.
  - rewrite H1. cbn [app]. rewrite H2. cbn [is_HttpResponseError].
    apply Hrebuild; [done|]. intros Hin. by not_in_trace Hin.
Qed.

Lemma setup_stops_at_first_rebuild_error_witness :
  changes (setup chunk_index_missing []).1
  = [ delete_index DOCUMENT_INDEX_SCHEMA; delete_index CHUNK_INDEX_SCHEMA;
      delete_indexer; delete_skillset; delete_data_source_connection;
      create_index DOCUMENT_INDEX_SCHEMA; create_index CHUNK_INDEX_SCHEMA ]
    ++ [create_data_source_connection]
  ∧ Error (str_of (HttpResponseError "forbidden"))
    ∈ (setup chunk_index_missing []).1
  ∧ Info completed ∉ (setup chunk_index_missing []).1.
Proof.
  apply (setup_stops_at_first_rebuild_error chunk_index_missing
           [ delete_index DOCUMENT_INDEX_SCHEMA; delete_index CHUNK_INDEX_SCHEMA;
             delete_indexer; delete_skillset; delete_data_source_connection;
             create_index DOCUMENT_INDEX_SCHEMA; create_index CHUNK_INDEX_SCHEMA ]
           [create_skillset; create_indexer]
           create_data_source_connection (HttpResponseError "forbidden")).
  - right. split; [reflexivity | by exists "not found"%string].
  - reflexivity.
  - intros t op' Hin.
    repeat (apply elem_of_cons in Hin as [->|Hin]; [reflexivity|]).
    by apply elem_of_nil in Hin.
  - reflexivity.
Defined.

(** A lookup that raises anything but [HttpResponseError] ends [setup]
    with that error: no rebuild is tried, nothing is logged, and neither
    client is closed. *)
Theorem setup_passes_on_other_errors
    (answer : list Event → Op → result unit) (e : exn) :
  lookup_fails_otherwise answer e →
  (setup answer []).2 = Raise e
  ∧ (setup answer []).1 `prefix_of` Request <$> lookups
  ∧ (Request close_index_client ∉ (setup answer []).1)
  ∧ Request close_indexer_client ∉ (setup answer []).1.
Proof.
  intros [Hother [H1|[H1 H2]]]; rewrite setup_run; unfold lookups;
    cbn [send_all].
  - rewrite H1, Hother. cbn. split_and!; [done|by eexists [_]|..];
      intros Hin; by not_in_trace Hin.
  - rewrite H1. cbn [app]. rewrite H2, Hother. cbn.
    split_and!; [done|by eexists []|..]; intros Hin; by not_in_trace Hin.
Qed.

Lemma setup_passes_on_other_errors_witness :
  (setup unreachable []).2 = Raise (ValueError "unreachable")
  ∧ (setup unreachable []).1 `prefix_of` Request <$> lookups
  ∧ (Request close_index_client ∉ (setup unreachable []).1)
  ∧ Request close_indexer_client ∉ (setup unreachable []).1.
Proof.
  apply (setup_passes_on_other_errors unreachable (ValueError "unreachable")).
  split; [reflexivity | left; reflexivity].
Defined.
